(** * sciris/utils.py: nested-dictionary helpers, [flattendict], [vec2obj],
      [inclusiverange] and others

    A shallow embedding of the Python functions
    [getnested], [setnested], [makenested], [iternested], [flattendict],
    [vec2obj] (with [dcp]), [inclusiverange], [sanitizefilename],
    [compareversions], [quantile] and [createcollist] of [sciris/utils.py],
    followed by the properties established about them.

    Conventions of the embedding:
    - a Python exception is a value of [exn]; a computation that may raise
      returns [res A];
    - a Python [dict] is an association list in iteration order, with
      unique keys ([wf]);
    - a nested dictionary is a tree of dicts; [Heap] has the same functions
      on dicts that are objects of a heap, where a dict can be the value
      of several keys;
    - objects passed by reference ([vec2obj], [dcp]) live in a store
      ([gmap loc _]), lists and dicts that hold numbers and references;
    - Python floats and numpy's [float64] are binary64 numbers: a finite
      one is the rational it denotes, and arithmetic rounds ([round64]);
    - where Python 2 and Python 3 differ ([round], the order between
      numbers and strings), the embedding follows Python 3. *)

From stdpp Require Import gmap strings list fin_maps sorting.
From Stdlib Require Import ZArith QArith Qcanon Qround Ascii Lia.
From Stdlib Require Qcabs SpecFloat.

Local Open Scope Z_scope.

(** ** Python exceptions and results *)

Module Py.

(** The messages of the bare [Exception(...)] raised by the functions
    embedded below, one constructor per [raise] site. *)
Inductive message :=
| RecursionLimitReached (basekey : string)      (* flattendict *)
| RequiresOriginal                              (* vec2obj: orig is None *)
| RequiresVector                                (* vec2obj: newvec is None *)
| LengthsMustMatch (lenorig lennew : nat)       (* vec2obj *)
| MaximumIndexTooLarge (maxind : Z) (lenorig : nat) (* vec2obj *)
| TooManyArguments.                             (* inclusiverange *)

Inductive exn :=
| KeyError (k : string)
| TypeError
| AttributeError
| IndexError
| ValueError
| ZeroDivisionError
| OverflowError
| Exception (m : message)
| Dangling. (* no Python exception: a reference to no object of the store *)

Inductive res (A : Type) :=
| Ok (a : A)
| Raise (e : exn).
Arguments Ok {A} a.
Arguments Raise {A} e.

#[export] Instance res_ret : MRet res := fun A a => Ok a.
#[export] Instance res_bind : MBind res := fun A B f m =>
  match m with
  | Ok a => f a
  | Raise e => Raise e
  end.

(** [functools.reduce(f, xs, init)] for an [f] that may raise. *)
Fixpoint reduce {A B} (f : A -> B -> res A) (xs : list B) (init : A) : res A :=
  match xs with
  | [] => Ok init
  | x :: rest => f init x ≫= reduce f rest
  end.

End Py.
Import Py.

(** ** Values stored in nested dictionaries *)

#[warnings="-register-all"]
Inductive value :=
| VNone
| VInt (n : Z)
| VStr (s : string)
| VDict (items : list (string * value)).

Definition path := list string.

(** [bool(d)]: [None], [0], [''] and [{}] are falsy. *)
Definition truthy (d : value) : bool :=
  match d with
  | VNone => false
  | VInt n => negb (n =? 0)
  | VStr s => negb (String.eqb s "")
  | VDict items => match items with [] => false | _ => true end
  end.

(** [isinstance(d, dict)] *)
Definition is_dict (d : value) : bool :=
  match d with VDict _ => true | _ => false end.

Fixpoint dict_lookup {A} (k : string) (items : list (string * A)) : option A :=
  match items with
  | [] => None
  | (k', v) :: rest => if String.eqb k k' then Some v else dict_lookup k rest
  end.

(** Item assignment on a dict: an existing key keeps its position, a new
    key goes last. *)
Fixpoint dict_store {A} (k : string) (v : A) (items : list (string * A))
  : list (string * A) :=
  match items with
  | [] => [(k, v)]
  | (k', v') :: rest =>
      if String.eqb k k' then (k', v) :: rest else (k', v') :: dict_store k v rest
  end.

(** [k in d.keys()] *)
Definition is_key {A} (k : string) (items : list (string * A)) : bool :=
  match dict_lookup k items with Some _ => true | None => false end.

(** [d.get(k)] *)
Definition get_method (d : value) (k : string) : res value :=
  match d with
  | VDict items => Ok (match dict_lookup k items with Some v => v | None => VNone end)
  | _ => Raise AttributeError
  end.

(** [d[k]] for a string [k] *)
Definition getitem (d : value) (k : string) : res value :=
  match d with
  | VDict items =>
      match dict_lookup k items with Some v => Ok v | None => Raise (KeyError k) end
  | _ => Raise TypeError
  end.

(** [d[k] = v] for a string [k] *)
Definition setitem (d : value) (k : string) (v : value) : res value :=
  match d with
  | VDict items => Ok (VDict (dict_store k v items))
  | _ => Raise TypeError
  end.

(** [k in d] for a string [k]: key membership on a dict, substring test on
    a string, a type error on [None] and on numbers. *)
Definition contains (d : value) (k : string) : res bool :=
  match d with
  | VDict items => Ok (is_key k items)
  | VStr s => Ok (match String.index 0 k s with Some _ => true | None => false end)
  | _ => Raise TypeError
  end.

(** Keys are unique at every level of a tree of dicts, as they are in any
    Python dict. *)
Fixpoint wf (d : value) : bool :=
  match d with
  | VDict items =>
      (fix go (items : list (string * value)) : bool :=
         match items with
         | [] => true
         | (k, v) :: rest => negb (is_key k rest) && wf v && go rest
         end) items
  | _ => true
  end.

(** ** The nested-dictionary functions *)

(** [lambda d, k: d.get(k) if d else None if safe else d[k]], which Python
    reads as [d.get(k) if d else (None if safe else d[k])]. *)
Definition getnested_step (safe : bool) (d : value) (k : string) : res value :=
  if truthy d then get_method d k
  else if safe then Ok VNone
  else getitem d k.

Definition getnested (nesteddict : value) (keylist : path) (safe : bool) : res value :=
  reduce (getnested_step safe) keylist nesteddict.

(** Replace the node found under [keylist] by [new]; the functional reading
    of mutating, in place, the object that a descent along [keylist]
    returned. *)
Fixpoint graft (root : value) (keylist : path) (new : value) : value :=
  match keylist with
  | [] => new
  | k :: rest =>
      match root with
      | VDict items =>
          match dict_lookup k items with
          | Some child => VDict (dict_store k (graft child rest new) items)
          | None => root
          end
      | _ => root
      end
  end.

(** [getnested(nesteddict, keylist[:-1])[keylist[-1]] = value].  The result
    pairs the dictionary as it is after the call with the outcome.  The
    object assigned to is the one [getnested] returned: a dict it returns
    is the node under [keylist[:-1]], anything else rejects the
    assignment. *)
Definition setnested (nesteddict : value) (keylist : path) (v : value)
  : value * res unit :=
  match getnested nesteddict (removelast keylist) false with
  | Raise e => (nesteddict, Raise e)
  | Ok target =>
      match last keylist with
      | None => (nesteddict, Raise IndexError)
      | Some k =>
          match setitem target k v with
          | Raise e => (nesteddict, Raise e)
          | Ok target' => (graft nesteddict (removelast keylist) target', Ok tt)
          end
      end
  end.

(** The loop of [makenested] over [keylist[:-1]], then the assignment of
    the leaf.  [currentlevel] is updated in place, so every level returns
    its new content to the level above it, together with the outcome. *)
Fixpoint makenested_from (currentlevel : value) (keys : path) (lastkey : string)
  (item : value) : value * res unit :=
  match keys with
  | [] =>
      match setitem currentlevel lastkey item with
      | Ok lvl => (lvl, Ok tt)
      | Raise e => (currentlevel, Raise e)
      end
  | key :: rest =>
      match contains currentlevel key with
      | Raise e => (currentlevel, Raise e)
      | Ok present =>
          match (if present then Ok currentlevel
                 else setitem currentlevel key (VDict [])) with
          | Raise e => (currentlevel, Raise e)
          | Ok lvl =>
              match getitem lvl key with
              | Raise e => (lvl, Raise e)
              | Ok child =>
                  let (child', out) := makenested_from child rest lastkey item in
                  match setitem lvl key child' with
                  | Ok lvl' => (lvl', out)
                  | Raise _ => (lvl, out)
                  end
              end
          end
      end
  end.

Definition makenested (nesteddict : value) (keylist : path) (item : value)
  : value * res unit :=
  match last keylist with
  | None => (nesteddict, Raise IndexError)  (* the loop is empty, keylist[-1] fails *)
  | Some lastkey => makenested_from nesteddict (removelast keylist) lastkey item
  end.

(** The body of [iternested] on a dict: the loop over
    [nesteddict.items()] is the inner [go], [output] is built by
    concatenation.  The recursive call is only made on a dict. *)
Fixpoint iternested_output (nesteddict : value) (previous : path) : list path :=
  match nesteddict with
  | VDict items =>
      (fix go (items : list (string * value)) : list path :=
         match items with
         | [] => []
         | (k, v) :: rest =>
             (if is_dict v then iternested_output v (previous ++ [k])
              else [previous ++ [k]]) ++ go rest
         end) items
  | _ => []
  end.

(** [iternested(nesteddict, previous=[])]; anything without [.items()]
    fails on the first line of the loop. *)
Definition iternested (nesteddict : value) (previous : path) : res (list path) :=
  match nesteddict with
  | VDict _ => Ok (iternested_output nesteddict previous)
  | _ => Raise AttributeError
  end.

(** ** [flattendict] *)

(** [inputdict[key][sub_key]]: an object, or a list of objects. *)
Inductive field :=
| FOne (c : string)
| FList (cs : list string).

(** [inputdict[key]]: a list of objects (read without sub-keys), or a dict
    from sub-keys to fields. *)
Inductive entry :=
| EList (comps : list string)
| EDict (fields : list (string * field)).

(** The [for sub_key in subkeys] loop that builds [inputlist]. *)
Fixpoint gather (inputdict : list (string * entry)) (basekey : string)
  (subkeys : list string) (inputlist : list string) : res (list string) :=
  match subkeys with
  | [] => Ok inputlist
  | sub_key :: rest =>
      match dict_lookup basekey inputdict with
      | None => Raise (KeyError basekey)
      | Some (EList comps) =>
          (* [sub_key in a_list] is membership; indexing the list by a string fails *)
          if existsb (String.eqb sub_key) comps then Raise TypeError
          else gather inputdict basekey rest inputlist
      | Some (EDict fields) =>
          match dict_lookup sub_key fields with
          | Some (FList cs) => gather inputdict basekey rest (inputlist ++ cs)
          | Some (FOne c) => gather inputdict basekey rest (inputlist ++ [c])
          | None => gather inputdict basekey rest inputlist
          end
      end
  end.

Definition inputlist_of (inputdict : list (string * entry)) (basekey : string)
  (subkeys : option (list string)) : res (list string) :=
  match subkeys with
  | None =>
      match dict_lookup basekey inputdict with
      | None => Raise (KeyError basekey)
      | Some (EList comps) => Ok comps
      | Some (EDict fields) => Ok (map fst fields)  (* iterating a dict gives its keys *)
      end
  | Some sks => gather inputdict basekey sks []
  end.

(** The [for comp in inputlist] loop; [call] is the recursive call
    [flattendict(inputdict=inputdict, basekey=comp, ..., limit=limit-1)]
    on the two lists as they are when it is reached. *)
Fixpoint flatten_loop
  (call : string → list string → list string → option (res (list string * list string)))
  (inputdict : list (string * entry)) (inputlist complist keylist : list string)
  : option (res (list string * list string)) :=
  match inputlist with
  | [] => Some (Ok (complist, keylist))
  | comp :: rest =>
      if is_key comp inputdict then
        match call comp complist keylist with
        | None => None
        | Some (Raise e) => Some (Raise e)
        | Some (Ok (complist', keylist')) =>
            flatten_loop call inputdict rest complist' keylist'
        end
      else flatten_loop call inputdict rest (complist ++ [comp]) keylist
  end.

(** [flattendict].  [fuel] bounds the depth of the Python call stack: the
    result is [None] when the traversal needs more than [fuel] nested
    calls.  [complist] and [keylist] are the two lists that every call
    appends to; the state after a call is returned with its result. *)
Fixpoint flattendict (fuel : nat) (inputdict : list (string * entry))
  (basekey : string) (subkeys : option (list string))
  (complist keylist : list string) (limit : Z)
  : option (res (list string * list string)) :=
  match fuel with
  | O => None
  | S fuel' =>
      if limit <? 1 then Some (Raise (Exception (RecursionLimitReached basekey)))
      else
        let keylist := keylist ++ [basekey] in
        match inputlist_of inputdict basekey subkeys with
        | Raise e => Some (Raise e)
        | Ok inputlist =>
            flatten_loop
              (λ comp complist keylist,
                 flattendict fuel' inputdict comp subkeys complist keylist (limit - 1))
              inputdict inputlist complist keylist
        end
  end.

(** ** [vec2obj] *)

(** Objects are held in a store and passed by reference.  What an object
    holds at an address is a number or a reference to another object. *)
Definition loc := positive.

Inductive elem :=
| ENum (n : Z)
| ERef (l : loc).

(** An address: an index, or a key. *)
Inductive key :=
| KInt (i : Z)
| KStr (s : string).

Definition key_eqb (a b : key) : bool :=
  match a, b with
  | KInt i, KInt j => i =? j
  | KStr s, KStr t => String.eqb s t
  | _, _ => false
  end.

(** A Python list, or a dict in iteration order. *)
Inductive object :=
| OList (content : list elem)
| ODict (items : list (key * elem)).

Abbreviation store := (gmap loc object).

(** [len(obj)] *)
Definition object_len (o : object) : nat :=
  match o with
  | OList content => length content
  | ODict items => length items
  end.

(** Item assignment on a dict whose keys are indices or strings: an
    existing key keeps its position, a new key goes last. *)
Fixpoint key_store (k : key) (v : elem) (items : list (key * elem))
  : list (key * elem) :=
  match items with
  | [] => [(k, v)]
  | (k', v') :: rest =>
      if key_eqb k k' then (k', v) :: rest else (k', v') :: key_store k v rest
  end.

(** ** [dcp], that is [copy.deepcopy] *)

(** The memo of a deep copy: the objects copied so far, each with its
    copy. *)
Abbreviation memo := (gmap loc loc).

(** What the loops of [copy.deepcopy] go through: the elements of a list
    ([for a in x]), the keys and values of a dict
    ([for key, value in x.items()]). *)
Definition entries (o : object) : list (option key * elem) :=
  match o with
  | OList content => map (pair None) content
  | ODict items => map (λ kv, (Some kv.1, kv.2)) items
  end.

(** The object with which the copy starts: [y = []], [y = {}]. *)
Definition empty_like (o : object) : object :=
  match o with
  | OList _ => OList []
  | ODict _ => ODict []
  end.

(** What the loops do with the copy [a] of an element: [y.append(a)] on a
    list, [y[key] = a] on a dict. *)
Definition add_entry (t : option key) (a : elem) (y : object) : object :=
  match y, t with
  | OList content, _ => OList (content ++ [a])
  | ODict items, Some k => ODict (key_store k a items)
  | ODict items, None => ODict items
  end.

(** [deepcopy(a, memo)] on an element: a number is returned as it is, what
    a reference points to is copied by [call]. *)
Definition copy_elem (call : loc → store → memo → option (store * memo * res loc))
  (a : elem) (h : store) (m : memo) : option (store * memo * res elem) :=
  match a with
  | ENum n => Some (h, m, Ok (ENum n))
  | ERef l =>
      match call l h m with
      | None => None
      | Some (h', m', Ok l') => Some (h', m', Ok (ERef l'))
      | Some (h', m', Raise e) => Some (h', m', Raise e)
      end
  end.

(** The loop over the entries of the object that is copied; [y] is the
    copy under construction. *)
Fixpoint copy_loop (call : loc → store → memo → option (store * memo * res loc))
  (y : loc) (xs : list (option key * elem)) (h : store) (m : memo)
  : option (store * memo * res unit) :=
  match xs with
  | [] => Some (h, m, Ok tt)
  | (t, a) :: rest =>
      match copy_elem call a h m with
      | None => None
      | Some (h, m, Raise e) => Some (h, m, Raise e)
      | Some (h, m, Ok a') =>
          match h !! y with
          | None => Some (h, m, Raise Dangling)
          | Some o => copy_loop call y rest (<[y := add_entry t a' o]> h) m
          end
      end
  end.

(** [deepcopy(x, memo)] for the object [x] at [l]: an object met before
    has its copy in the memo; otherwise an empty object is created, put in
    the memo, and filled with the copies of the entries of [x].  [fuel]
    bounds the depth of the Python call stack: the result is [None] when
    objects are nested deeper. *)
Fixpoint deepcopy (fuel : nat) (l : loc) (h : store) (m : memo)
  : option (store * memo * res loc) :=
  match m !! l with
  | Some y => Some (h, m, Ok y)
  | None =>
      match fuel with
      | O => None
      | S fuel' =>
          match h !! l with
          | None => Some (h, m, Raise Dangling)
          | Some o =>
              let y := fresh (dom h) in
              match copy_loop (deepcopy fuel') y (entries o)
                      (<[y := empty_like o]> h) (<[l := y]> m) with
              | None => None
              | Some (h', m', Ok _) => Some (h', m', Ok y)
              | Some (h', m', Raise e) => Some (h', m', Raise e)
              end
          end
      end
  end.

(** [dcp(obj)].  No object is nested deeper than there are objects in the
    store, so the fuel given is enough whenever every reference of the
    store leads to an object ([dcp_returns]); a store with a reference
    that leads nowhere is no Python heap. *)
Definition dcp (h : store) (obj : loc) : store * res loc :=
  match deepcopy (size (dom h)) obj h ∅ with
  | Some (h', _, out) => (h', out)
  | None => (h, Raise Dangling)
  end.

(** ** The body of [vec2obj] *)

(** Position addressed by a list index: negative indices count from the
    end. *)
Definition py_index (len : nat) (ind : Z) : option nat :=
  if (0 <=? ind) && (ind <? Z.of_nat len) then Some (Z.to_nat ind)
  else if (- Z.of_nat len <=? ind) && (ind <? 0) then Some (Z.to_nat (Z.of_nat len + ind))
  else None.

(** [a > b] on indices and keys, as Python 3 has it: numbers and strings
    are not ordered with each other. *)
Definition key_gt (a b : key) : res bool :=
  match a, b with
  | KInt i, KInt j => Ok (j <? i)
  | KStr s, KStr t => Ok (String.ltb t s)
  | _, _ => Raise TypeError
  end.

(** The loop of [max]: [if item > max_item: max_item = item]. *)
Fixpoint max_from (max_item : key) (rest : list key) : res key :=
  match rest with
  | [] => Ok max_item
  | item :: rest =>
      match key_gt item max_item with
      | Raise e => Raise e
      | Ok gt => max_from (if gt then item else max_item) rest
      end
  end.

(** [max(inds)] *)
Definition py_max (inds : list key) : res key :=
  match inds with
  | [] => Raise ValueError
  | i :: rest => max_from i rest
  end.

(** [obj[ind] = x] *)
Definition object_setitem (o : object) (ind : key) (x : elem) : res object :=
  match o with
  | OList content =>
      match ind with
      | KInt i =>
          match py_index (length content) i with
          | Some n => Ok (OList (<[n := x]> content))
          | None => Raise IndexError
          end
      | KStr _ => Raise TypeError
      end
  | ODict items => Ok (ODict (key_store ind x items))
  end.

(** [for i,ind in enumerate(inds): new[ind] = newvec[i]], from position
    [i] on.  [newvec] is a list that is only read: it is given by its
    elements. *)
Fixpoint assign_all (h : store) (new : loc) (newvec : list elem) (i : nat)
  (inds : list key) : store * res unit :=
  match inds with
  | [] => (h, Ok tt)
  | ind :: rest =>
      match newvec !! i with
      | None => (h, Raise IndexError)
      | Some x =>
          match h !! new with
          | None => (h, Raise Dangling)
          | Some o =>
              match object_setitem o ind x with
              | Raise e => (h, Raise e)
              | Ok o' => assign_all (<[new := o']> h) new newvec (S i) rest
              end
          end
      end
  end.

(** [new = dcp(orig)] and the loop *)
Definition copy_and_assign (h : store) (orig : loc) (newvec : list elem)
  (inds : list key) : store * res loc :=
  match dcp h orig with
  | (h1, Raise e) => (h1, Raise e)
  | (h1, Ok new) =>
      let (h2, out) := assign_all h1 new newvec 0 inds in
      (h2, out ≫= λ _, Ok new)
  end.

Definition vec2obj (h : store) (orig : option loc) (newvec : option (list elem))
  (inds : option (list key)) : store * res loc :=
  match orig, newvec with
  | None, _ => (h, Raise (Exception RequiresOriginal))
  | Some _, None => (h, Raise (Exception RequiresVector))
  | Some lo, Some vec =>
      match h !! lo with
      | None => (h, Raise Dangling)
      | Some o =>
          let lenorig := object_len o in
          let lennew := length vec in
          match inds with
          | None =>
              if negb (lennew =? lenorig)%nat
              then (h, Raise (Exception (LengthsMustMatch lenorig lennew)))
              else copy_and_assign h lo vec (map (KInt ∘ Z.of_nat) (seq 0 lennew))
          | Some inds =>
              (* the guard [max(inds) >= len(orig)]: Python 3 does not
                 compare a string with a length; Python 2 orders any string
                 above any number, takes the branch and fails on the [%i]
                 of the message, a [TypeError] as well *)
              match py_max inds with
              | Raise e => (h, Raise e)
              | Ok (KStr _) => (h, Raise TypeError)
              | Ok (KInt m) =>
                  if Z.of_nat lenorig <=? m
                  then (h, Raise (Exception (MaximumIndexTooLarge m lenorig)))
                  else copy_and_assign h lo vec inds
              end
          end
      end
  end.

(** ** The nested-dictionary functions on dicts that are shared *)

(** Above, a nested dictionary is a tree.  Python dicts are objects: the
    same dict can be the value of two keys, and what is assigned through
    one of them is seen through the other.  Here the dicts are objects of
    a heap and the values refer to them; the functions are the same. *)
Module Heap.

Inductive value :=
| VNone
| VInt (n : Z)
| VStr (s : string)
| VRef (l : loc).

Abbreviation heap := (gmap loc (list (string * value))).

(** [bool(d)] *)
Definition truthy (h : heap) (d : value) : bool :=
  match d with
  | VNone => false
  | VInt n => negb (n =? 0)
  | VStr s => negb (String.eqb s "")
  | VRef l => match h !! l with Some [] => false | _ => true end
  end.

(** [d.get(k)] *)
Definition get_method (h : heap) (d : value) (k : string) : res value :=
  match d with
  | VRef l =>
      match h !! l with
      | Some items => Ok (match dict_lookup k items with Some v => v | None => VNone end)
      | None => Raise Dangling
      end
  | _ => Raise AttributeError
  end.

(** [d[k]] for a string [k] *)
Definition getitem (h : heap) (d : value) (k : string) : res value :=
  match d with
  | VRef l =>
      match h !! l with
      | Some items =>
          match dict_lookup k items with Some v => Ok v | None => Raise (KeyError k) end
      | None => Raise Dangling
      end
  | _ => Raise TypeError
  end.

(** [d[k] = v] for a string [k]: the dict that [d] refers to is updated
    in place. *)
Definition setitem (h : heap) (d : value) (k : string) (v : value) : heap * res unit :=
  match d with
  | VRef l =>
      match h !! l with
      | Some items => (<[l := dict_store k v items]> h, Ok tt)
      | None => (h, Raise Dangling)
      end
  | _ => (h, Raise TypeError)
  end.

(** [k in d] for a string [k] *)
Definition contains (h : heap) (d : value) (k : string) : res bool :=
  match d with
  | VRef l =>
      match h !! l with
      | Some items => Ok (is_key k items)
      | None => Raise Dangling
      end
  | VStr s => Ok (match String.index 0 k s with Some _ => true | None => false end)
  | _ => Raise TypeError
  end.

Definition getnested_step (h : heap) (safe : bool) (d : value) (k : string) : res value :=
  if truthy h d then get_method h d k
  else if safe then Ok VNone
  else getitem h d k.

Definition getnested (h : heap) (nesteddict : value) (keylist : path) (safe : bool)
  : res value :=
  reduce (getnested_step h safe) keylist nesteddict.

(** [getnested(nesteddict, keylist[:-1])[keylist[-1]] = value] *)
Definition setnested (h : heap) (nesteddict : value) (keylist : path) (v : value)
  : heap * res unit :=
  match getnested h nesteddict (removelast keylist) false with
  | Raise e => (h, Raise e)
  | Ok target =>
      match last keylist with
      | None => (h, Raise IndexError)
      | Some k => setitem h target k v
      end
  end.

(** The loop of [makenested] over [keylist[:-1]], then the assignment of
    the leaf.  [currentlevel[key] = {}] creates a dict, a new object of
    the heap, before it assigns. *)
Fixpoint makenested_from (h : heap) (currentlevel : value) (keys : path)
  (lastkey : string) (item : value) : heap * res unit :=
  match keys with
  | [] => setitem h currentlevel lastkey item
  | key :: rest =>
      match contains h currentlevel key with
      | Raise e => (h, Raise e)
      | Ok present =>
          let (h1, out) :=
            if present then (h, Ok tt)
            else let l := fresh (dom h) in
                 setitem (<[l := []]> h) currentlevel key (VRef l) in
          match out with
          | Raise e => (h1, Raise e)
          | Ok _ =>
              match getitem h1 currentlevel key with
              | Raise e => (h1, Raise e)
              | Ok child => makenested_from h1 child rest lastkey item
              end
          end
      end
  end.

Definition makenested (h : heap) (nesteddict : value) (keylist : path) (item : value)
  : heap * res unit :=
  match last keylist with
  | None => (h, Raise IndexError)
  | Some lastkey => makenested_from h nesteddict (removelast keylist) lastkey item
  end.

End Heap.

(** ** Floating-point numbers *)

(** A float: a finite number, an infinity or a NaN. *)
Inductive pyfloat :=
| Fin (q : Qc)
| PosInf
| NegInf
| NaN.

(** [a < b] on floats: false as soon as a NaN is involved. *)
Definition float_lt (a b : pyfloat) : bool :=
  match a, b with
  | NaN, _ | _, NaN => false
  | Fin x, Fin y => bool_decide (x < y)%Qc
  | NegInf, NegInf => false
  | NegInf, _ => true
  | _, NegInf => false
  | PosInf, _ => false
  | Fin _, PosInf => true
  end.

(** [a == b] on floats: a NaN equals nothing. *)
Definition float_eq (a b : pyfloat) : bool :=
  match a, b with
  | Fin x, Fin y => bool_decide (x = y)
  | PosInf, PosInf | NegInf, NegInf => true
  | _, _ => false
  end.

(** [round(x)] of Python 3: to the nearest integer, ties to the even one. *)
Definition py_round (x : Qc) : Z :=
  let f := Qfloor x in
  match (x - Qc_of_Z f ?= Q2Qc (1 # 2))%Qc with
  | Lt => f
  | Gt => f + 1
  | Eq => if Z.even f then f else f + 1
  end.

(** Python floats and numpy's [float64] are IEEE 754 binary64 numbers.  A
    finite float is held as the rational it denotes, [m * 2^e] with
    [|m| < 2^53] and [-1074 <= e <= 971]; an arithmetic operation returns
    the exact result rounded to the nearest such number, ties to the even
    [m], and an infinity when that is [2^1024] or more in magnitude.  The
    sign of zero is not kept: none of the functions below divides by a
    zero float or prints one. *)

(** [2^e] *)
Definition pow2 (e : Z) : Qc :=
  if 0 <=? e then Qc_of_Z (2 ^ e) else (/ Qc_of_Z (2 ^ (- e)))%Qc.

(** The integer [k] with [2^k <= |x| < 2^(k+1)], for [x] other than 0. *)
Definition ilog2 (x : Qc) : Z :=
  let k := Z.log2 (Z.abs (Qnum x)) - Z.log2 (Zpos (Qden x)) in
  if bool_decide (pow2 k ≤ Qcabs.Qcabs x)%Qc then k else k - 1.

(** The exponent of the last place of the floats of the magnitude of [x]:
    53 significant bits, none below [2^-1074]. *)
Definition ulp_exponent (x : Qc) : Z := Z.max (ilog2 x - 52) (-1074).

(** Rounding of an exact result to binary64 *)
Definition round64 (x : Qc) : pyfloat :=
  if bool_decide (x = 0%Qc) then Fin 0%Qc
  else
    let e := ulp_exponent x in
    let y := (Qc_of_Z (py_round (x / pow2 e)) * pow2 e)%Qc in
    if bool_decide (pow2 1024 ≤ Qcabs.Qcabs y)%Qc
    then (if bool_decide (0 < x)%Qc then PosInf else NegInf)
    else Fin y.

Arguments round64 : simpl never.

(** The largest float, [sys.float_info.max] *)
Definition max_float : Qc := (Qc_of_Z (2 ^ 53 - 1) * pow2 971)%Qc.

(** The sign of a float that is no NaN *)
Definition float_sign (a : pyfloat) : Z :=
  match a with
  | Fin x => if bool_decide (0 < x)%Qc then 1 else if bool_decide (x < 0)%Qc then -1 else 0
  | PosInf => 1
  | NegInf => -1
  | NaN => 0
  end.

Definition float_opp (a : pyfloat) : pyfloat :=
  match a with
  | Fin x => Fin (- x)%Qc
  | PosInf => NegInf
  | NegInf => PosInf
  | NaN => NaN
  end.

Definition float_abs (a : pyfloat) : pyfloat :=
  match a with
  | Fin x => Fin (Qcabs.Qcabs x)
  | PosInf | NegInf => PosInf
  | NaN => NaN
  end.

(** [a + b]: opposite infinities have no sum. *)
Definition float_add (a b : pyfloat) : pyfloat :=
  match a, b with
  | NaN, _ | _, NaN => NaN
  | PosInf, NegInf | NegInf, PosInf => NaN
  | PosInf, _ | _, PosInf => PosInf
  | NegInf, _ | _, NegInf => NegInf
  | Fin x, Fin y => round64 (x + y)
  end.

Definition float_sub (a b : pyfloat) : pyfloat := float_add a (float_opp b).

(** An infinity of the sign [s]; a sign of zero gives no number. *)
Definition float_inf (s : Z) : pyfloat :=
  if 0 <? s then PosInf else if s <? 0 then NegInf else NaN.

(** [a * b]: zero times an infinity is no number. *)
Definition float_mul (a b : pyfloat) : pyfloat :=
  match a, b with
  | NaN, _ | _, NaN => NaN
  | Fin x, Fin y => round64 (x * y)
  | _, _ => float_inf (float_sign a * float_sign b)
  end.

(** [a / b] for a divisor other than zero *)
Definition float_quot (a b : pyfloat) : pyfloat :=
  match a, b with
  | NaN, _ | _, NaN => NaN
  | Fin x, Fin y => round64 (x / y)
  | Fin _, _ => Fin 0%Qc
  | _, Fin _ => float_inf (float_sign a * float_sign b)
  | _, _ => NaN
  end.

(** A float literal: the float nearest to the decimal written *)
Definition float_lit (num : Z) (den : positive) : pyfloat := round64 (Q2Qc (num # den)).

(** The floats of the Standard Library's specification of IEEE 754
    arithmetic ([SpecFloat], with 53 bits of precision and exponents below
    1024), read as floats of this model; the operations above are compared
    with the specified ones on examples ([round64_as_specified]). *)
Definition sf_value (f : SpecFloat.spec_float) : pyfloat :=
  match f with
  | SpecFloat.S754_zero _ => Fin 0%Qc
  | SpecFloat.S754_infinity false => PosInf
  | SpecFloat.S754_infinity true => NegInf
  | SpecFloat.S754_nan => NaN
  | SpecFloat.S754_finite s m e =>
      Fin ((if s then - Qc_of_Z (Zpos m) else Qc_of_Z (Zpos m)) * pow2 e)%Qc
  end.

(** The specified float nearest to an integer *)
Definition sf_of_Z (z : Z) : SpecFloat.spec_float :=
  SpecFloat.binary_normalize 53 1024 z 0 false.

(** Two floats are the same: the same rational, the same infinity, or two
    NaNs. *)
Definition float_same (a b : pyfloat) : bool :=
  match a, b with
  | Fin p, Fin q => Qeq_bool p q
  | PosInf, PosInf | NegInf, NegInf | NaN, NaN => true
  | _, _ => false
  end.

(** A Python number: an [int], of any size, or a [float]. *)
Inductive number :=
| PInt (z : Z)
| PFloat (f : pyfloat).

(** The conversion of an [int] to a float: rounded like a result, and an
    [OverflowError] beyond the floats. *)
Definition float_of_int (z : Z) : res pyfloat :=
  match round64 (Qc_of_Z z) with
  | Fin q => Ok (Fin q)
  | _ => Raise OverflowError
  end.

Arguments float_of_int : simpl never.

(** [float(a)], also the conversion of an operand of mixed arithmetic *)
Definition to_float (a : number) : res pyfloat :=
  match a with
  | PInt z => float_of_int z
  | PFloat f => Ok f
  end.

(** [a - b] on Python numbers *)
Definition number_sub (a b : number) : res number :=
  match a, b with
  | PInt x, PInt y => Ok (PInt (x - y))
  | _, _ => x ← to_float a; y ← to_float b; Ok (PFloat (float_sub x y))
  end.

(** [a * b] for a float [b] *)
Definition number_mul_float (a : number) (b : pyfloat) : res pyfloat :=
  x ← to_float a; Ok (float_mul x b).

(** [a / b] for a float [b]: both operands are converted, then a divisor
    of zero is refused. *)
Definition number_div_float (a : number) (b : pyfloat) : res pyfloat :=
  x ← to_float a;
  if float_eq b (Fin 0%Qc) then Raise ZeroDivisionError else Ok (float_quot x b).

(** [round(x)] on a float, to an [int] *)
Definition round_float (x : pyfloat) : res Z :=
  match x with
  | Fin q => Ok (py_round q)
  | NaN => Raise ValueError
  | PosInf | NegInf => Raise OverflowError
  end.

(** ** [inclusiverange] *)

(** [numpy.linspace(start, stop, num)], as numpy computes it: the two
    ends are made floats ([start * 1.]); [num] samples
    [k * step + start] with [step = (stop - start) / (num - 1)], every
    operation rounded, and the last sample set to [stop]; when the step
    rounds to zero the samples are [(k / (num - 1)) * (stop - start) + start];
    a single sample has no step.  A negative [num] is a [ValueError]. *)
Definition np_linspace (start stop : number) (num : Z) : res (list pyfloat) :=
  if num <? 0 then Raise ValueError
  else
    let div := num - 1 in
    start ← number_mul_float start (Fin 1%Qc);
    stop ← number_mul_float stop (Fin 1%Qc);
    let y := map (λ k, round64 (Qc_of_Z (Z.of_nat k))) (seq 0 (Z.to_nat num)) in
    let delta := float_sub stop start in
    let y :=
      if 1 <? num then
        let step := float_quot delta (round64 (Qc_of_Z div)) in
        if float_eq step (Fin 0%Qc)
        then map (λ t, float_mul (float_quot t (round64 (Qc_of_Z div))) delta) y
        else map (λ t, float_mul t step) y
      else map (λ t, float_mul t delta) y in
    let y := map (λ t, float_add t start) y in
    Ok (if 1 <? num then <[Z.to_nat (num - 1) := stop]> y else y).

(** The [if len(args)==...] chain.  With one argument the second
    statement, [start, step = None], unpacks [None]. *)
Definition handle_args (args : list (option number))
  : res (option number * option number * option number) :=
  match args with
  | [] => Ok (None, None, None)
  | [_] => Raise TypeError
  | [a0; a1] => Ok (a0, a1, None)
  | [a0; a1; a2] => Ok (a0, a1, a2)
  | _ => Raise (Exception TooManyArguments)
  end.

(** [kwargs.get(name, default)] *)
Definition kwargs_get (kwargs : list (string * option number)) (name : string)
  (default : option number) : option number :=
  match dict_lookup name kwargs with
  | Some v => v
  | None => default
  end.

(** [int(round((stop-start)/float(step))+1)] *)
Definition number_of_points (start stop step : number) : res Z :=
  span ← number_sub stop start;
  step ← to_float step;
  quotient ← number_div_float span step;
  n ← round_float quotient;
  Ok (n + 1).

Definition inclusiverange (args : list (option number)) (kwargs : list (string * option number))
  : res (list pyfloat) :=
  '(start, stop, step) ← handle_args args;
  let start := kwargs_get kwargs "start" start in
  let stop := kwargs_get kwargs "stop" stop in
  let step := kwargs_get kwargs "step" step in
  let start := default (PInt 0) start in
  let stop := default (PInt 1) stop in
  let step := default (PInt 1) step in
  num ← number_of_points start stop step;
  np_linspace start stop num.

(** ** [sanitizefilename] *)

(** The character class of the first pattern: the exclamation mark, the
    question mark, the double quote (code 34), the single quote (code 39)
    and the two angle brackets. *)
Definition erased (c : Ascii.ascii) : bool :=
  existsb (Ascii.eqb c) ["!"; "?"; Ascii.ascii_of_nat 34; Ascii.ascii_of_nat 39; "<"; ">"]%char.

(** The character class of the second pattern: the colon, the slash, the
    backslash, the star, the vertical bar and the comma. *)
Definition separator (c : Ascii.ascii) : bool :=
  existsb (Ascii.eqb c) [":"; "/"; "\"; "*"; "|"; ","]%char.

(** [re.sub(pattern, '', s)] for a pattern that is a character class *)
Fixpoint sub_erase (class : Ascii.ascii → bool) (s : string) : string :=
  match s with
  | EmptyString => EmptyString
  | String c rest =>
      if class c then sub_erase class rest else String c (sub_erase class rest)
  end.

(** [re.sub(pattern, '_', s)] for a pattern that is a character class *)
Fixpoint sub_underscore (class : Ascii.ascii → bool) (s : string) : string :=
  match s with
  | EmptyString => EmptyString
  | String c rest =>
      String (if class c then "_"%char else c) (sub_underscore class rest)
  end.

Definition sanitizefilename (rawfilename : string) : string :=
  let filtername := sub_erase erased rawfilename in
  sub_underscore separator filtername.

(** ** [compareversions] *)

(** [s.split(sep)] for a separator of one character *)
Fixpoint split_on (sep : ascii) (s : string) : list string :=
  match s with
  | EmptyString => [EmptyString]
  | String c rest =>
      if Ascii.eqb c sep then EmptyString :: split_on sep rest
      else match split_on sep rest with
           | [] => [String c EmptyString]
           | word :: words => String c word :: words
           end
  end.

(** The exceptions of [compareversions]: its two bare [Exception]s and the
    [ValueError] of the conversion to floats. *)
Inductive version_error :=
| MustSupplyBothVersions
| CouldNotConvert
| FailedToCompare.

(** [versionsarr[i,:len(versions[i])] = versions[i]] on a row of zeros *)
Definition zero_padded (maxlen : nat) (version : list pyfloat) : list pyfloat :=
  version ++ replicate (maxlen - length version) (Fin 0%Qc).

(** The loop over [range(maxlen)]: the first column that decides. *)
Fixpoint first_decided (row0 row1 : list pyfloat) : option Z :=
  match row0, row1 with
  | x :: rest0, y :: rest1 =>
      if float_lt x y then Some (-1)
      else if float_lt y x then Some 1
      else first_decided rest0 rest1
  | _, _ => None
  end.

(** [(versionsarr[0,:]==versionsarr[1,:]).all()] *)
Fixpoint rows_equal (row0 row1 : list pyfloat) : bool :=
  match row0, row1 with
  | x :: rest0, y :: rest1 => float_eq x y && rows_equal rest0 rest1
  | _, _ => true
  end.

(** What the two rows give once padded: the first decided column, else
    [0] when the rows are equal, else the final exception. *)
Definition verdict (row0 row1 : list pyfloat) : version_error + Z :=
  match first_decided row0 row1 with
  | Some r => inr r
  | None => if rows_equal row0 row1 then inr 0 else inl FailedToCompare
  end.

Section compareversions.

(** [float(s)], the conversion of one component by [np.array(...,
    dtype=float)]; [None] stands for its [ValueError]. *)
Variable float_of : string → option pyfloat.

(** The versions are given as the strings that [flexstr] makes of them;
    [None] is Python's [None]. *)
Definition compareversions (version1 version2 : option string) : version_error + Z :=
  match version1, version2 with
  | Some version1, Some version2 =>
      match mapM float_of (split_on "." version1) with
      | None => inl CouldNotConvert
      | Some v0 =>
          match mapM float_of (split_on "." version2) with
          | None => inl CouldNotConvert
          | Some v1 =>
              let maxlen := Nat.max (length v0) (length v1) in
              verdict (zero_padded maxlen v0) (zero_padded maxlen v1)
          end
      end
  | _, _ => inl MustSupplyBothVersions
  end.

End compareversions.

(** Swapping the two versions swaps [-1] and [1]. *)
Definition swapped (r : version_error + Z) : version_error + Z :=
  match r with
  | inr z => inr (- z)
  | inl e => inl e
  end.

(** A stand-in for [float] on the strings of the examples: a string of
    decimal digits is its number, [nan] is a NaN, anything else here is
    refused. *)
Fixpoint digits_value (s : string) (acc : Z) : option Z :=
  match s with
  | EmptyString => Some acc
  | String c rest =>
      let d := Z.of_nat (nat_of_ascii c) - 48 in
      if (0 <=? d) && (d <=? 9) then digits_value rest (10 * acc + d) else None
  end.

Definition float_of_digits (s : string) : option pyfloat :=
  if String.eqb s "nan" then Some NaN
  else if String.eqb s "" then None
  else Fin ∘ Qc_of_Z <$> digits_value s 0.

(** ** [quantile] *)

(** [quantile] on one-dimensional data of finite floats, given by the
    rationals they denote.  The indices are rounded by [numpy.round] (ties
    to the even integer, as [py_round]); the data are sorted in
    increasing order; an index out of bounds is an [IndexError], a
    negative one counts from the end.  The product
    [q * (nsamples - 1)] is taken as it is: numpy rounds it to a float
    before it rounds it to an integer, which makes no difference for the
    quantiles 0 and 1 on fewer than [2^53] samples, and can move the
    index by one for other quantiles. *)
Definition quantile (data quantiles : list Qc) : res (list Qc) :=
  let nsamples := length data in
  let indices := map (λ q, py_round (q * Qc_of_Z (Z.of_nat nsamples - 1))) quantiles in
  let output := merge_sort Qcle data in
  mapM (λ ind, match py_index nsamples ind ≫= λ n, output !! n with
               | Some x => Ok x
               | None => Raise IndexError
               end) indices.

(** ** [createcollist] *)

(** [l[start::step]] for [step >= 1]: the elements at the positions
    [start], [start + step], ... that exist. *)
Definition stride {A} (l : list A) (start step : nat) : list A :=
  omap (λ i, l !! i) (map (λ j, start + j * step)%nat (seq 0 (length l))).

(** The first loop: [newkeys += oldkeys[x::nrow]] for [x] in
    [range(nrow)]. *)
Definition column_order {A} (oldkeys : list A) (nrow : nat) : list A :=
  seq 0 nrow ≫= λ x, stride oldkeys x nrow.

(** [s[:stop]]: a negative [stop] counts from the end. *)
Definition slice_to (s : string) (stop : Z) : string :=
  let len := Z.of_nat (String.length s) in
  let stop := if stop <? 0 then Z.max 0 (len + stop) else Z.min stop len in
  String.substring 0 (Z.to_nat stop) s.

Fixpoint spaces (n : nat) : string :=
  match n with
  | O => EmptyString
  | S n => String " " (spaces n)
  end.

(** [x] as it is printed: cut to [strlen] with three dots when it is
    longer, then ['%-*s  ' % (strlen,x)], left-justified in a field of
    [strlen] characters (of [-strlen] when [strlen] is negative) and
    followed by two spaces. *)
Definition cell (strlen : Z) (x : string) : string :=
  let x := if strlen <? Z.of_nat (String.length x)
           then slice_to x (strlen - 3) +:+ "..." else x in
  x +:+ spaces (Z.to_nat (Z.abs strlen) - String.length x) +:+ "  ".

(** The line break and indentation that starts a row *)
Definition row_start : string := String (ascii_of_nat 10) "  ".

(** The second loop, from the counter [c] and the string built so far. *)
Fixpoint attloop (ncol strlen : Z) (newkeys : list string) (c : Z) (attstring : string)
  : string :=
  match newkeys with
  | [] => attstring
  | x :: rest =>
      let attstring := if c mod ncol =? 0 then attstring +:+ row_start else attstring in
      attloop ncol strlen rest (c + 1) (attstring +:+ cell strlen x)
  end.

(** [createcollist]; strings are byte strings, as [str] is in Python 2.
    [float(len(oldkeys))/ncol] fails for [ncol = 0]. *)
Definition createcollist (oldkeys : list string) (title : string) (strlen ncol : Z)
  : res string :=
  if ncol =? 0 then Raise ZeroDivisionError
  else
    let nrow := Qceiling (Qc_of_Z (Z.of_nat (length oldkeys)) / Qc_of_Z ncol)%Qc in
    let newkeys := column_order oldkeys (Z.to_nat nrow) in
    let attstring := title +:+ ":" in
    let attstring := attloop ncol strlen newkeys 0 attstring in
    Ok (attstring +:+ String (ascii_of_nat 10) "").

(** ** Notions used to state the properties *)

(** Outcome of following [keylist] from [d] by key lookup, through mappings
    only: the value reached, or the first level where the descent stops. *)
Inductive descent :=
| Reached (v : value)
| Missing (level : value) (k : string)      (* a mapping without the key [k] *)
| NotMapping (level : value) (k : string).  (* not a mapping; [k] is the next key *)

Fixpoint descend (d : value) (keylist : path) : descent :=
  match keylist with
  | [] => Reached d
  | k :: rest =>
      match d with
      | VDict items =>
          match dict_lookup k items with
          | Some v => descend v rest
          | None => Missing d k
          end
      | _ => NotMapping d k
      end
  end.

(** What [getnested] does by design, as a function of the descent.  The
    lambda was meant as [(d.get(k) if d else None) if safe else d[k]];
    Python reads it as [d.get(k) if d else (None if safe else d[k])].
    The two agree under [safe] and, without [safe], at a falsy level.
    [None] is where they differ and the behaviour is left open: a level
    that is truthy and either lacks the key or is no mapping, read
    without [safe]. *)
Definition getnested_designed (safe : bool) (o : descent) : option (res value) :=
  match o with
  | Reached v => Some (Ok v)
  | Missing level k =>
      if safe then Some (Ok VNone)
      else if truthy level then None
      else Some (Raise (KeyError k))
  | NotMapping level _ =>
      if safe then
        if truthy level then Some (Raise AttributeError) else Some (Ok VNone)
      else if truthy level then None
      else Some (Raise TypeError)
  end.

(** Every level that exists along [keylist[:-1]] is a mapping, and so is
    the level that receives the last key. *)
Fixpoint mappings_along (d : value) (keylist : path) : bool :=
  match keylist with
  | [] => true
  | k :: rest =>
      match d with
      | VDict items =>
          match rest, dict_lookup k items with
          | _ :: _, Some v => mappings_along v rest
          | _, _ => true
          end
      | _ => false
      end
  end.

(** [chain inputdict subkeys n key]: from [key], [n] references to keys of
    [inputdict] follow one another; a cyclic dictionary has chains of
    every length. *)
Inductive chain (inputdict : list (string * entry)) (subkeys : option (list string))
  : nat → string → Prop :=
| chain_here key : chain inputdict subkeys 0 key
| chain_ref n key inputlist comp :
    inputlist_of inputdict key subkeys = Ok inputlist →
    comp ∈ inputlist →
    is_key comp inputdict = true →
    chain inputdict subkeys n comp →
    chain inputdict subkeys (S n) key.

(** [ind] addresses a position of a list of length [len], counted from
    the front or, when negative, from the end. *)
Definition in_range (len : nat) (ind : Z) : Prop :=
  - Z.of_nat len ≤ ind < Z.of_nat len.

Definition position (len : nat) (ind : Z) : nat :=
  Z.to_nat (if 0 <=? ind then ind else Z.of_nat len + ind).

(** The references that an object holds. *)
Definition references (o : object) : list loc :=
  omap (λ ta, match ta.2 with ERef l => Some l | ENum _ => None end) (entries o).

(** A store in which every reference leads to an object, as in any Python
    heap. *)
Definition closed (h : store) : bool :=
  forallb (λ lo, forallb (λ l, bool_decide (is_Some (h !! l))) (references lo.2))
    (map_to_list h).

(** An element with its reference, if it is one, replaced by the copy
    that the memo [m] gives for it; no result when there is no copy. *)
Definition rename_elem (m : memo) (a : elem) : option elem :=
  match a with
  | ENum n => Some (ENum n)
  | ERef l => ERef <$> m !! l
  end.

(** The dict that holds the items stored one after the other; for items
    with distinct keys, the items themselves. *)
Definition rebuild (items : list (key * elem)) : list (key * elem) :=
  foldl (λ acc kv, key_store kv.1 kv.2 acc) [] items.

(** An object with every reference that it holds replaced by its copy. *)
Definition rename_object (m : memo) (o : object) : option object :=
  match o with
  | OList content => OList <$> mapM (rename_elem m) content
  | ODict items =>
      ODict ∘ rebuild <$> mapM (λ kv, pair kv.1 <$> rename_elem m kv.2) items
  end.

(** What a call of [deepcopy] may do to the store and the memo: add
    objects and add copies, every new copy being an object that the store
    did not have. *)
Definition copy_step (h : store) (m : memo) (h' : store) (m' : memo) : Prop :=
  h ⊆ h' ∧ m ⊆ m'
  ∧ ∀ l y, m' !! l = Some y → m !! l = None → h !! y = None ∧ is_Some (h' !! y).

(** The copies that [m'] has and [m] had not are complete in [h']: each
    holds what its original holds in [h0], with every reference replaced
    by its copy. *)
Definition copies_done (h0 h' : store) (m m' : memo) : Prop :=
  ∀ l y, m' !! l = Some y → m !! l = None →
    ∃ o o', h0 !! l = Some o ∧ rename_object m' o = Some o' ∧ h' !! y = Some o'.

(** The copies of [m] are objects of [h], and no two objects have the
    same copy. *)
Definition distinct_copies (h : store) (m : memo) : Prop :=
  (∀ l y, m !! l = Some y → is_Some (h !! y))
  ∧ ∀ l1 l2 y, m !! l1 = Some y → m !! l2 = Some y → l1 = l2.

(** [m] is a deep copy made from the store [h] into the store [h']: every
    copy is an object that [h] did not have, and holds what its original
    holds with every reference replaced by its copy; no two objects have
    the same copy. *)
Definition deep_copy (h h' : store) (m : memo) : Prop :=
  (∀ l y, m !! l = Some y →
     h !! y = None
     ∧ ∃ o o', h !! l = Some o ∧ rename_object m o = Some o' ∧ h' !! y = Some o')
  ∧ ∀ l1 l2 y, m !! l1 = Some y → m !! l2 = Some y → l1 = l2.

(** The replacements [ps], made one after the other. *)
Fixpoint replaced (o : object) (ps : list (key * elem)) : res object :=
  match ps with
  | [] => Ok o
  | (ind, x) :: rest =>
      match object_setitem o ind x with
      | Raise e => Raise e
      | Ok o' => replaced o' rest
      end
  end.

(** One replacement in a list: the element [p.2] is put at the index
    [p.1]. *)
Definition assign_at (content : list elem) (p : Z * elem) : list elem :=
  <[position (length content) p.1 := p.2]> content.

(** The positions addressed by a list of replacements. *)
Definition positions (len : nat) (ps : list (Z * elem)) : list nat :=
  map (λ p, position len p.1) ps.

(** A store for the examples: a list that holds a list and two numbers, and
    a dict with two keys. *)
Definition sample_store : store :=
  {[ 1%positive := OList [ERef 2%positive; ENum 2; ENum 3];
     2%positive := OList [ENum 1];
     3%positive := ODict [(KStr "a", ENum 1); (KStr "b", ENum 2)] ]}.

(** The dicts in which [getnested] looks up a key on its way along
    [keylist] from [d], in a heap of dicts. *)
Fixpoint visited (h : Heap.heap) (d : Heap.value) (keylist : path) : list loc :=
  match keylist with
  | [] => []
  | k :: rest =>
      match d with
      | Heap.VRef l =>
          l :: match h !! l ≫= dict_lookup k with
               | Some v => visited h v rest
               | None => []
               end
      | _ => []
      end
  end.

(** A heap for the examples: the dict at 1 has the dict at 2 under two
    keys. *)
Definition shared_heap : Heap.heap :=
  {[ 1%positive := [("a", Heap.VRef 2%positive); ("b", Heap.VRef 2%positive)];
     2%positive := [("x", Heap.VInt 0)] ]}.

(** A number that a float holds exactly, and the rational it denotes: a
    float, or an [int] that is one.  ([Fin q] is a float when [q] rounds
    to itself.) *)
Definition number_value (a : number) : option Qc :=
  match a with
  | PInt z => Some (Qc_of_Z z)
  | PFloat (Fin q) => Some q
  | PFloat _ => None
  end.

Definition held_exactly (a : number) (q : Qc) : Prop :=
  number_value a = Some q ∧ round64 q = Fin q.

(** [p] leads from [d], through mappings, to a value that is no mapping. *)
Definition reaches_leaf (d : value) (p : path) : Prop :=
  p ≠ [] ∧ ∃ leaf, descend d p = Reached leaf ∧ is_dict leaf = false.

(** The complete paths to the non-mapping leaves of a tree, depth-first,
    every level in its own key order. *)
Fixpoint leaf_paths (d : value) : list path :=
  match d with
  | VDict items =>
      (fix go (items : list (string * value)) : list path :=
         match items with
         | [] => []
         | (k, v) :: rest =>
             (if is_dict v then map (cons k) (leaf_paths v) else [[k]]) ++ go rest
         end) items
  | _ => []
  end.

(** What a call of [flattendict] may do to its two lists: append
    components that are no keys of [inputdict] to the first, keys of
    [inputdict] to the second. *)
Definition appends_to (inputdict : list (string * entry))
  (complist keylist complist' keylist' : list string) : Prop :=
  ∃ comps keys, complist' = complist ++ comps ∧ keylist' = keylist ++ keys
                ∧ Forall (λ c, is_key c inputdict = false) comps
                ∧ Forall (λ k, is_key k inputdict = true) keys.

(** The cells of a listing laid out in rows of [ncol], from the counter
    [c]. *)
Fixpoint layout (ncol : Z) (c : Z) (cells : list string) : string :=
  match cells with
  | [] => EmptyString
  | x :: rest =>
      (if c mod ncol =? 0 then row_start else EmptyString) +:+ x
      +:+ layout ncol (c + 1) rest
  end.

(** * Properties *)

Local Open Scope string_scope.
Local Open Scope list_scope.
Local Open Scope Z_scope.

(** ** Association lists *)

Section dict_facts.
Context {A : Type}.
Implicit Types (items : list (string * A)) (k : string) (v : A).

Lemma dict_lookup_store_eq items k v :
  dict_lookup k (dict_store k v items) = Some v.
Proof.
  induction items as [|[k' v'] rest IH]; simpl.
  - by rewrite String.eqb_refl.
  - destruct (String.eqb k k') eqn:E; simpl; rewrite E; [done | exact IH].
Qed.

Lemma dict_lookup_store_ne items k k' v :
  k ≠ k' → dict_lookup k' (dict_store k v items) = dict_lookup k' items.
Proof.
  intros Hne. induction items as [|[k0 v0] rest IH]; simpl.
  - destruct (String.eqb k' k) eqn:E; [|done].
    apply String.eqb_eq in E. congruence.
  - destruct (String.eqb k k0) eqn:E; simpl; [|by rewrite IH].
    apply String.eqb_eq in E. subst k0.
    destruct (String.eqb k' k) eqn:E'; [|done].
    apply String.eqb_eq in E'. congruence.
Qed.

Lemma dict_store_not_nil items k v : dict_store k v items ≠ [].
Proof. destruct items as [|[k' v'] rest]; simpl; [done|]. by destruct (String.eqb k k'). Qed.

Lemma dict_lookup_Some_in items k v : dict_lookup k items = Some v → (k, v) ∈ items.
Proof.
  induction items as [|[k' v'] rest IH]; simpl; [done|].
  destruct (String.eqb k k') eqn:E.
  - apply String.eqb_eq in E. intros [= ->]. subst. left.
  - intros H. right. auto.
Qed.

Lemma dict_lookup_None_notin items k v : dict_lookup k items = None → (k, v) ∉ items.
Proof.
  induction items as [|[k' v'] rest IH]; simpl; intros H Hin.
  - by apply elem_of_nil in Hin.
  - destruct (String.eqb k k') eqn:E; [done|].
    apply elem_of_cons in Hin as [[= -> ->]|Hin]; [by rewrite String.eqb_refl in E | by apply IH].
Qed.

Lemma is_key_false_notin items k v : is_key k items = false → (k, v) ∉ items.
Proof.
  unfold is_key. destruct (dict_lookup k items) eqn:E; [done|].
  intros _. by apply dict_lookup_None_notin.
Qed.
End dict_facts.

Lemma truthy_store k v items : truthy (VDict (dict_store k v items)) = true.
Proof.
  simpl. pose proof (dict_store_not_nil items k v).
  by destruct (dict_store k v items).
Qed.

Lemma truthy_lookup k v items : dict_lookup k items = Some v → truthy (VDict items) = true.
Proof. by destruct items. Qed.

(** ** Induction on trees of dicts *)

Lemma value_tree_ind (P : value → Prop) :
  P VNone → (∀ n, P (VInt n)) → (∀ s, P (VStr s)) →
  (∀ items, Forall (λ kv, P kv.2) items → P (VDict items)) →
  ∀ d, P d.
Proof.
  intros HNone HInt HStr HDict.
  fix IH 1. intros [ |n|s|items]; [done..|].
  apply HDict. induction items as [|[k v] rest IHrest]; constructor; [apply IH | exact IHrest].
Qed.

(** ** [getnested] *)

Lemma getnested_cons d k rest safe :
  getnested d (k :: rest) safe = getnested_step safe d k ≫= λ d', getnested d' rest safe.
Proof. reflexivity. Qed.

(** Once the descent holds [None] it stays there under [safe]. *)
Lemma getnested_None_safe keylist : getnested VNone keylist true = Ok VNone.
Proof. induction keylist as [|k rest IH]; [done|]. by rewrite getnested_cons. Qed.

Lemma getnested_reached d keylist v safe :
  descend d keylist = Reached v → getnested d keylist safe = Ok v.
Proof.
  revert d. induction keylist as [|k rest IH]; intros d H; simpl in H.
  - by injection H as ->.
  - destruct d as [ | | |items]; try done.
    destruct (dict_lookup k items) as [child|] eqn:E; [|done].
    rewrite getnested_cons. unfold getnested_step.
    rewrite (truthy_lookup _ _ _ E). simpl. rewrite E. simpl. by apply IH.
Qed.

Lemma getnested_None_unsafe keylist :
  getnested VNone keylist false = match keylist with [] => Ok VNone | _ => Raise TypeError end.
Proof. by destruct keylist. Qed.

(** A dict returned by [getnested] is the node found under the keys, the
    one that [setnested] then assigns to. *)
Lemma getnested_dict_is_node keylist : ∀ root items,
  getnested root keylist false = Ok (VDict items) →
  descend root keylist = Reached (VDict items).
Proof.
  induction keylist as [|k rest IH]; intros root items H.
  - simpl in H. by injection H as ->.
  - rewrite getnested_cons in H. unfold getnested_step in H.
    destruct root as [ |n|s|its]; [done| | |].
    + simpl in H. by destruct (Z.eqb n 0).
    + simpl in H. by destruct (String.eqb s "").
    + cbn [descend]. destruct (dict_lookup k its) as [child|] eqn:E.
      * rewrite (truthy_lookup _ _ _ E) in H. simpl in H. rewrite E in H. by apply IH.
      * destruct (truthy (VDict its)); simpl in H; rewrite E in H; [|done].
        simpl in H. rewrite getnested_None_unsafe in H. by destruct rest.
Qed.

(** The slip in the lambda: a key missing from a non-empty mapping reads
    as [None] also without [safe]; the descent ends there with [None], or
    fails one key later with a type error. *)
Lemma getnested_missing_unsafe keylist : ∀ root level k,
  descend root keylist = Missing level k →
  truthy level = true →
  getnested root keylist false = Ok VNone
  ∨ getnested root keylist false = Raise TypeError.
Proof.
  induction keylist as [|k0 rest IH]; intros root level k H Ht; [done|].
  destruct root as [ | | |items]; try done. simpl in H.
  rewrite getnested_cons. unfold getnested_step.
  destruct (dict_lookup k0 items) as [child|] eqn:E.
  - rewrite (truthy_lookup _ _ _ E). simpl. rewrite E. simpl. by eapply IH.
  - injection H as <- <-. rewrite Ht. simpl. rewrite E. simpl.
    rewrite getnested_None_unsafe. destruct rest; auto.
Qed.

(** C1 (as amended).  [getnested] follows the descent along [keylist]:
    a value that is reached is returned; under [safe=True] a missing key
    and a falsy level that is no mapping give [None], and a truthy level
    that is no mapping raises [AttributeError]; without [safe] an empty
    mapping raises [KeyError] and a falsy level that is no mapping
    [TypeError].  (What a truthy level that lacks the key or is no mapping
    does without [safe] is left open by [getnested_designed].) *)
Theorem getnested_follows_descent root keylist safe r :
  getnested_designed safe (descend root keylist) = Some r →
  getnested root keylist safe = r.
Proof.
  revert root. induction keylist as [|k rest IH]; intros d H.
  - simpl in H. by injection H as <-.
  - rewrite getnested_cons. unfold getnested_step.
    destruct d as [ |n|s|items].
    + simpl in *. destruct safe; injection H as <-; [apply getnested_None_safe | done].
    + simpl in *. destruct (Z.eqb n 0), safe; simpl in *; try done;
        injection H as <-; [apply getnested_None_safe | done | done].
    + simpl in *. destruct (String.eqb s ""), safe; simpl in *; try done;
        injection H as <-; [apply getnested_None_safe | done | done].
    + simpl in H. destruct (dict_lookup k items) as [child|] eqn:E.
      * rewrite (truthy_lookup _ _ _ E). simpl. rewrite E. simpl. by apply IH.
      * cbn [getnested_designed] in H.
        destruct safe.
        -- injection H as <-.
           destruct (truthy (VDict items)); simpl; [rewrite E|]; apply getnested_None_safe.
        -- destruct (truthy (VDict items)); [done|]. injection H as <-.
           simpl. by rewrite E.
Qed.

Lemma getnested_follows_descent_witness :
  getnested_designed false (descend (VDict [("a", VDict [])]) ["a"; "b"])
    = Some (Raise (KeyError "b"))
  ∧ getnested (VDict [("a", VDict [])]) ["a"; "b"] false = Raise (KeyError "b").
Proof.
  split; [reflexivity|].
  apply (getnested_follows_descent (VDict [("a", VDict [])]) ["a"; "b"] false).
  reflexivity.
Defined.

(** C1 as stated fails: under [safe=True] a level that is a number and
    not a mapping does not give [None], the call raises. *)
Lemma getnested_not_as_stated :
  descend (VDict [("a", VInt 1)]) ["a"; "b"] = NotMapping (VInt 1) "b"
  ∧ getnested (VDict [("a", VInt 1)]) ["a"; "b"] true = Raise AttributeError.
Proof. split; reflexivity. Qed.

(** ** [makenested] *)

Lemma mappings_along_empty keylist : mappings_along (VDict []) keylist = true.
Proof. destruct keylist as [|k [|k' rest]]; reflexivity. Qed.

Lemma makenested_from_reaches item keys : ∀ lastkey d,
  mappings_along d (keys ++ [lastkey]) = true →
  ∃ d', makenested_from d keys lastkey item = (d', Ok tt)
        ∧ descend d' (keys ++ [lastkey]) = Reached item.
Proof.
  induction keys as [|key rest IH]; intros lastkey d Hd.
  - destruct d as [ | | |items]; try done.
    eexists. split; [reflexivity|]. simpl. by rewrite dict_lookup_store_eq.
  - destruct d as [ | | |items]; try done.
    change ((key :: rest) ++ [lastkey]) with (key :: (rest ++ [lastkey])) in *.
    cbn [makenested_from contains]. unfold is_key.
    destruct (dict_lookup key items) as [child|] eqn:E.
    + assert (Hc : mappings_along child (rest ++ [lastkey]) = true).
      { cbn [mappings_along] in Hd. rewrite E in Hd. by destruct (rest ++ [lastkey]) eqn:E'. }
      destruct (IH lastkey child Hc) as (child' & Hm & Hr).
      cbn [getitem]. rewrite E, Hm. cbn [setitem].
      eexists. split; [reflexivity|].
      cbn [descend]. by rewrite dict_lookup_store_eq.
    + destruct (IH lastkey (VDict []) (mappings_along_empty _)) as (child' & Hm & Hr).
      cbn [setitem getitem]. rewrite dict_lookup_store_eq, Hm.
      eexists. split; [reflexivity|].
      cbn [descend]. by rewrite dict_lookup_store_eq.
Qed.

Lemma keylist_split (keylist : path) :
  keylist ≠ [] → ∃ lastkey, last keylist = Some lastkey
                           ∧ keylist = removelast keylist ++ [lastkey].
Proof.
  intros Hne. destruct (last keylist) as [lastkey|] eqn:E.
  - exists lastkey. split; [done|].
    apply last_Some in E as [l' ->]. by rewrite removelast_last.
  - by apply last_None in E.
Qed.




(** ** [setnested] *)

(** C3: with the intermediate level ["b"] missing from a non-empty root,
    [setnested] raises [TypeError], not [KeyError]: [getnested] returned
    [None] for the missing level and the assignment is made on [None]. *)
Theorem setnested_missing_level :
  getnested (VDict [("a", VInt 1)]) ["b"] false = Ok VNone
  ∧ setnested (VDict [("a", VInt 1)]) ["b"; "c"] (VInt 7)
      = (VDict [("a", VInt 1)], Raise TypeError).
Proof. split; reflexivity. Qed.

(** The same for every dictionary: an intermediate key missing from a
    non-empty mapping gives [TypeError] and no change. *)
Lemma setnested_missing_type_error root keys lastkey level k v :
  descend root keys = Missing level k →
  truthy level = true →
  setnested root (keys ++ [lastkey]) v = (root, Raise TypeError).
Proof.
  intros H Ht. unfold setnested. rewrite removelast_last, last_snoc.
  by destruct (getnested_missing_unsafe _ _ _ _ H Ht) as [-> | ->].
Qed.

(** What does hold: a failure leaves the dictionary as it was, and with
    every intermediate level a mapping the last key is assigned in the
    innermost one. *)
Lemma setnested_raise_unchanged root keylist v root' e :
  setnested root keylist v = (root', Raise e) → root' = root.
Proof.
  unfold setnested.
  destruct (getnested root (removelast keylist) false); [|by intros [= <- _]].
  destruct (last keylist); [|by intros [= <- _]].
  destruct (setitem a s v); [done | by intros [= <- _]].
Qed.

Lemma descend_graft root keylist old new :
  descend root keylist = Reached old → descend (graft root keylist new) keylist = Reached new.
Proof.
  revert root. induction keylist as [|k rest IH]; intros root H; [done|].
  destruct root as [ | | |items]; try done. simpl in *.
  destruct (dict_lookup k items) as [child|] eqn:E; [|done].
  simpl. rewrite dict_lookup_store_eq. by apply IH.
Qed.

Lemma descend_app d keys rest v :
  descend d keys = Reached v → descend d (keys ++ rest) = descend v rest.
Proof.
  revert d. induction keys as [|k keys IH]; intros d H; simpl in *.
  - by injection H as ->.
  - destruct d as [ | | |items]; try done.
    destruct (dict_lookup k items); [by apply IH | done].
Qed.

Lemma setnested_assigns root keys lastkey items v :
  descend root keys = Reached (VDict items) →
  ∃ root', setnested root (keys ++ [lastkey]) v = (root', Ok tt)
           ∧ descend root' keys = Reached (VDict (dict_store lastkey v items))
           ∧ getnested root' (keys ++ [lastkey]) false = Ok v.
Proof.
  intros H. unfold setnested.
  rewrite removelast_last, last_snoc, (getnested_reached _ _ _ _ H). cbn [setitem].
  eexists. split; [reflexivity|].
  pose proof (descend_graft _ _ _ (VDict (dict_store lastkey v items)) H) as Hg.
  split; [done|].
  apply getnested_reached. rewrite (descend_app _ _ _ _ Hg). simpl.
  by rewrite dict_lookup_store_eq.
Qed.

(** ** [iternested] *)

Lemma iternested_output_cons k v rest previous :
  iternested_output (VDict ((k, v) :: rest)) previous
  = (if is_dict v then iternested_output v (previous ++ [k]) else [previous ++ [k]])
      ++ iternested_output (VDict rest) previous.
Proof. reflexivity. Qed.

Lemma leaf_paths_cons k v rest :
  leaf_paths (VDict ((k, v) :: rest))
  = (if is_dict v then map (cons k) (leaf_paths v) else [[k]]) ++ leaf_paths (VDict rest).
Proof. reflexivity. Qed.

Lemma wf_cons k v rest :
  wf (VDict ((k, v) :: rest)) = negb (is_key k rest) && wf v && wf (VDict rest).
Proof. reflexivity. Qed.

(** The accumulated [previous] is a prefix put before every path found
    below. *)
Lemma iternested_output_leaf_paths d : ∀ previous,
  iternested_output d previous = map (app previous) (leaf_paths d).
Proof.
  induction d as [ | | |items IH] using value_tree_ind; intros previous; try done.
  induction IH as [|[k v] rest Hv _ IHrest]; [done|].
  rewrite iternested_output_cons, leaf_paths_cons, map_app, IHrest. f_equal.
  simpl in Hv. destruct (is_dict v); simpl.
  - rewrite Hv, map_map. apply map_ext. intros p. by rewrite <- app_assoc.
  - done.
Qed.

Lemma reaches_leaf_cons_eq k v rest q :
  reaches_leaf (VDict ((k, v) :: rest)) (k :: q)
  ↔ if is_dict v then reaches_leaf v q else q = [].
Proof.
  unfold reaches_leaf. simpl. rewrite String.eqb_refl.
  destruct (is_dict v) eqn:Ed.
  - split.
    + intros (_ & leaf & Hr & Hl). split; [|by eauto].
      intros ->. simpl in Hr. injection Hr as ->. congruence.
    + intros (_ & leaf & Hr & Hl). split; [done | by eauto].
  - split.
    + intros (_ & leaf & Hr & Hl). destruct q as [|k' q]; [done|].
      by destruct v.
    + intros ->. split; [done|]. by exists v.
Qed.

Lemma reaches_leaf_cons_ne k k' v rest q :
  k' ≠ k →
  reaches_leaf (VDict ((k, v) :: rest)) (k' :: q) ↔ reaches_leaf (VDict rest) (k' :: q).
Proof.
  intros Hne. unfold reaches_leaf. simpl.
  destruct (String.eqb k' k) eqn:E.
  { apply String.eqb_eq in E. congruence. }
  by destruct (dict_lookup k' rest); split; intros (? & leaf & ? & ?); eauto.
Qed.

Lemma reaches_leaf_is_key items p :
  reaches_leaf (VDict items) p → ∃ k q, p = k :: q ∧ is_key k items = true.
Proof.
  intros (Hne & leaf & Hr & _). destruct p as [|k q]; [done|].
  exists k, q. split; [done|]. simpl in Hr. unfold is_key.
  by destruct (dict_lookup k items).
Qed.

Lemma leaf_paths_reaches d : wf d = true → ∀ p, p ∈ leaf_paths d ↔ reaches_leaf d p.
Proof.
  induction d as [ | | |items IH] using value_tree_ind;
    try (intros _ [|k q]; split;
         [by intros ?%elem_of_nil | by intros (? & _) | by intros ?%elem_of_nil
         | by intros (_ & leaf & ? & _)]).
  induction IH as [|[k v] rest Hv _ IHrest]; intros Hwf p.
  - split; [by intros ?%elem_of_nil|]. intros (? & leaf & ? & _). by destruct p.
  - rewrite wf_cons in Hwf.
    apply andb_true_iff in Hwf as [[Hk Hwv]%andb_true_iff Hwr].
    apply negb_true_iff in Hk. simpl in Hv.
    specialize (IHrest Hwr). specialize (Hv Hwv).
    rewrite leaf_paths_cons, elem_of_app, IHrest.
    destruct p as [|k' q].
    { split; [|by intros (? & _)].
      intros [H|(? & _)]; [|done].
      destruct (is_dict v); [by apply list_elem_of_fmap in H as (? & ? & _)|].
      by apply list_elem_of_singleton in H. }
    destruct (decide (k' = k)) as [->|Hne].
    + rewrite reaches_leaf_cons_eq. split.
      * intros [H|H].
        -- destruct (is_dict v).
           ++ apply list_elem_of_fmap in H as (q' & [= ->] & Hq'). by apply Hv.
           ++ apply list_elem_of_singleton in H. by injection H.
        -- apply reaches_leaf_is_key in H as (k0 & q0 & [= <- <-] & Hkey). congruence.
      * intros H. left. destruct (is_dict v).
        -- apply list_elem_of_fmap. exists q. split; [done | by apply Hv].
        -- subst q. by apply list_elem_of_singleton.
    + rewrite (reaches_leaf_cons_ne _ _ _ _ _ Hne). split; [|by right].
      intros [H|H]; [|done]. destruct (is_dict v).
      * by apply list_elem_of_fmap in H as (q' & [= ? ?] & _).
      * apply list_elem_of_singleton in H. by injection H.
Qed.

Lemma leaf_paths_NoDup d : wf d = true → NoDup (leaf_paths d).
Proof.
  induction d as [ | | |items IH] using value_tree_ind; try (intros _; constructor).
  induction IH as [|[k v] rest Hv _ IHrest]; intros Hwf; [constructor|].
  pose proof Hwf as Hwf'. rewrite wf_cons in Hwf.
  apply andb_true_iff in Hwf as [[Hk Hwv]%andb_true_iff Hwr].
  apply negb_true_iff in Hk. simpl in Hv.
  rewrite leaf_paths_cons. apply NoDup_app. split; [|split].
  - destruct (is_dict v).
    + by apply (NoDup_fmap_2 (cons k)), Hv.
    + apply NoDup_singleton.
  - intros p Hp Hp'.
    apply (leaf_paths_reaches _ Hwr), reaches_leaf_is_key in Hp' as (k0 & q0 & -> & Hkey).
    destruct (is_dict v).
    + apply list_elem_of_fmap in Hp as (q' & [= -> _] & _). congruence.
    + apply list_elem_of_singleton in Hp. injection Hp as -> _. congruence.
  - by apply IHrest.
Qed.

(** C4.  On a tree of dicts [iternested] returns a list: the paths that
    lead from the root to a value that is no mapping, once each, in
    depth-first order with every level in its own key order
    ([leaf_paths]). The result is a function of the tree alone. *)
Theorem iternested_complete_paths root :
  is_dict root = true →
  wf root = true →
  ∃ paths, iternested root [] = Ok paths
           ∧ paths = leaf_paths root
           ∧ NoDup paths
           ∧ ∀ p, p ∈ paths ↔ ∃ leaf, descend root p = Reached leaf ∧ is_dict leaf = false.
Proof.
  intros Hd Hwf. destruct root as [ | | |items]; try done.
  exists (leaf_paths (VDict items)). split; [|split; [done|split]].
  - unfold iternested. rewrite iternested_output_leaf_paths. f_equal.
    rewrite <- (map_id (leaf_paths _)) at 2. by apply map_ext.
  - by apply leaf_paths_NoDup.
  - intros p. rewrite (leaf_paths_reaches _ Hwf). unfold reaches_leaf. split.
    + by intros (_ & H).
    + intros (leaf & Hr & Hl). split; [|by eauto].
      intros ->. simpl in Hr. by injection Hr as <-.
Qed.

Lemma iternested_complete_paths_witness :
  ∃ paths,
    iternested (VDict [("a", VDict [("y", VInt 1); ("x", VInt 2)]);
                       ("b", VDict [("a", VDict [("y", VNone)])])]) [] = Ok paths
    ∧ paths = [["a"; "y"]; ["a"; "x"]; ["b"; "a"; "y"]].
Proof.
  destruct (iternested_complete_paths
              (VDict [("a", VDict [("y", VInt 1); ("x", VInt 2)]);
                      ("b", VDict [("a", VDict [("y", VNone)])])]))
    as (paths & Hit & Hpaths & _); [reflexivity | reflexivity |].
  exists paths. split; [exact Hit | exact Hpaths].
Defined.

(** C9.  No path returned by [iternested] ends at or passes through an
    empty mapping, and a root whose values are all empty mappings has no
    path at all. *)
Theorem iternested_skips_empty items :
  wf (VDict items) = true →
  ∃ paths, iternested (VDict items) [] = Ok paths
           ∧ (∀ p q r, p ∈ paths → p = q ++ r → descend (VDict items) q ≠ Reached (VDict []))
           ∧ ((∀ k v, (k, v) ∈ items → v = VDict []) → paths = []).
Proof.
  intros Hwf. eexists. split; [reflexivity|]. split.
  - intros p q r Hp -> Hq.
    rewrite iternested_output_leaf_paths in Hp.
    apply list_elem_of_fmap in Hp as (p' & Heq & Hp'). simpl in Heq. subst p'.
    apply (leaf_paths_reaches _ Hwf) in Hp' as (_ & leaf & Hr & Hl).
    rewrite (descend_app _ _ _ _ Hq) in Hr.
    destruct r; simpl in Hr; [by injection Hr as <- | done].
  - clear Hwf. induction items as [|[k v] rest IH]; intros Hall; [done|].
    rewrite iternested_output_cons, IH.
    + rewrite (Hall k v); [done | left].
    + intros k' v' Hin. apply (Hall k'). by right.
Qed.

Lemma iternested_skips_empty_witness :
  ∃ paths, iternested (VDict [("a", VDict []); ("b", VDict [])]) [] = Ok paths ∧ paths = [].
Proof.
  destruct (iternested_skips_empty [("a", VDict []); ("b", VDict [])])
    as (paths & Hit & _ & Hempty); [reflexivity|].
  exists paths. split; [exact Hit|].
  apply Hempty. intros k v Hin.
  apply elem_of_cons in Hin as [[= _ ->]|Hin]; [reflexivity|].
  apply elem_of_cons in Hin as [[= _ ->]|Hin]; [reflexivity|].
  by apply elem_of_nil in Hin.
Defined.

(** ** [flattendict] *)

Section flattendict_facts.
Variable inputdict : list (string * entry).
Variable subkeys : option (list string).

Lemma flattendict_S fuel basekey complist keylist limit :
  flattendict (S fuel) inputdict basekey subkeys complist keylist limit
  = if limit <? 1 then Some (Raise (Exception (RecursionLimitReached basekey)))
    else match inputlist_of inputdict basekey subkeys with
         | Raise e => Some (Raise e)
         | Ok inputlist =>
             flatten_loop
               (λ comp cl kl, flattendict fuel inputdict comp subkeys cl kl (limit - 1))
               inputdict inputlist complist (keylist ++ [basekey])
         end.
Proof. reflexivity. Qed.

(** A call made with the limit used up raises, and names its key. *)
Lemma flattendict_exhausted fuel basekey complist keylist limit :
  limit < 1 →
  flattendict (S fuel) inputdict basekey subkeys complist keylist limit
  = Some (Raise (Exception (RecursionLimitReached basekey))).
Proof. intros H. rewrite flattendict_S. by apply Z.ltb_lt in H as ->. Qed.

(** The loop returns as soon as every recursive call does. *)
Lemma flatten_loop_returns call inputlist :
  (∀ comp cl kl, ∃ r, call comp cl kl = Some r) →
  ∀ complist keylist, ∃ r, flatten_loop call inputdict inputlist complist keylist = Some r.
Proof.
  intros Hcall. induction inputlist as [|comp rest IH]; intros complist keylist; simpl.
  - eauto.
  - destruct (is_key comp inputdict); [|apply IH].
    destruct (Hcall comp complist keylist) as [[[cl kl]|e] ->]; [apply IH | eauto].
Qed.

(** [limit + 1] nested calls are enough, whatever the dictionary. *)
Lemma flattendict_returns fuel : ∀ basekey complist keylist limit,
  limit ≤ Z.of_nat fuel →
  ∃ r, flattendict (S fuel) inputdict basekey subkeys complist keylist limit = Some r.
Proof.
  induction fuel as [|fuel IH]; intros basekey complist keylist limit Hle.
  - rewrite flattendict_exhausted; [eauto | lia].
  - rewrite flattendict_S. destruct (limit <? 1) eqn:E; [eauto|].
    destruct (inputlist_of inputdict basekey subkeys) as [inputlist|e]; [|eauto].
    apply flatten_loop_returns. intros comp cl kl. apply IH. lia.
Qed.

(** More fuel does not change a result. *)
Lemma flatten_loop_mono call call' inputlist :
  (∀ comp cl kl r, call comp cl kl = Some r → call' comp cl kl = Some r) →
  ∀ complist keylist r,
    flatten_loop call inputdict inputlist complist keylist = Some r →
    flatten_loop call' inputdict inputlist complist keylist = Some r.
Proof.
  intros Hcall. induction inputlist as [|comp rest IH]; intros complist keylist r; simpl; [done|].
  destruct (is_key comp inputdict); [|apply IH].
  destruct (call comp complist keylist) as [[[cl kl]|e]|] eqn:E; [| |done].
  - rewrite (Hcall _ _ _ _ E). apply IH.
  - by rewrite (Hcall _ _ _ _ E).
Qed.

Lemma flattendict_fuel_mono fuel : ∀ fuel' basekey complist keylist limit r,
  (fuel ≤ fuel')%nat →
  flattendict fuel inputdict basekey subkeys complist keylist limit = Some r →
  flattendict fuel' inputdict basekey subkeys complist keylist limit = Some r.
Proof.
  induction fuel as [|fuel IH]; intros fuel' basekey complist keylist limit r Hle; [done|].
  destruct fuel' as [|fuel']; [lia|].
  rewrite !flattendict_S. destruct (limit <? 1); [done|].
  destruct (inputlist_of inputdict basekey subkeys) as [inputlist|e]; [|done].
  apply flatten_loop_mono. intros comp cl kl r'. apply IH. lia.
Qed.

(** The loop raises when it reaches a component whose call raises, unless
    it has raised before. *)
Lemma flatten_loop_raises call inputlist comp :
  comp ∈ inputlist →
  is_key comp inputdict = true →
  (∀ c cl kl, ∃ r, call c cl kl = Some r) →
  (∀ cl kl, ∃ e, call comp cl kl = Some (Raise e)) →
  ∀ complist keylist,
    ∃ e, flatten_loop call inputdict inputlist complist keylist = Some (Raise e).
Proof.
  intros Hin Hkey Hret Hraise.
  induction inputlist as [|c rest IH]; intros complist keylist.
  { by apply elem_of_nil in Hin. }
  simpl. destruct (decide (c = comp)) as [->|Hne].
  - rewrite Hkey. destruct (Hraise complist keylist) as [e ->]. eauto.
  - apply elem_of_cons in Hin as [->|Hin]; [done|].
    destruct (is_key c inputdict); [|by apply IH].
    destruct (Hret c complist keylist) as [[[cl kl]|e] ->]; [by apply IH | eauto].
Qed.

(** A dictionary nested (or cyclic) beyond the limit makes the call
    raise. *)
Lemma flattendict_chain_raises fuel : ∀ basekey complist keylist limit,
  limit ≤ Z.of_nat fuel →
  chain inputdict subkeys fuel basekey →
  ∃ e, flattendict (S fuel) inputdict basekey subkeys complist keylist limit
       = Some (Raise e).
Proof.
  induction fuel as [|fuel IH]; intros basekey complist keylist limit Hle Hchain.
  - rewrite flattendict_exhausted; [eauto | lia].
  - rewrite flattendict_S. destruct (limit <? 1) eqn:E; [eauto|].
    inversion Hchain as [|n key inputlist comp Hil Hin Hkey Hrest]; subst.
    rewrite Hil. apply (flatten_loop_raises _ _ comp); [done..| |].
    + intros c cl kl. apply flattendict_returns. lia.
    + intros cl kl. apply IH; [lia | done].
Qed.
End flattendict_facts.

(** Without sub-keys, the only exception below a key of the dictionary is
    the recursion limit, and it names a key of the dictionary. *)
Lemma flattendict_only_limit inputdict fuel : ∀ basekey complist keylist limit e,
  is_key basekey inputdict = true →
  flattendict fuel inputdict basekey None complist keylist limit = Some (Raise e) →
  ∃ key, e = Exception (RecursionLimitReached key) ∧ is_key key inputdict = true.
Proof.
  induction fuel as [|fuel IH]; intros basekey complist keylist limit e Hkey; [done|].
  rewrite flattendict_S. destruct (limit <? 1).
  { intros [= <-]. eauto. }
  unfold inputlist_of. unfold is_key in Hkey.
  destruct (dict_lookup basekey inputdict) as [en|]; [|done].
  generalize (keylist ++ [basekey]). generalize complist.
  generalize (match en with EList comps => comps | EDict fields => map fst fields end).
  assert (∀ (l cl kl : list string),
    flatten_loop (λ comp cl kl, flattendict fuel inputdict comp None cl kl (limit - 1))
      inputdict l cl kl = Some (Raise e) →
    ∃ key, e = Exception (RecursionLimitReached key) ∧ is_key key inputdict = true) as Hloop.
  { induction l as [|comp rest IHl]; intros cl kl; simpl; [done|].
    destruct (is_key comp inputdict) eqn:Ec; [|apply IHl].
    destruct (flattendict fuel inputdict comp None cl kl (limit - 1))
      as [[[cl' kl']|e']|] eqn:Ef; [apply IHl | | done].
    intros [= ->]. by apply (IH _ _ _ _ _ Ec Ef). }
  intros l cl kl. destruct en; apply Hloop.
Qed.

(** C6.  For a positive limit, [flattendict] returns within [limit + 1]
    nested calls on every dictionary, cyclic ones included, and more
    stack changes nothing; a call reached with the limit used up raises
    the recursion-limit exception naming its key; when the references of
    the dictionary nest [limit] deep from [basekey] (as they do in a
    cycle), the whole call raises, and without sub-keys what it raises is
    the recursion-limit exception, naming a key of the dictionary. *)
Theorem flattendict_bounded_by_limit inputdict basekey subkeys complist keylist limit :
  0 < limit →
  (∃ r, flattendict (S (Z.to_nat limit)) inputdict basekey subkeys complist keylist limit
        = Some r
        ∧ ∀ fuel, (S (Z.to_nat limit) ≤ fuel)%nat →
                  flattendict fuel inputdict basekey subkeys complist keylist limit = Some r)
  ∧ (∀ fuel key cl kl,
       flattendict (S fuel) inputdict key subkeys cl kl 0
       = Some (Raise (Exception (RecursionLimitReached key))))
  ∧ (chain inputdict subkeys (Z.to_nat limit) basekey →
     ∃ e, flattendict (S (Z.to_nat limit)) inputdict basekey subkeys complist keylist limit
          = Some (Raise e)
          ∧ (subkeys = None → is_key basekey inputdict = true →
             ∃ key, e = Exception (RecursionLimitReached key)
                    ∧ is_key key inputdict = true)).
Proof.
  intros Hpos. split; [|split].
  - destruct (flattendict_returns inputdict subkeys (Z.to_nat limit)
                basekey complist keylist limit) as [r Hr]; [lia|].
    exists r. split; [done|]. intros fuel Hle.
    by apply (flattendict_fuel_mono _ _ _ _ _ _ _ _ _ Hle).
  - intros fuel key cl kl. by apply flattendict_exhausted.
  - intros Hchain.
    destruct (flattendict_chain_raises inputdict subkeys (Z.to_nat limit)
                basekey complist keylist limit) as [e He]; [lia | done |].
    exists e. split; [done|]. intros -> Hkey.
    by apply (flattendict_only_limit _ _ _ _ _ _ _ Hkey He).
Qed.

Lemma flattendict_bounded_by_limit_witness :
  0 < 3
  ∧ ∃ r, flattendict 4 [("a", EList ["x"; "b"; "y"]); ("b", EList ["a"])]
           "a" None [] [] 3 = Some r.
Proof.
  split; [lia|].
  destruct (flattendict_bounded_by_limit
              [("a", EList ["x"; "b"; "y"]); ("b", EList ["a"])] "a" None [] [] 3)
    as [(r & Hr & _) _]; [lia|].
  exists r. exact Hr.
Defined.

(** A two-key cycle, run with limit 3: the exception names the key at which
    the limit ran out, and the four nested calls are all needed. *)
Example flattendict_cycle :
  flattendict 4 [("a", EList ["x"; "b"; "y"]); ("b", EList ["a"])] "a" None [] [] 3
  = Some (Raise (Exception (RecursionLimitReached "b")))
  ∧ flattendict 3 [("a", EList ["x"; "b"; "y"]); ("b", EList ["a"])] "a" None [] [] 3
    = None.
Proof. split; reflexivity. Qed.

(** The example of the docstring, with sub-keys. *)
Example flattendict_docstring :
  flattendict 101
    [("key1", EDict [("s0", FList ["a"; "key2"; "b"]); ("s1", FList ["c"; "d"])]);
     ("key2", EDict [("s0", FOne "e"); ("s1", FList ["e"; "f"; "g"])])]
    "key1" (Some ["s0"; "s1"]) [] [] 100
  = Some (Ok (["a"; "e"; "e"; "f"; "g"; "b"; "c"; "d"], ["key1"; "key2"])).
Proof. reflexivity. Qed.

(** ** [dcp] *)

Lemma fresh_loc_unused (h : store) : h !! fresh (dom h) = None.
Proof. apply not_elem_of_dom, is_fresh. Qed.

Lemma copy_step_refl h m : copy_step h m h m.
Proof. split; [done|]. split; [done|]. intros l y H1 H2. congruence. Qed.

(** The loop changes no object but the copy under construction, which
    stays in the store. *)
Section copy_loop_frame.
Variable call : loc → store → memo → option (store * memo * res loc).
Hypothesis call_step : ∀ l h m h' m' r,
  call l h m = Some (h', m', r) → copy_step h m h' m'.

Lemma copy_elem_step a h m h' m' r :
  copy_elem call a h m = Some (h', m', r) → copy_step h m h' m'.
Proof.
  destruct a as [n|l]; simpl.
  - intros [= <- <- _]. apply copy_step_refl.
  - destruct (call l h m) as [[[h1 m1] [l'|e]]|] eqn:E; [| |done];
      intros [= <- <- _]; by eapply call_step.
Qed.

Lemma copy_loop_frame y xs : ∀ h m h' m' r,
  copy_loop call y xs h m = Some (h', m', r) →
  is_Some (h !! y) →
  is_Some (h' !! y)
  ∧ (∀ l o, l ≠ y → h !! l = Some o → h' !! l = Some o)
  ∧ m ⊆ m'
  ∧ ∀ l y', m' !! l = Some y' → m !! l = None → h !! y' = None ∧ is_Some (h' !! y').
Proof.
  induction xs as [|[t a] rest IH]; intros h m h' m' r; simpl.
  - intros [= <- <- _] Hy. split; [done|]. split; [done|]. split; [done|].
    intros l y' H1 H2. congruence.
  - destruct (copy_elem call a h m) as [[[h1 m1] [a'|e]]|] eqn:E; [| |done].
    + apply copy_elem_step in E as (Hh & Hm & Hnew). intros Hrun [o Ho].
      pose proof (lookup_weaken _ _ _ _ Ho Hh) as Ho1. rewrite Ho1 in Hrun.
      apply IH in Hrun as (Hy' & Hframe & Hm' & Hnew'); [|by rewrite lookup_insert_eq].
      split; [done|]. split; [|split; [by etrans|]].
      * intros l o' Hne Hl. apply Hframe; [done|].
        rewrite lookup_insert_ne by done. by apply (lookup_weaken _ _ _ _ Hl).
      * intros l y' Hl' Hl. destruct (m1 !! l) as [y1|] eqn:E1.
        -- assert (y1 = y') as -> by (apply (lookup_weaken _ _ _ _ E1) in Hm'; congruence).
           destruct (Hnew l y' E1 Hl) as [Hfresh [o' Ho']]. split; [done|].
           exists o'. apply Hframe; [congruence|].
           rewrite lookup_insert_ne by congruence. done.
        -- destruct (Hnew' l y' Hl' E1) as [Hfresh Hin]. split; [|done].
           destruct (decide (y' = y)) as [->|Hne]; [by rewrite lookup_insert_eq in Hfresh|].
           rewrite lookup_insert_ne in Hfresh by done.
           destruct (h !! y') as [o'|] eqn:E'; [|done].
           apply (lookup_weaken _ _ _ _ E') in Hh. congruence.
    + apply copy_elem_step in E as (Hh & Hm & Hnew). intros [= <- <- _] [o Ho].
      split; [exists o; by apply (lookup_weaken _ _ _ _ Ho)|].
      split; [intros l o' _ Hl; by apply (lookup_weaken _ _ _ _ Hl)|]. by split.
Qed.
End copy_loop_frame.

(** [deepcopy] only adds objects and copies. *)
Lemma deepcopy_step fuel : ∀ l h m h' m' r,
  deepcopy fuel l h m = Some (h', m', r) → copy_step h m h' m'.
Proof.
  induction fuel as [|fuel IH]; intros l h m h' m' r; simpl.
  - destruct (m !! l); [|done]. intros [= <- <- _]. apply copy_step_refl.
  - destruct (m !! l) as [y|] eqn:Hl; [intros [= <- <- _]; apply copy_step_refl|].
    destruct (h !! l) as [o|] eqn:Ho; [|intros [= <- <- _]; apply copy_step_refl].
    pose proof (fresh_loc_unused h) as Hfresh. set (y := fresh (dom h)) in *.
    destruct (copy_loop (deepcopy fuel) y (entries o) (<[y:=empty_like o]> h) (<[l:=y]> m))
      as [[[h1 m1] r1]|] eqn:E; [|done].
    apply (copy_loop_frame _ IH) in E as (Hy & Hframe & Hm & Hnew);
      [|by rewrite lookup_insert_eq].
    intros Hres.
    assert (h1 = h' ∧ m1 = m') as [<- <-] by (destruct r1; by injection Hres as <- <- _).
    clear Hres. split.
    { apply map_subseteq_spec. intros l0 o0 Hl0. apply Hframe; [congruence|].
      rewrite lookup_insert_ne by congruence. done. }
    split.
    { etrans; [|exact Hm]. by apply insert_subseteq. }
    intros l0 y0 Hl0 Hnone. destruct (decide (l0 = l)) as [->|Hne].
    + assert (y0 = y) as ->.
      { pose proof (lookup_weaken _ _ l y (lookup_insert_eq m l y) Hm). congruence. }
      by split.
    + destruct (Hnew l0 y0 Hl0) as [Hf Hin]; [by rewrite lookup_insert_ne|].
      split; [|done]. destruct (decide (y0 = y)) as [->|Hne'].
      * by rewrite lookup_insert_eq in Hf.
      * by rewrite lookup_insert_ne in Hf.
Qed.

Lemma closed_reference h l o l' :
  closed h = true → h !! l = Some o → l' ∈ references o → is_Some (h !! l').
Proof.
  unfold closed. intros Hc Hl Hin.
  rewrite forallb_forall in Hc.
  assert (Ho : In (l, o) (map_to_list h)).
  { apply list_elem_of_In. by apply elem_of_map_to_list. }
  apply Hc in Ho. simpl in Ho. rewrite forallb_forall in Ho.
  apply list_elem_of_In, Ho in Hin. by apply bool_decide_eq_true in Hin.
Qed.

Lemma references_entries o t l : (t, ERef l) ∈ entries o → l ∈ references o.
Proof.
  intros Hin. unfold references. apply list_elem_of_omap. by exists (t, ERef l).
Qed.

Lemma rename_elem_mono m m' a a' :
  m ⊆ m' → rename_elem m a = Some a' → rename_elem m' a = Some a'.
Proof.
  intros Hm. destruct a as [n|l]; simpl; [done|].
  destruct (m !! l) as [y|] eqn:E; [|done].
  by rewrite (lookup_weaken _ _ _ _ E Hm).
Qed.

Lemma rename_object_mono m m' o o' :
  m ⊆ m' → rename_object m o = Some o' → rename_object m' o = Some o'.
Proof.
  intros Hm. destruct o as [content|items]; simpl.
  - destruct (mapM (rename_elem m) content) as [ys|] eqn:E; [|done].
    intros [= <-]. apply mapM_Some in E.
    assert (mapM (rename_elem m') content = Some ys) as ->; [|done].
    apply mapM_Some. eapply Forall2_impl; [exact E|].
    intros a a'. by apply rename_elem_mono.
  - destruct (mapM (λ kv, pair kv.1 <$> rename_elem m kv.2) items) as [ys|] eqn:E; [|done].
    intros [= <-]. apply mapM_Some in E.
    assert (mapM (λ kv, pair kv.1 <$> rename_elem m' kv.2) items = Some ys) as ->; [|done].
    apply mapM_Some. eapply Forall2_impl; [exact E|].
    intros [k a] [k' a']. simpl.
    destruct (rename_elem m a) as [b|] eqn:Ea; [|done].
    by rewrite (rename_elem_mono _ _ _ _ Hm Ea).
Qed.

(** What the loop builds from the copies of the entries of an object is
    the object with its references replaced. *)
Lemma rename_object_entries m o cs :
  Forall2 (λ ta ta', ta'.1 = ta.1 ∧ rename_elem m ta.2 = Some ta'.2) (entries o) cs →
  rename_object m o = Some (foldl (λ y ta, add_entry ta.1 ta.2 y) (empty_like o) cs).
Proof.
  destruct o as [content|items]; simpl.
  - assert (Hgen : ∀ cs acc,
      Forall2 (λ ta ta', ta'.1 = ta.1 ∧ rename_elem m ta.2 = Some ta'.2)
        (map (pair None) content) cs →
      ∃ ys, mapM (rename_elem m) content = Some ys
            ∧ foldl (λ y ta, add_entry ta.1 ta.2 y) (OList acc) cs = OList (acc ++ ys)).
    { clear cs. induction content as [|a rest IH]; intros cs acc Hcs.
      - apply Forall2_nil_inv_l in Hcs as ->. exists []. by rewrite app_nil_r.
      - simpl in Hcs. apply Forall2_cons_inv_l in Hcs as ([t a'] & cs' & [_ Ha] & Hcs' & ->).
        simpl in Ha. destruct (IH cs' (acc ++ [a']) Hcs') as (ys & Hys & Hfold).
        exists (a' :: ys). simpl. rewrite Ha, Hys. simpl. split; [done|].
        by rewrite Hfold, <- app_assoc. }
    intros Hcs. destruct (Hgen cs [] Hcs) as (ys & -> & ->). done.
  - assert (Hgen : ∀ cs acc,
      Forall2 (λ ta ta', ta'.1 = ta.1 ∧ rename_elem m ta.2 = Some ta'.2)
        (map (λ kv, (Some kv.1, kv.2)) items) cs →
      ∃ ys, mapM (λ kv, pair kv.1 <$> rename_elem m kv.2) items = Some ys
            ∧ foldl (λ y ta, add_entry ta.1 ta.2 y) (ODict acc) cs
              = ODict (foldl (λ acc kv, key_store kv.1 kv.2 acc) acc ys)).
    { clear cs. induction items as [|[k a] rest IH]; intros cs acc Hcs.
      - apply Forall2_nil_inv_l in Hcs as ->. by exists [].
      - simpl in Hcs. apply Forall2_cons_inv_l in Hcs as ([t a'] & cs' & [Ht Ha] & Hcs' & ->).
        simpl in Ht, Ha. subst t.
        destruct (IH cs' (key_store k a' acc) Hcs') as (ys & Hys & Hfold).
        exists ((k, a') :: ys). simpl. rewrite Ha, Hys. simpl. split; [done|].
        by rewrite Hfold. }
    intros Hcs. destruct (Hgen cs [] Hcs) as (ys & -> & ->). done.
Qed.

(** In a store where every reference leads to an object, the loop ends
    without an exception, with the copy filled and every object that was
    copied on the way complete. *)
Section copy_loop_done.
Variable h0 : store.
Variable call : loc → store → memo → option (store * memo * res loc).
Hypothesis call_step : ∀ l h m h' m' r,
  call l h m = Some (h', m', r) → copy_step h m h' m'.
Hypothesis call_done : ∀ l h m h' m' r,
  call l h m = Some (h', m', r) → h0 ⊆ h → is_Some (h0 !! l) →
  (∃ y, r = Ok y ∧ m' !! l = Some y) ∧ copies_done h0 h' m m'.

Lemma copy_elem_done a h m h' m' r :
  copy_elem call a h m = Some (h', m', r) → h0 ⊆ h →
  (∀ l, a = ERef l → is_Some (h0 !! l)) →
  (∃ a', r = Ok a' ∧ rename_elem m' a = Some a') ∧ copies_done h0 h' m m'.
Proof.
  destruct a as [n|l]; simpl.
  - intros [= <- <- <-] _ _. split; [by exists (ENum n)|].
    intros l y H1 H2. congruence.
  - intros Hrun Hh Hl.
    destruct (call l h m) as [[[h1 m1] r1]|] eqn:E; [|done].
    destruct (call_done _ _ _ _ _ _ E Hh (Hl l eq_refl)) as [(y & -> & Hy) Hdone].
    injection Hrun as <- <- <-. split; [|done].
    exists (ERef y). by rewrite Hy.
Qed.

Lemma copy_loop_done y xs : ∀ h m h' m' r o_y,
  copy_loop call y xs h m = Some (h', m', r) →
  h0 ⊆ h → h0 !! y = None → h !! y = Some o_y →
  Forall (λ ta, ∀ l, ta.2 = ERef l → is_Some (h0 !! l)) xs →
  r = Ok tt
  ∧ copies_done h0 h' m m'
  ∧ ∃ cs, Forall2 (λ ta ta', ta'.1 = ta.1 ∧ rename_elem m' ta.2 = Some ta'.2) xs cs
          ∧ h' !! y = Some (foldl (λ o ta, add_entry ta.1 ta.2 o) o_y cs).
Proof.
  induction xs as [|[t a] rest IH]; intros h m h' m' r o_y; simpl.
  - intros [= <- <- <-] _ _ Hy _. split; [done|]. split.
    + intros l y' H1 H2. congruence.
    + exists []. by split.
  - intros Hrun Hh Hy0 Hy [Ha Hrest]%Forall_cons. simpl in Ha.
    destruct (copy_elem call a h m) as [[[h1 m1] r1]|] eqn:E; [|done].
    pose proof (copy_elem_step _ call_step _ _ _ _ _ _ E) as (Hh1 & Hm1 & Hnew1).
    destruct (copy_elem_done _ _ _ _ _ _ E Hh Ha) as [(a' & -> & Ha') Hdone1].
    rewrite (lookup_weaken _ _ _ _ Hy Hh1) in Hrun.
    pose proof Hrun as Hframe.
    apply (copy_loop_frame _ call_step) in Hframe as (_ & Hframe & Hm' & _);
      [|by rewrite lookup_insert_eq].
    apply (IH _ _ _ _ _ (add_entry t a' o_y)) in Hrun as (-> & Hdone & cs & Hcs & Hfinal);
      [|by apply insert_subseteq_r; [|etrans] | done | by rewrite lookup_insert_eq | done].
    split; [done|]. split.
    + intros l0 y0 Hl0 Hnone. destruct (m1 !! l0) as [y1|] eqn:E1.
      * assert (y1 = y0) as -> by (apply (lookup_weaken _ _ _ _ E1) in Hm'; congruence).
        destruct (Hdone1 l0 y0 E1 Hnone) as (o & o' & Ho & Hren & Ho').
        exists o, o'. split; [done|]. split; [by eapply rename_object_mono|].
        apply Hframe.
        -- destruct (Hnew1 l0 y0 E1 Hnone) as [Hf _]. congruence.
        -- rewrite lookup_insert_ne; [done|].
           destruct (Hnew1 l0 y0 E1 Hnone) as [Hf _]. congruence.
      * by apply Hdone.
    + exists ((t, a') :: cs). split; [|done].
      constructor; [|done]. split; [done|]. by eapply rename_elem_mono.
Qed.
End copy_loop_done.

Lemma deepcopy_done h0 : closed h0 = true → ∀ fuel l h m h' m' r,
  deepcopy fuel l h m = Some (h', m', r) → h0 ⊆ h → is_Some (h0 !! l) →
  (∃ y, r = Ok y ∧ m' !! l = Some y) ∧ copies_done h0 h' m m'.
Proof.
  intros Hclosed. induction fuel as [|fuel IH]; intros l h m h' m' r; simpl.
  - destruct (m !! l) as [y|] eqn:Hl; [|done]. intros [= <- <- <-] _ _.
    split; [by exists y|]. intros l0 y0 H1 H2. congruence.
  - destruct (m !! l) as [y|] eqn:Hl.
    { intros [= <- <- <-] _ _. split; [by exists y|]. intros l0 y0 H1 H2. congruence. }
    intros Hrun Hh [o Ho]. rewrite (lookup_weaken _ _ _ _ Ho Hh) in Hrun.
    pose proof (fresh_loc_unused h) as Hfresh. set (y := fresh (dom h)) in *.
    assert (Hy0 : h0 !! y = None).
    { destruct (h0 !! y) as [o'|] eqn:E; [|done].
      apply (lookup_weaken _ _ _ _ E) in Hh. congruence. }
    destruct (copy_loop (deepcopy fuel) y (entries o) (<[y:=empty_like o]> h) (<[l:=y]> m))
      as [[[h1 m1] r1]|] eqn:E; [|done].
    pose proof E as Hframe.
    apply (copy_loop_frame _ (deepcopy_step fuel)) in Hframe as (_ & _ & Hm & _);
      [|by rewrite lookup_insert_eq].
    apply (copy_loop_done h0 _ (deepcopy_step fuel) IH _ _ _ _ _ _ _ (empty_like o)) in E
      as (-> & Hdone & cs & Hcs & Hfinal);
      [|by apply insert_subseteq_r | done | by rewrite lookup_insert_eq |].
    2:{ apply Forall_forall. intros [t a] Hin l' Heq. simpl in Heq. subst a.
        eapply closed_reference; [done | exact Ho |]. by eapply references_entries. }
    injection Hrun as <- <- <-.
    assert (Hly : m1 !! l = Some y).
    { apply (lookup_weaken _ _ _ _ (lookup_insert_eq m l y) Hm). }
    split; [by exists y|].
    intros l0 y0 Hl0 Hnone. destruct (decide (l0 = l)) as [->|Hne].
    + assert (y0 = y) as -> by congruence.
      exists o, (foldl (λ o ta, add_entry ta.1 ta.2 o) (empty_like o) cs).
      split; [done|]. split; [by apply rename_object_entries | done].
    + apply Hdone; [done|]. by rewrite lookup_insert_ne.
Qed.

(** The objects of [h0] that have no copy yet are fewer when the memo has
    grown. *)
Lemma uncopied_mono (h0 : store) (m m' : memo) :
  m ⊆ m' → (size (dom h0 ∖ dom m') ≤ size (dom h0 ∖ dom m))%nat.
Proof.
  intros Hm. apply subseteq_size. apply subseteq_dom in Hm.
  intros x [Hx Hnot]%elem_of_difference. apply elem_of_difference. auto.
Qed.

Lemma uncopied_insert (h0 : store) (m : memo) l y :
  is_Some (h0 !! l) → m !! l = None →
  (size (dom h0 ∖ dom (<[l:=y]> m)) < size (dom h0 ∖ dom m))%nat.
Proof.
  intros Hl Hm. apply subset_size.
  apply elem_of_dom in Hl. apply not_elem_of_dom in Hm.
  split.
  - intros x [Hx Hnot]%elem_of_difference. apply elem_of_difference.
    split; [done|]. intros Hin. apply Hnot. rewrite dom_insert. apply elem_of_union. by right.
  - intros Hsub. specialize (Hsub l).
    rewrite !elem_of_difference, dom_insert, elem_of_union, elem_of_singleton in Hsub.
    destruct Hsub as [_ Hn]; [done|]. apply Hn. by left.
Qed.

(** With fuel for every object that has no copy yet, the loop and
    [deepcopy] return. *)
Section copy_loop_returns.
Variable h0 : store.
Variable n : nat.
Variable call : loc → store → memo → option (store * memo * res loc).
Hypothesis call_step : ∀ l h m h' m' r,
  call l h m = Some (h', m', r) → copy_step h m h' m'.
Hypothesis call_returns : ∀ l h m,
  h0 ⊆ h → is_Some (h0 !! l) → (size (dom h0 ∖ dom m) ≤ n)%nat → is_Some (call l h m).

Lemma copy_loop_returns y xs : ∀ h m,
  h0 ⊆ h → h0 !! y = None → is_Some (h !! y) →
  Forall (λ ta, ∀ l, ta.2 = ERef l → is_Some (h0 !! l)) xs →
  (size (dom h0 ∖ dom m) ≤ n)%nat →
  is_Some (copy_loop call y xs h m).
Proof.
  induction xs as [|[t a] rest IH]; intros h m Hh Hy0 [o Hy] Hxs Hsize; simpl; [done|].
  apply Forall_cons in Hxs as [Ha Hrest]. simpl in Ha.
  assert (Helem : is_Some (copy_elem call a h m)).
  { destruct a as [k|l]; simpl; [done|].
    destruct (call_returns l h m Hh (Ha l eq_refl) Hsize) as [[[h1 m1] [l'|e]] ->]; done. }
  destruct Helem as [[[h1 m1] r1] E]. rewrite E.
  pose proof (copy_elem_step _ call_step _ _ _ _ _ _ E) as (Hh1 & Hm1 & _).
  destruct r1 as [a'|e]; [|done].
  rewrite (lookup_weaken _ _ _ _ Hy Hh1).
  apply IH; [| done | by rewrite lookup_insert_eq | done |].
  - apply insert_subseteq_r; [done | by etrans].
  - etrans; [by apply uncopied_mono | done].
Qed.
End copy_loop_returns.

Lemma deepcopy_returns h0 : closed h0 = true → ∀ fuel l h m,
  h0 ⊆ h → is_Some (h0 !! l) → (size (dom h0 ∖ dom m) ≤ fuel)%nat →
  is_Some (deepcopy fuel l h m).
Proof.
  intros Hclosed. induction fuel as [|fuel IH]; intros l h m Hh [o Ho] Hsize; simpl.
  - destruct (m !! l) as [y|] eqn:Hl; [done|]. exfalso.
    assert (Hempty : dom h0 ∖ dom m ≡ ∅) by (apply size_empty_iff; lia).
    apply elem_of_dom_2 in Ho. apply not_elem_of_dom in Hl.
    apply (not_elem_of_empty (C:=gset loc) l). rewrite <- Hempty.
    by apply elem_of_difference.
  - destruct (m !! l) as [y|] eqn:Hl; [done|].
    rewrite (lookup_weaken _ _ _ _ Ho Hh).
    pose proof (fresh_loc_unused h) as Hfresh. set (y := fresh (dom h)) in *.
    assert (Hy0 : h0 !! y = None).
    { destruct (h0 !! y) as [o'|] eqn:E; [|done].
      apply (lookup_weaken _ _ _ _ E) in Hh. congruence. }
    destruct (copy_loop_returns h0 fuel _ (deepcopy_step fuel) IH y (entries o)
                (<[y:=empty_like o]> h) (<[l:=y]> m)) as [[[h1 m1] r1] ->].
    + by apply insert_subseteq_r.
    + done.
    + by rewrite lookup_insert_eq.
    + apply Forall_forall. intros [t a] Hin l' Heq. simpl in Heq. subst a.
      eapply closed_reference; [done | exact Ho |]. by eapply references_entries.
    + pose proof (uncopied_insert h0 m l y (mk_is_Some _ _ Ho) Hl). lia.
    + by destruct r1.
Qed.

(** Every object that is copied gets a copy of its own. *)
Lemma distinct_copies_insert h m y o :
  distinct_copies h m → distinct_copies (<[y:=o]> h) m.
Proof.
  intros [Hin Hinj]. split; [|done].
  intros l y' Hl. apply lookup_insert_is_Some'. right. by eapply Hin.
Qed.

Section copy_loop_distinct.
Variable call : loc → store → memo → option (store * memo * res loc).
Hypothesis call_distinct : ∀ l h m h' m' r,
  call l h m = Some (h', m', r) → distinct_copies h m → distinct_copies h' m'.

Lemma copy_elem_distinct a h m h' m' r :
  copy_elem call a h m = Some (h', m', r) → distinct_copies h m → distinct_copies h' m'.
Proof.
  destruct a as [n|l]; simpl.
  - by intros [= <- <- _].
  - destruct (call l h m) as [[[h1 m1] [l'|e]]|] eqn:E; [| |done];
      intros [= <- <- _]; by eapply call_distinct.
Qed.

Lemma copy_loop_distinct y xs : ∀ h m h' m' r,
  copy_loop call y xs h m = Some (h', m', r) →
  distinct_copies h m → distinct_copies h' m'.
Proof.
  induction xs as [|[t a] rest IH]; intros h m h' m' r; simpl.
  - by intros [= <- <- _].
  - destruct (copy_elem call a h m) as [[[h1 m1] [a'|e]]|] eqn:E; [| |done].
    + intros Hrun Hd. apply copy_elem_distinct in E; [|done].
      destruct (h1 !! y) as [o|]; [|by injection Hrun as <- <- _].
      eapply IH; [exact Hrun|]. by apply distinct_copies_insert.
    + intros [= <- <- _] Hd. by eapply copy_elem_distinct.
Qed.
End copy_loop_distinct.

Lemma deepcopy_distinct fuel : ∀ l h m h' m' r,
  deepcopy fuel l h m = Some (h', m', r) → distinct_copies h m → distinct_copies h' m'.
Proof.
  induction fuel as [|fuel IH]; intros l h m h' m' r; simpl.
  - destruct (m !! l); [|done]. by intros [= <- <- _].
  - destruct (m !! l) as [y|] eqn:Hl; [by intros [= <- <- _]|].
    destruct (h !! l) as [o|] eqn:Ho; [|by intros [= <- <- _]].
    pose proof (fresh_loc_unused h) as Hfresh. set (y := fresh (dom h)) in *.
    destruct (copy_loop (deepcopy fuel) y (entries o) (<[y:=empty_like o]> h) (<[l:=y]> m))
      as [[[h1 m1] r1]|] eqn:E; [|done].
    intros Hres [Hin Hinj].
    assert (h1 = h' ∧ m1 = m') as [<- <-] by (destruct r1; by injection Hres as <- <- _).
    apply (copy_loop_distinct _ IH) in E; [done|]. split.
    + intros l0 y0 Hl0. apply lookup_insert_is_Some'.
      destruct (decide (l0 = l)) as [->|Hne].
      * rewrite lookup_insert_eq in Hl0. left. congruence.
      * rewrite lookup_insert_ne in Hl0 by done. right. by eapply Hin.
    + intros l1 l2 y0 H1 H2.
      destruct (decide (l1 = l)) as [->|Hne1], (decide (l2 = l)) as [->|Hne2]; [done|..].
      * rewrite lookup_insert_eq in H1. rewrite lookup_insert_ne in H2 by done.
        injection H1 as <-. apply Hin in H2 as [o' Ho']. congruence.
      * rewrite lookup_insert_eq in H2. rewrite lookup_insert_ne in H1 by done.
        injection H2 as <-. apply Hin in H1 as [o' Ho']. congruence.
      * rewrite lookup_insert_ne in H1, H2 by done. by eapply Hinj.
Qed.

(** [dcp] in a store where every reference leads to an object: it
    returns a new object, changes no object of the store, and what it
    has made is a deep copy. *)
Lemma dcp_returns h lo :
  closed h = true → is_Some (h !! lo) →
  ∃ h' new m, dcp h lo = (h', Ok new)
              ∧ h ⊆ h' ∧ m !! lo = Some new ∧ deep_copy h h' m.
Proof.
  intros Hclosed Hlo. unfold dcp.
  destruct (deepcopy_returns h Hclosed (size (dom h)) lo h ∅) as [[[h' m] r] E];
    [done | done | apply subseteq_size; by intros x [? _]%elem_of_difference |].
  rewrite E.
  pose proof (deepcopy_step _ _ _ _ _ _ _ E) as (Hh & _ & Hnew).
  destruct (deepcopy_done h Hclosed _ _ _ _ _ _ _ E) as [(new & -> & Hm) Hdone]; [done..|].
  exists h', new, m. split; [done|]. split; [done|]. split; [done|]. split.
  - intros l y Hy. split; [by apply (Hnew l y)|].
    destruct (Hdone l y Hy) as (o & o' & ?); [done|]. by exists o, o'.
  - apply (deepcopy_distinct _ _ _ _ _ _ _ E). split; intros *; by rewrite lookup_empty.
Qed.

(** [dcp] changes no object of the store, whatever the store and the
    outcome. *)
Lemma dcp_frame h lo h' out : dcp h lo = (h', out) → h ⊆ h'.
Proof.
  unfold dcp. destruct (deepcopy (size (dom h)) lo h ∅) as [[[h1 m] r]|] eqn:E.
  - intros [= <- _]. by apply deepcopy_step in E as [? _].
  - by intros [= <- _].
Qed.

(** The object that [deepcopy] returns is the copy that the memo has for
    the object copied. *)
Lemma deepcopy_result fuel l h m h' m' y :
  deepcopy fuel l h m = Some (h', m', Ok y) → m' !! l = Some y.
Proof.
  destruct fuel as [|fuel]; simpl.
  - destruct (m !! l) as [y'|] eqn:Hl; [|done]. by intros [= <- <- <-].
  - destruct (m !! l) as [y'|] eqn:Hl; [by intros [= <- <- <-]|].
    destruct (h !! l) as [o|]; [|done].
    destruct (copy_loop _ _ _ _ _) as [[[h1 m1] r1]|] eqn:E; [|done].
    apply (copy_loop_frame _ (deepcopy_step fuel)) in E as (_ & _ & Hm & _);
      [|by rewrite lookup_insert_eq].
    destruct r1; [|done]. intros [= <- <- <-].
    apply (lookup_weaken _ _ _ _ (lookup_insert_eq m l _) Hm).
Qed.

(** What [dcp] returns is an object that the store did not have. *)
Lemma dcp_new h lo h' new : dcp h lo = (h', Ok new) → h !! new = None.
Proof.
  unfold dcp. destruct (deepcopy (size (dom h)) lo h ∅) as [[[h1 m] r]|] eqn:E; [|done].
  intros [= <- ->]. pose proof (deepcopy_result _ _ _ _ _ _ _ E) as Hm.
  apply deepcopy_step in E as (_ & _ & Hnew). by apply (Hnew lo new).
Qed.

(** ** [vec2obj] *)

Lemma py_index_in_range len ind :
  in_range len ind → py_index len ind = Some (position len ind).
Proof.
  unfold in_range, py_index, position. intros [Hlo Hhi].
  destruct (0 <=? ind) eqn:E0; simpl.
  - apply Z.leb_le in E0. by apply Z.ltb_lt in Hhi as ->.
  - apply Z.leb_gt in E0.
    apply Z.leb_le in Hlo as ->. by apply Z.ltb_lt in E0 as ->.
Qed.

Lemma position_lt len ind : in_range len ind → (position len ind < len)%nat.
Proof. unfold in_range, position. intros [Hlo Hhi]. destruct (0 <=? ind) eqn:E0; lia. Qed.

Lemma py_index_Some_in_range len ind n : py_index len ind = Some n → in_range len ind.
Proof.
  unfold py_index, in_range.
  destruct ((0 <=? ind) && (ind <? Z.of_nat len)) eqn:E1.
  { apply andb_true_iff in E1 as [?%Z.leb_le ?%Z.ltb_lt]. lia. }
  destruct ((- Z.of_nat len <=? ind) && (ind <? 0)) eqn:E2; [|done].
  apply andb_true_iff in E2 as [?%Z.leb_le ?%Z.ltb_lt]. lia.
Qed.

(** The loop writes to [new] only. *)
Lemma assign_all_frame inds : ∀ h new newvec i h' out,
  assign_all h new newvec i inds = (h', out) →
  ∀ l, l ≠ new → h' !! l = h !! l.
Proof.
  induction inds as [|ind rest IH]; intros h new newvec i h' out; simpl.
  - by intros [= <- _].
  - destruct (newvec !! i) as [x|]; [|by intros [= <- _]].
    destruct (h !! new) as [o|]; [|by intros [= <- _]].
    destruct (object_setitem o ind x) as [o'|e]; [|by intros [= <- _]].
    intros Hrun l Hne. rewrite (IH _ _ _ _ _ _ Hrun l Hne).
    by rewrite lookup_insert_ne.
Qed.

(** When the loop ends without an exception, [new] holds what it held
    with the replacements made one after the other. *)
Lemma assign_all_replaced inds : ∀ h new newvec i h' o,
  assign_all h new newvec i inds = (h', Ok tt) →
  h !! new = Some o →
  ∃ o', replaced o (zip inds (drop i newvec)) = Ok o' ∧ h' !! new = Some o'.
Proof.
  induction inds as [|ind rest IH]; intros h new newvec i h' o; simpl.
  - intros [= <-] Ho. by exists o.
  - destruct (newvec !! i) as [x|] eqn:Hx; [|done].
    intros Hrun Ho. rewrite Ho in Hrun.
    destruct (object_setitem o ind x) as [o1|e] eqn:Hset; [|done].
    apply (IH _ _ _ _ _ o1) in Hrun as (o' & Hrep & Hnew); [|by rewrite lookup_insert_eq].
    exists o'. split; [|done].
    rewrite (drop_S _ _ _ Hx). simpl. by rewrite Hset.
Qed.

(** A list of indices that holds a key has no maximum that the guard
    could compare with a length. *)
Lemma max_from_string rest : ∀ max_item s,
  max_item = KStr s ∨ KStr s ∈ rest →
  max_from max_item rest = Raise TypeError ∨ ∃ s', max_from max_item rest = Ok (KStr s').
Proof.
  induction rest as [|item rest IH]; intros max_item s Hs; simpl.
  - destruct Hs as [->|Hin]; [eauto|]. by apply elem_of_nil in Hin.
  - destruct item as [i|t], max_item as [j|u]; simpl; auto.
    + apply (IH _ s). right. destruct Hs as [?|Hin]; [done|].
      by apply elem_of_cons in Hin as [?|?].
    + destruct (String.ltb u t); [apply (IH _ t) | apply (IH _ u)]; by left.
Qed.

(** C7.  An index list that holds a key of the object makes [vec2obj]
    raise [TypeError] at the guard, before anything is copied or assigned,
    whatever the object and the vector are: the element is not assigned at
    the key, as the claim and the docstring have it. *)
Theorem vec2obj_rejects_keys (h : store) lo o vec inds s :
  h !! lo = Some o →
  KStr s ∈ inds →
  vec2obj h (Some lo) (Some vec) (Some inds) = (h, Raise TypeError).
Proof.
  intros Ho Hs. unfold vec2obj. rewrite Ho.
  destruct inds as [|i rest]; [by apply elem_of_nil in Hs|]. simpl.
  destruct (max_from_string rest i s) as [->|[s' ->]]; [|done..].
  apply elem_of_cons in Hs as [<-|?]; auto.
Qed.

Lemma vec2obj_rejects_keys_witness :
  sample_store !! 3%positive = Some (ODict [(KStr "a", ENum 1); (KStr "b", ENum 2)])
  ∧ vec2obj sample_store (Some 3%positive) (Some [ENum 7]) (Some [KStr "a"])
    = (sample_store, Raise TypeError).
Proof.
  split; [reflexivity|].
  apply (vec2obj_rejects_keys sample_store 3%positive
           (ODict [(KStr "a", ENum 1); (KStr "b", ENum 2)]) [ENum 7] [KStr "a"] "a").
  - reflexivity.
  - apply elem_of_cons. by left.
Defined.

(** The other way in which an index list that addresses nothing beyond
    the object is refused: the empty one, in [max]. *)
Example vec2obj_empty_index_list :
  vec2obj sample_store (Some 1%positive) (Some [ENum 7]) (Some [])
  = (sample_store, Raise ValueError).
Proof. reflexivity. Qed.

Lemma copy_and_assign_frame h lo vec inds h' out :
  copy_and_assign h lo vec inds = (h', out) → h ⊆ h'.
Proof.
  unfold copy_and_assign. destruct (dcp h lo) as [h1 [new|e]] eqn:Hdcp.
  - destruct (assign_all h1 new vec 0 inds) as [h2 out2] eqn:Hrun.
    intros [= <- _]. apply map_subseteq_spec. intros l o Hl.
    rewrite (assign_all_frame _ _ _ _ _ _ _ Hrun).
    + by apply (lookup_weaken _ _ _ _ Hl), (dcp_frame _ _ _ _ Hdcp).
    + intros ->. apply dcp_new in Hdcp. congruence.
  - intros [= <- _]. by apply dcp_frame in Hdcp.
Qed.

Lemma copy_and_assign_deep h lo vec inds h' new :
  closed h = true → is_Some (h !! lo) →
  copy_and_assign h lo vec inds = (h', Ok new) →
  ∃ m c c', m !! lo = Some new
            ∧ deep_copy h (<[new:=c]> h') m
            ∧ replaced c (zip inds vec) = Ok c'
            ∧ h' !! new = Some c'.
Proof.
  intros Hclosed Hlo. unfold copy_and_assign.
  destruct (dcp_returns h lo Hclosed Hlo) as (h1 & new1 & m & -> & Hh & Hm & Hdeep).
  destruct (assign_all h1 new1 vec 0 inds) as [h2 [[]|e]] eqn:Hrun; [|done].
  intros [= <- <-].
  destruct Hdeep as [Hdeep Hinj].
  destruct (Hdeep lo new1 Hm) as (Hfresh & o & c & Ho & Hren & Hc).
  destruct (assign_all_replaced _ _ _ _ _ _ _ Hrun Hc) as (c' & Hrep & Hnew).
  exists m, c, c'. split; [done|]. split; [|by split].
  split; [|done].
  intros l y Hy. destruct (Hdeep l y Hy) as (Hf & ol & ol' & Hol & Hrenl & Hy').
  split; [done|]. exists ol, ol'. split; [done|]. split; [done|].
  destruct (decide (y = new1)) as [->|Hne].
  - rewrite lookup_insert_eq. congruence.
  - rewrite lookup_insert_ne by done.
    by rewrite (assign_all_frame _ _ _ _ _ _ _ Hrun).
Qed.

(** C8.  [vec2obj] changes no object that was in the store when it was
    called, the original among them, whether it returns or raises, also
    when it raises after some replacements were made.  What it returns,
    in a store where every reference leads to an object, is a new object:
    a deep copy of the original (every object reached from it has been
    copied to a new object of its own, and every copy refers to copies
    only), with the replacements made one after the other. *)
Theorem vec2obj_leaves_original (h : store) orig newvec inds h' out :
  vec2obj h orig newvec inds = (h', out) →
  h ⊆ h'
  ∧ (closed h = true → ∀ new, out = Ok new →
       ∃ lo vec m c c',
         orig = Some lo ∧ newvec = Some vec
         ∧ m !! lo = Some new
         ∧ deep_copy h (<[new:=c]> h') m
         ∧ replaced c (zip (default (map (KInt ∘ Z.of_nat) (seq 0 (length vec))) inds) vec)
           = Ok c'
         ∧ h' !! new = Some c').
Proof.
  unfold vec2obj.
  destruct orig as [lo|]; [|by intros [= <- <-]].
  destruct newvec as [vec|]; [|by intros [= <- <-]].
  destruct (h !! lo) as [o|] eqn:Ho; [|by intros [= <- <-]].
  assert (Hcopy : ∀ inds',
    copy_and_assign h lo vec inds' = (h', out) →
    h ⊆ h'
    ∧ (closed h = true → ∀ new, out = Ok new →
         ∃ m c c',
           m !! lo = Some new
           ∧ deep_copy h (<[new:=c]> h') m
           ∧ replaced c (zip inds' vec) = Ok c'
           ∧ h' !! new = Some c')).
  { intros inds' Hrun. split; [by eapply copy_and_assign_frame|].
    intros Hclosed new ->.
    by apply copy_and_assign_deep. }
  assert (Hpack : ∀ inds',
    copy_and_assign h lo vec (default (map (KInt ∘ Z.of_nat) (seq 0 (length vec))) inds')
    = (h', out) →
    h ⊆ h'
    ∧ (closed h = true → ∀ new, out = Ok new →
         ∃ lo' vec' m c c',
           Some lo = Some lo' ∧ Some vec = Some vec'
           ∧ m !! lo' = Some new
           ∧ deep_copy h (<[new:=c]> h') m
           ∧ replaced c (zip (default (map (KInt ∘ Z.of_nat) (seq 0 (length vec'))) inds') vec')
             = Ok c'
           ∧ h' !! new = Some c')).
  { intros inds' Hrun. destruct (Hcopy _ Hrun) as [Hframe Hdeep]. split; [done|].
    intros Hclosed new Hnew. destruct (Hdeep Hclosed new Hnew) as (m & c & c' & ?).
    by exists lo, vec, m, c, c'. }
  destruct inds as [inds|].
  - destruct (py_max inds) as [[m|s]|e]; [|by intros [= <- <-]..].
    destruct (Z.of_nat (object_len o) <=? m); [by intros [= <- <-]|].
    apply (Hpack (Some inds)).
  - destruct (negb (length vec =? object_len o)%nat); [by intros [= <- <-]|].
    apply (Hpack None).
Qed.

(** A call whose second replacement fails ([-5] addresses nothing in a
    list of three) after the first was made on the copy, and a call that
    returns. *)
Lemma vec2obj_leaves_original_witness :
  vec2obj sample_store (Some 1%positive) (Some [ENum 7; ENum 8]) (Some [KInt 0; KInt (-5)])
  = (<[5%positive := OList [ENum 1]]>
       (<[4%positive := OList [ENum 7; ENum 2; ENum 3]]> sample_store),
     Raise IndexError)
  ∧ sample_store ⊆ <[5%positive := OList [ENum 1]]>
                      (<[4%positive := OList [ENum 7; ENum 2; ENum 3]]> sample_store)
  ∧ ∃ h' m c c',
      vec2obj sample_store (Some 1%positive) (Some [ENum 7]) (Some [KInt (-1)])
      = (h', Ok 4%positive)
      ∧ m !! 1%positive = Some 4%positive
      ∧ deep_copy sample_store (<[4%positive:=c]> h') m
      ∧ replaced c [(KInt (-1), ENum 7)] = Ok c'
      ∧ h' !! 4%positive = Some c'.
Proof.
  assert (Hfails :
    vec2obj sample_store (Some 1%positive) (Some [ENum 7; ENum 8]) (Some [KInt 0; KInt (-5)])
    = (<[5%positive := OList [ENum 1]]>
         (<[4%positive := OList [ENum 7; ENum 2; ENum 3]]> sample_store),
       Raise IndexError)) by reflexivity.
  assert (Hreturns :
    vec2obj sample_store (Some 1%positive) (Some [ENum 7]) (Some [KInt (-1)])
    = (<[5%positive := OList [ENum 1]]>
         (<[4%positive := OList [ERef 5%positive; ENum 2; ENum 7]]> sample_store),
       Ok 4%positive)) by reflexivity.
  split; [exact Hfails|].
  split; [exact (proj1 (vec2obj_leaves_original _ _ _ _ _ _ Hfails))|].
  destruct (proj2 (vec2obj_leaves_original _ _ _ _ _ _ Hreturns) eq_refl 4%positive eq_refl)
    as (lo & vec & m & c & c' & Hlo & Hvec & Hm & Hdeep & Hrep & Hnew).
  injection Hlo as <-. injection Hvec as <-.
  eexists _, m, c, c'. split; [exact Hreturns|]. by split.
Defined.

(** A call that returns: the list at 1 holds the list at 2; the result
    at 4 holds a copy of that list, at 5, and the element that replaces
    the last one. *)
Example vec2obj_deep_copy :
  vec2obj sample_store (Some 1%positive) (Some [ENum 7]) (Some [KInt (-1)])
  = (<[5%positive := OList [ENum 1]]>
       (<[4%positive := OList [ERef 5%positive; ENum 2; ENum 7]]> sample_store),
     Ok 4%positive).
Proof. reflexivity. Qed.

(** ** [vec2obj] on a list, with indices *)

Lemma assign_at_length content p : length (assign_at content p) = length content.
Proof. apply length_insert. Qed.

Lemma foldl_assign_length ps : ∀ content,
  length (foldl assign_at content ps) = length content.
Proof.
  induction ps as [|p ps IH]; intros content; [done|].
  simpl. by rewrite IH, assign_at_length.
Qed.

(** With every index in range and enough elements in the vector, the loop
    performs the replacements one after the other. *)
Lemma assign_all_ok inds : ∀ h new newvec i content,
  h !! new = Some (OList content) →
  Forall (in_range (length content)) inds →
  (i + length inds ≤ length newvec)%nat →
  ∃ h', assign_all h new newvec i (KInt <$> inds) = (h', Ok tt)
        ∧ h' !! new = Some (OList (foldl assign_at content (zip inds (drop i newvec)))).
Proof.
  induction inds as [|ind rest IH]; intros h new newvec i content Hnew Hall Hlen.
  - exists h. by split.
  - simpl in Hlen. apply Forall_cons in Hall as [Hind Hall].
    destruct (lookup_lt_is_Some_2 newvec i) as [x Hx]; [lia|].
    simpl. rewrite Hx, Hnew. simpl. rewrite (py_index_in_range _ _ Hind).
    rewrite (drop_S _ _ _ Hx). simpl.
    apply IH; [by rewrite lookup_insert_eq | | lia].
    by rewrite assign_at_length.
Qed.

(** An index that addresses nothing, or a vector that runs out, stops the
    loop with an exception. *)
Lemma assign_all_raises inds : ∀ h new newvec i content,
  h !! new = Some (OList content) →
  (i ≤ length newvec)%nat →
  ¬ (Forall (in_range (length content)) inds ∧ (i + length inds ≤ length newvec)%nat) →
  ∃ h' e, assign_all h new newvec i (KInt <$> inds) = (h', Raise e).
Proof.
  induction inds as [|ind rest IH]; intros h new newvec i content Hnew Hi Hbad.
  - exfalso. apply Hbad. split; [constructor | simpl; lia].
  - simpl. destruct (newvec !! i) as [x|] eqn:Hx; [|eauto].
    rewrite Hnew. simpl.
    destruct (py_index (length content) ind) as [n|] eqn:Hn; [|eauto].
    apply lookup_lt_Some in Hx. apply py_index_Some_in_range in Hn.
    apply (IH _ _ _ _ (<[n:=x]> content)); [by rewrite lookup_insert_eq | lia |].
    rewrite length_insert. intros [Hall Hlen]. apply Hbad.
    split; [by constructor | simpl; lia].
Qed.

Section replacements.
Variable len : nat.

Lemma foldl_assign_untouched ps : ∀ content n,
  length content = len →
  n ∉ positions len ps →
  foldl assign_at content ps !! n = content !! n.
Proof.
  induction ps as [|[ind x] ps IH]; intros content n Hlen Hn; [done|].
  simpl in *. apply not_elem_of_cons in Hn as [Hne Hn].
  rewrite IH; [|by rewrite assign_at_length|done].
  unfold assign_at. simpl. rewrite Hlen. by apply list_lookup_insert_ne.
Qed.

Lemma foldl_assign_assigned ps : ∀ content ind x,
  length content = len →
  NoDup (positions len ps) →
  Forall (λ p, in_range len p.1) ps →
  (ind, x) ∈ ps →
  foldl assign_at content ps !! position len ind = Some x.
Proof.
  induction ps as [|[ind0 x0] ps IH]; intros content ind x Hlen Hnd Hall Hin.
  { by apply elem_of_nil in Hin. }
  simpl in *. apply NoDup_cons in Hnd as [Hfresh Hnd].
  apply Forall_cons in Hall as [Hr Hall].
  apply elem_of_cons in Hin as [[= -> ->]|Hin].
  - rewrite foldl_assign_untouched; [|by rewrite assign_at_length|done].
    unfold assign_at. simpl. rewrite Hlen.
    apply list_lookup_insert_eq. rewrite Hlen. by apply position_lt.
  - apply IH; [by rewrite assign_at_length|done..].
Qed.
End replacements.

(** Replacing every position in turn leaves the vector. *)
Lemma foldl_assign_all content vec :
  length vec = length content →
  foldl assign_at content (zip (map Z.of_nat (seq 0 (length vec))) vec) = vec.
Proof.
  intros Hlen. set (ps := zip (map Z.of_nat (seq 0 (length vec))) vec).
  assert (Hps : ∀ n x, vec !! n = Some x → (Z.of_nat n, x) ∈ ps).
  { intros n x Hx. apply list_elem_of_lookup. exists n. unfold ps.
    apply lookup_zip_with_Some. exists (Z.of_nat n), x. split; [done|]. split; [|done].
    rewrite list_lookup_fmap, lookup_seq_lt; [done|]. by eapply lookup_lt_Some. }
  assert (Hpos : positions (length content) ps = seq 0 (length vec)).
  { unfold ps, positions. apply list_eq. intros n.
    rewrite list_lookup_fmap, lookup_zip_with.
    rewrite list_lookup_fmap.
    destruct (decide (n < length vec)%nat) as [Hlt|Hge].
    - rewrite lookup_seq_lt by done. simpl.
      destruct (lookup_lt_is_Some_2 vec n Hlt) as [x ->]. simpl.
      unfold position. destruct (0 <=? Z.of_nat n) eqn:E; [f_equal; lia|].
      apply Z.leb_gt in E. lia.
    - rewrite (lookup_seq_ge 0 (length vec) n) by lia. done. }
  apply list_eq. intros n.
  destruct (vec !! n) as [x|] eqn:Hx.
  - pose proof (lookup_lt_Some _ _ _ Hx) as Hlt.
    replace n with (position (length content) (Z.of_nat n)) at 1.
    2:{ unfold position. destruct (0 <=? Z.of_nat n) eqn:E; [lia|].
        apply Z.leb_gt in E. lia. }
    apply foldl_assign_assigned; [done | | | by apply Hps].
    + rewrite Hpos. apply NoDup_seq.
    + apply Forall_forall. intros [ind y] Hin. unfold ps in Hin.
      apply elem_of_zip_l in Hin. apply list_elem_of_fmap in Hin as (m & -> & Hm).
      apply elem_of_seq in Hm. unfold in_range. simpl. lia.
  - apply lookup_ge_None. rewrite foldl_assign_length.
    apply lookup_ge_None in Hx. lia.
Qed.

Lemma max_from_indices rest : ∀ a,
  max_from (KInt a) (KInt <$> rest) = Ok (KInt (foldl Z.max a rest)).
Proof.
  induction rest as [|b rest IH]; intros a; [done|]. simpl.
  destruct (a <? b) eqn:E.
  - rewrite IH. do 2 f_equal. apply Z.ltb_lt in E. f_equal. lia.
  - rewrite IH. do 2 f_equal. apply Z.ltb_ge in E. f_equal. lia.
Qed.

Lemma foldl_max_lt rest : ∀ a bound,
  a < bound → Forall (λ ind, ind < bound) rest → foldl Z.max a rest < bound.
Proof.
  induction rest as [|b rest IH]; intros a bound Ha Hrest; [done|].
  apply Forall_cons in Hrest as [Hb Hrest]. simpl. apply IH; [lia | done].
Qed.

Lemma foldl_max_ge rest : ∀ a ind, ind = a ∨ ind ∈ rest → ind ≤ foldl Z.max a rest.
Proof.
  induction rest as [|b rest IH]; intros a ind Hin; simpl.
  - destruct Hin as [->|Hin]; [lia|]. by apply elem_of_nil in Hin.
  - destruct Hin as [->|Hin].
    + etrans; [|apply (IH _ (Z.max a b)); by left]. lia.
    + apply elem_of_cons in Hin as [->|Hin].
      * etrans; [|apply (IH _ (Z.max a b)); by left]. lia.
      * apply IH. by right.
Qed.

(** The maximum of a list of indices that is not empty. *)
Lemma py_max_indices inds bound :
  inds ≠ [] → Forall (λ ind, ind < bound) inds →
  ∃ m, py_max (KInt <$> inds) = Ok (KInt m) ∧ m < bound.
Proof.
  destruct inds as [|a rest]; [done|]. intros _ [Ha Hrest]%Forall_cons.
  exists (foldl Z.max a rest). split; [apply max_from_indices | by apply foldl_max_lt].
Qed.

(** The guard on a list of indices. *)
Lemma vec2obj_indices h lo o vec inds m :
  h !! lo = Some o → py_max inds = Ok (KInt m) →
  vec2obj h (Some lo) (Some vec) (Some inds)
  = if Z.of_nat (object_len o) <=? m
    then (h, Raise (Exception (MaximumIndexTooLarge m (object_len o))))
    else copy_and_assign h lo vec inds.
Proof. intros Ho Hmax. unfold vec2obj. by rewrite Ho, Hmax. Qed.

(** The copy of a list is a list of the same length. *)
Lemma rename_list m content o' :
  rename_object m (OList content) = Some o' →
  ∃ c, o' = OList c ∧ length c = length content.
Proof.
  simpl. destruct (mapM (rename_elem m) content) as [c|] eqn:E; [|done].
  intros [= <-]. exists c. split; [done|]. by apply length_mapM in E.
Qed.

(** X23.  What [vec2obj] does on a list, in a store where every reference
    leads to an object.  Without an index list, a vector whose length is
    not that of the list is rejected, and a vector of the same length
    replaces every element.  With a non-empty list of indices that all
    address a position of the list, and a vector with at least as many
    elements, the call returns a copy with the replacements made one after
    the other, the i-th element of the vector at the i-th index; when no
    position is addressed twice, every one of them ends up holding its
    element.  Every other list of indices makes the call raise. *)
Theorem vec2obj_elementwise (h : store) (lo : loc) (o vec : list elem) :
  closed h = true →
  h !! lo = Some (OList o) →
  (length vec ≠ length o →
   vec2obj h (Some lo) (Some vec) None
   = (h, Raise (Exception (LengthsMustMatch (length o) (length vec)))))
  ∧ (length vec = length o →
     ∃ h' new, vec2obj h (Some lo) (Some vec) None = (h', Ok new)
               ∧ h' !! new = Some (OList vec))
  ∧ (∀ inds, inds ≠ [] →
       Forall (in_range (length o)) inds →
       (length inds ≤ length vec)%nat →
       ∃ h' new m c,
         vec2obj h (Some lo) (Some vec) (Some (KInt <$> inds)) = (h', Ok new)
         ∧ m !! lo = Some new
         ∧ rename_object m (OList o) = Some (OList c)
         ∧ h' !! new = Some (OList (foldl assign_at c (zip inds vec)))
         ∧ (NoDup (positions (length o) (zip inds vec)) →
            ∀ i ind x, inds !! i = Some ind → vec !! i = Some x →
              foldl assign_at c (zip inds vec) !! position (length o) ind = Some x))
  ∧ (∀ inds, ¬ (inds ≠ [] ∧ Forall (in_range (length o)) inds
                ∧ (length inds ≤ length vec)%nat) →
       ∃ e, (vec2obj h (Some lo) (Some vec) (Some (KInt <$> inds))).2 = Raise e).
Proof.
  intros Hclosed Ho.
  destruct (dcp_returns h lo Hclosed (mk_is_Some _ _ Ho))
    as (h1 & new & m & Hdcp & Hh & Hm & Hdeep & _).
  destruct (Hdeep lo new Hm) as (Hfresh & o0 & c0 & Ho0 & Hren & Hc).
  assert (o0 = OList o) as -> by congruence.
  destruct (rename_list _ _ _ Hren) as (c & -> & Hlen).
  split; [|split; [|split]].
  - intros Hne. unfold vec2obj. rewrite Ho. simpl.
    by apply Nat.eqb_neq in Hne as ->.
  - intros Heq. unfold vec2obj. rewrite Ho. simpl.
    apply Nat.eqb_eq in Heq as Heqb. rewrite Heqb. simpl.
    unfold copy_and_assign. rewrite Hdcp.
    destruct (assign_all_ok (map Z.of_nat (seq 0 (length vec))) h1 new vec 0 c Hc)
      as (h' & Hrun & Hnew).
    + apply Forall_forall. intros ind (k & -> & Hk%elem_of_seq)%list_elem_of_fmap.
      unfold in_range. lia.
    + by rewrite length_map, length_seq.
    + rewrite <- list_fmap_compose in Hrun.
      change (map (KInt ∘ Z.of_nat) (seq 0 (length vec)))
        with (KInt ∘ Z.of_nat <$> seq 0 (length vec)).
      rewrite Hrun.
      exists h', new. split; [done|]. rewrite Hnew, drop_0.
      rewrite foldl_assign_all; [done | lia].
  - intros inds Hne Hall Hlenv.
    destruct (py_max_indices inds (Z.of_nat (length o)) Hne) as (mx & Hmax & Hlt).
    { eapply Forall_impl; [exact Hall|]. by intros ind [_ ?]. }
    rewrite (vec2obj_indices _ _ _ _ _ _ Ho Hmax). cbn [object_len].
    apply Z.leb_gt in Hlt as ->.
    unfold copy_and_assign. rewrite Hdcp.
    destruct (assign_all_ok inds h1 new vec 0 c Hc) as (h' & Hrun & Hnew);
      [by rewrite Hlen | done |].
    rewrite Hrun. rewrite drop_0 in Hnew.
    exists h', new, m, c. split; [done|]. split; [done|]. split; [done|]. split; [done|].
    intros Hnd i ind x Hi Hx. rewrite <- Hlen.
    apply (foldl_assign_assigned (length c)); [done | by rewrite Hlen | |].
    + apply Forall_forall. intros [ind' x'] Hin%elem_of_zip_l. rewrite Hlen.
      by apply (proj1 (Forall_forall _ _) Hall).
    + apply list_elem_of_lookup. exists i. apply lookup_zip_with_Some. eauto.
  - intros inds Hbad.
    destruct inds as [|a rest].
    { unfold vec2obj. rewrite Ho. simpl. eauto. }
    destruct (py_max_indices (a :: rest) (1 + foldl Z.max a rest)) as (mx & Hmax & _);
      [done | |].
    { apply Forall_forall. intros ind Hin.
      pose proof (foldl_max_ge rest a ind) as Hge.
      apply elem_of_cons in Hin as [->|Hin]; [|specialize (Hge (or_intror Hin))]; [|lia].
      specialize (Hge (or_introl eq_refl)). lia. }
    rewrite (vec2obj_indices _ _ _ _ _ _ Ho Hmax). cbn [object_len].
    destruct (Z.of_nat (length o) <=? mx); [simpl; eauto|].
    unfold copy_and_assign. rewrite Hdcp.
    destruct (assign_all_raises (a :: rest) h1 new vec 0 c Hc) as (h' & e & Hrun); [lia| |].
    + rewrite Hlen. intros [Hall Hlenv]. apply Hbad. split; [done|]. split; [done|].
      simpl in *. lia.
    + rewrite Hrun. simpl. eauto.
Qed.

Lemma vec2obj_elementwise_witness :
  ∃ h' new,
    vec2obj sample_store (Some 1%positive) (Some [ENum 7; ENum 8]) (Some [KInt 0; KInt (-1)])
    = (h', Ok new)
    ∧ ∃ c, h' !! new = Some (OList (foldl assign_at c [(0, ENum 7); (-1, ENum 8)])).
Proof.
  destruct (vec2obj_elementwise sample_store 1%positive
              [ERef 2%positive; ENum 2; ENum 3] [ENum 7; ENum 8])
    as (_ & _ & H & _); [reflexivity | reflexivity |].
  destruct (H [0; -1]) as (h' & new & m & c & Hrun & _ & _ & Hnew & _).
  - discriminate.
  - repeat constructor; unfold in_range; simpl; lia.
  - simpl. lia.
  - exists h', new. split; [exact Hrun|]. by exists c.
Defined.
(** ** Floating-point numbers *)

Lemma res_bind_Ok {A B} (a : A) (f : A → res B) : (Ok a ≫= f) = f a.
Proof. reflexivity. Qed.

Lemma py_round_Z z : py_round (Qc_of_Z z) = z.
Proof.
  unfold py_round. change (Qfloor (Qc_of_Z z)) with (Qfloor (inject_Z z)).
  rewrite Qfloor_Z.
  replace (Qc_of_Z z - Qc_of_Z z)%Qc with 0%Qc by ring.
  reflexivity.
Qed.

Lemma Qc_div_1 (x : Qc) : (x / 1)%Qc = x.
Proof. by field. Qed.

Lemma Qc_of_Z_neq_0 z : z ≠ 0 → Qc_of_Z z ≠ 0%Qc.
Proof. intros Hz H. apply Hz, Z2Qc_inj. by rewrite Z2Qc_inj_0. Qed.

Lemma Qcabs_of_Z z : Qcabs.Qcabs (Qc_of_Z z) = Qc_of_Z (Z.abs z).
Proof.
  destruct (Z.le_ge_cases 0 z) as [H|H].
  - rewrite Z.abs_eq by done. apply Qcabs.Qcabs_pos.
    rewrite <- Z2Qc_inj_0. by apply (proj1 (Z2Qc_inj_le _ _)).
  - rewrite Z.abs_neq, Z2Qc_inj_opp by done. apply Qcabs.Qcabs_neg.
    rewrite <- Z2Qc_inj_0. by apply (proj1 (Z2Qc_inj_le _ _)).
Qed.

Lemma pow2_nonneg e : 0 ≤ e → pow2 e = Qc_of_Z (2 ^ e).
Proof. intros H. unfold pow2. by rewrite (proj2 (Z.leb_le 0 e) H). Qed.

Lemma pow2_nonpos e : e ≤ 0 → pow2 e = (/ Qc_of_Z (2 ^ (- e)))%Qc.
Proof.
  intros H. unfold pow2. destruct (0 <=? e) eqn:E; [|done].
  apply Z.leb_le in E. replace e with 0 by lia.
  by apply Qc_is_canon.
Qed.

Lemma pow2_Z_pos e : 0 ≤ e → (0 < Qc_of_Z (2 ^ e))%Qc.
Proof.
  intros H. rewrite <- Z2Qc_inj_0. apply (proj1 (Z2Qc_inj_lt _ _)). by apply Z.pow_pos_nonneg.
Qed.

Lemma pow2_pos e : (0 < pow2 e)%Qc.
Proof.
  unfold pow2. destruct (0 <=? e) eqn:E.
  - apply pow2_Z_pos. by apply Z.leb_le.
  - apply Qcinv_pos, pow2_Z_pos. apply Z.leb_gt in E. lia.
Qed.

Lemma pow2_neq_0 e : pow2 e ≠ 0%Qc.
Proof. intros H. pose proof (pow2_pos e) as Hp. rewrite H in Hp. by apply Qclt_not_eq in Hp. Qed.

(** On an integer [ilog2] is the binary logarithm. *)
Lemma ilog2_Z z : z ≠ 0 → ilog2 (Qc_of_Z z) = Z.log2 (Z.abs z).
Proof.
  intros Hz. unfold ilog2. simpl. rewrite Z.sub_0_r.
  rewrite bool_decide_eq_true_2; [done|].
  rewrite pow2_nonneg by apply Z.log2_nonneg.
  rewrite Qcabs_of_Z. apply (proj1 (Z2Qc_inj_le _ _)).
  apply Z.log2_spec. lia.
Qed.

(** A number on the grid of its own magnitude, below the largest float,
    rounds to itself. *)
Lemma round64_grid x m :
  x = (Qc_of_Z m * pow2 (ulp_exponent x))%Qc →
  (Qcabs.Qcabs x < pow2 1024)%Qc →
  round64 x = Fin x.
Proof.
  intros Hx Hlt. unfold round64.
  destruct (bool_decide (x = 0%Qc)) eqn:E0; [by apply bool_decide_eq_true in E0 as ->|].
  assert ((x / pow2 (ulp_exponent x))%Qc = Qc_of_Z m) as ->.
  { rewrite Hx at 1. field. apply pow2_neq_0. }
  rewrite py_round_Z, <- Hx.
  rewrite bool_decide_eq_false_2; [done|]. by apply Qclt_not_le.
Qed.

(** Integers up to [2^53] in magnitude are floats. *)
Lemma round64_Z z : Z.abs z ≤ 2 ^ 53 → round64 (Qc_of_Z z) = Fin (Qc_of_Z z).
Proof.
  intros Hz. destruct (decide (z = 0)) as [->|Hne].
  { rewrite Z2Qc_inj_0. unfold round64. by rewrite bool_decide_eq_true_2. }
  assert (Hlog : 0 ≤ Z.log2 (Z.abs z) ≤ 53).
  { split; [apply Z.log2_nonneg|]. change 53 with (Z.log2 (2 ^ 53)). by apply Z.log2_le_mono. }
  assert (He : ulp_exponent (Qc_of_Z z) = Z.log2 (Z.abs z) - 52).
  { unfold ulp_exponent. rewrite ilog2_Z by done. lia. }
  assert (Hbound : (Qcabs.Qcabs (Qc_of_Z z) < pow2 1024)%Qc).
  { rewrite Qcabs_of_Z, pow2_nonneg by done. apply (proj1 (Z2Qc_inj_lt _ _)).
    eapply Z.le_lt_trans; [exact Hz|]. by apply Z.pow_lt_mono_r. }
  destruct (decide (Z.log2 (Z.abs z) ≤ 52)) as [Hsmall|Hbig].
  - apply (round64_grid _ (z * 2 ^ (52 - Z.log2 (Z.abs z)))); [|done].
    rewrite He, pow2_nonpos, Z2Qc_inj_mul by lia.
    replace (- (Z.log2 (Z.abs z) - 52)) with (52 - Z.log2 (Z.abs z)) by lia.
    field. apply Qc_of_Z_neq_0, Z.pow_nonzero; lia.
  - assert (Hl : Z.log2 (Z.abs z) = 53) by lia.
    assert (Habs : Z.abs z = 2 ^ 53).
    { apply Z.le_antisymm; [done|]. rewrite <- Hl. apply Z.log2_spec. lia. }
    apply (round64_grid _ (z / 2)); [|done].
    rewrite He, Hl. change (pow2 (53 - 52)) with (Qc_of_Z 2).
    rewrite <- Z2Qc_inj_mul. f_equal.
    destruct (Z.abs_eq_or_opp z) as [H|H]; rewrite H in Habs.
    + by rewrite Habs.
    + replace z with (- 2 ^ 53) by lia. done.
Qed.

Lemma float_of_int_exact z :
  Z.abs z ≤ 2 ^ 53 → float_of_int z = Ok (Fin (Qc_of_Z z)).
Proof. intros H. unfold float_of_int. by rewrite round64_Z. Qed.

Lemma float_add_Z a b :
  Z.abs (a + b) ≤ 2 ^ 53 →
  float_add (Fin (Qc_of_Z a)) (Fin (Qc_of_Z b)) = Fin (Qc_of_Z (a + b)).
Proof. intros H. simpl. by rewrite <- Z2Qc_inj_add, round64_Z. Qed.

Lemma float_sub_Z a b :
  Z.abs (a - b) ≤ 2 ^ 53 →
  float_sub (Fin (Qc_of_Z a)) (Fin (Qc_of_Z b)) = Fin (Qc_of_Z (a - b)).
Proof.
  intros H. unfold float_sub. simpl.
  rewrite <- Z2Qc_inj_opp, <- Z2Qc_inj_add. by rewrite round64_Z.
Qed.

Lemma float_mul_Z a b :
  Z.abs (a * b) ≤ 2 ^ 53 →
  float_mul (Fin (Qc_of_Z a)) (Fin (Qc_of_Z b)) = Fin (Qc_of_Z (a * b)).
Proof. intros H. simpl. by rewrite <- Z2Qc_inj_mul, round64_Z. Qed.

Lemma float_mul_1_Z a :
  Z.abs a ≤ 2 ^ 53 → float_mul (Fin (Qc_of_Z a)) (Fin 1%Qc) = Fin (Qc_of_Z a).
Proof. intros H. simpl. by rewrite Qcmult_1_r, round64_Z. Qed.

Lemma float_quot_self_Z a :
  a ≠ 0 → float_quot (Fin (Qc_of_Z a)) (Fin (Qc_of_Z a)) = Fin 1%Qc.
Proof.
  intros H. simpl.
  replace (Qc_of_Z a / Qc_of_Z a)%Qc with (Qc_of_Z 1).
  - by rewrite round64_Z, Z2Qc_inj_1.
  - rewrite Z2Qc_inj_1. field. by apply Qc_of_Z_neq_0.
Qed.

Lemma float_eq_1_0 : float_eq (Fin 1%Qc) (Fin 0%Qc) = false.
Proof. reflexivity. Qed.


(** Two floats are the same when they denote the same rational. *)
Lemma Fin_eq (p q : Qc) : Qeq_bool p q = true → Fin p = Fin q.
Proof. intros H. f_equal. apply Qc_is_canon. by apply Qeq_bool_eq. Qed.

Lemma Fin_neq (p q : Qc) : Qeq_bool p q = false → Fin p ≠ Fin q.
Proof.
  intros H [= ->]. pose proof (Qeq_bool_refl q) as H'. congruence.
Qed.

(** The operations of the model give the floats that the Standard
    Library's specification of IEEE 754 arithmetic gives, on examples that
    round (a tenth, its sum, product and quotient with a fifth), that are
    ties ([2^53 + 1], [2^53 + 3]), that overflow or just do not
    ([2^1024 - 2^970] and the integer before), and that are subnormal
    ([3 * 2^-1075]). *)
Example round64_as_specified :
  let tenth := SpecFloat.SFdiv 53 1024 (sf_of_Z 1) (sf_of_Z 10) in
  let fifth := SpecFloat.SFdiv 53 1024 (sf_of_Z 2) (sf_of_Z 10) in
  let tenth' := float_quot (Fin (Qc_of_Z 1)) (Fin (Qc_of_Z 10)) in
  let fifth' := float_quot (Fin (Qc_of_Z 2)) (Fin (Qc_of_Z 10)) in
  let tiny := SpecFloat.SFdiv 53 1024 (sf_of_Z 3) (sf_of_Z (2 ^ 1023)) in
  let tiny' := float_quot (Fin (Qc_of_Z 3)) (Fin (Qc_of_Z (2 ^ 1023))) in
  float_same (sf_value tenth) tenth' = true
  ∧ float_same (sf_value (SpecFloat.SFadd 53 1024 tenth fifth)) (float_add tenth' fifth') = true
  ∧ float_same (sf_value (SpecFloat.SFmul 53 1024 tenth fifth)) (float_mul tenth' fifth') = true
  ∧ float_same (sf_value (SpecFloat.SFdiv 53 1024 tenth fifth)) (float_quot tenth' fifth') = true
  ∧ float_same (sf_value (sf_of_Z (2 ^ 53 + 1))) (round64 (Qc_of_Z (2 ^ 53 + 1))) = true
  ∧ float_same (sf_value (sf_of_Z (2 ^ 53 + 3))) (round64 (Qc_of_Z (2 ^ 53 + 3))) = true
  ∧ float_same (sf_value (sf_of_Z (2 ^ 1024 - 2 ^ 970)))
      (round64 (Qc_of_Z (2 ^ 1024 - 2 ^ 970))) = true
  ∧ round64 (Qc_of_Z (2 ^ 1024 - 2 ^ 970)) = PosInf
  ∧ float_same (sf_value (sf_of_Z (2 ^ 1024 - 2 ^ 970 - 1)))
      (round64 (Qc_of_Z (2 ^ 1024 - 2 ^ 970 - 1))) = true
  ∧ float_same (sf_value (SpecFloat.SFdiv 53 1024 tiny (sf_of_Z (2 ^ 52))))
      (float_quot tiny' (Fin (Qc_of_Z (2 ^ 52)))) = true.
Proof. by vm_compute. Qed.

(** ** Rounding to a float *)

Lemma py_round_ge_floor (x : Qc) : Qfloor x ≤ py_round x.
Proof. unfold py_round. destruct (_ ?= _)%Qc; [destruct (Z.even _)|..]; lia. Qed.

Lemma py_round_le_floor_S (x : Qc) : py_round x ≤ Qfloor x + 1.
Proof. unfold py_round. destruct (_ ?= _)%Qc; [destruct (Z.even _)|..]; lia. Qed.

Lemma py_round_ge_int (x : Qc) N : (Qc_of_Z N ≤ x)%Qc → N ≤ py_round x.
Proof.
  intros Hx. etrans; [|apply py_round_ge_floor].
  rewrite <- (Qfloor_Z N). by apply Qfloor_resp_le.
Qed.

Lemma py_round_le_int (x : Qc) N : (x ≤ Qc_of_Z N)%Qc → py_round x ≤ N.
Proof.
  intros Hx.
  assert (Hf : Qfloor x ≤ N).
  { rewrite <- (Qfloor_Z N). by apply Qfloor_resp_le. }
  destruct (decide (Qfloor x = N)) as [Heq|Hne].
  - unfold py_round. rewrite Heq.
    assert (x - Qc_of_Z N < Q2Qc (1 # 2))%Qc as ->%Qclt_alt; [|done].
    apply Qcle_lt_trans with 0%Qc; [|done].
    apply Qcle_minus_iff. apply Qcle_minus_iff in Hx.
    by replace (0 + - (x - Qc_of_Z N))%Qc with (Qc_of_Z N + - x)%Qc by ring.
  - pose proof (py_round_le_floor_S x). lia.
Qed.

Lemma Qcabs_le_iff (x y : Qc) : (Qcabs.Qcabs x ≤ y ↔ - y ≤ x ∧ x ≤ y)%Qc.
Proof. apply Qcabs.Qcabs_Qcle_condition. Qed.

Lemma py_round_abs_le (x : Qc) N :
  (Qcabs.Qcabs x ≤ Qc_of_Z N)%Qc → Z.abs (py_round x) ≤ N.
Proof.
  intros [Hlo Hhi]%Qcabs_le_iff. rewrite <- Z2Qc_inj_opp in Hlo.
  apply py_round_ge_int in Hlo. apply py_round_le_int in Hhi. lia.
Qed.

Lemma pow2_0 : pow2 0 = 1%Qc.
Proof. by apply Qc_is_canon. Qed.

Lemma pow2_succ e : pow2 (e + 1) = (Qc_of_Z 2 * pow2 e)%Qc.
Proof.
  destruct (Z_lt_le_dec e 0) as [Hneg|Hpos].
  - destruct (decide (e = -1)) as [->|Hne]; [by apply Qc_is_canon|].
    rewrite !pow2_nonpos by lia.
    replace (- e) with (- (e + 1) + 1) by lia.
    rewrite Z.pow_add_r, Z2Qc_inj_mul by lia.
    change (Qc_of_Z (2 ^ 1)) with (Qc_of_Z 2). field.
    split; [done|]. apply Qc_of_Z_neq_0, Z.pow_nonzero; lia.
  - rewrite !pow2_nonneg by lia. rewrite Z.pow_add_r, Z2Qc_inj_mul by lia.
    change (Qc_of_Z (2 ^ 1)) with (Qc_of_Z 2). ring.
Qed.

Lemma pow2_add a b : pow2 (a + b) = (pow2 a * pow2 b)%Qc.
Proof.
  assert (Hpos : ∀ a b, 0 ≤ b → pow2 (a + b) = (pow2 a * pow2 b)%Qc).
  { clear a b. intros a b Hb. revert b Hb. apply natlike_ind.
    - rewrite Z.add_0_r, pow2_0. ring.
    - intros b Hb IH. replace (a + Z.succ b) with (a + b + 1) by lia.
      replace (Z.succ b) with (b + 1) by lia.
      rewrite !pow2_succ, IH. ring. }
  destruct (Z_lt_le_dec b 0) as [Hneg|Hb]; [|by apply Hpos].
  assert (Hinv : (pow2 b * pow2 (- b))%Qc = 1%Qc).
  { rewrite <- Hpos by lia. replace (b + - b) with 0 by lia. apply pow2_0. }
  rewrite <- (Qcmult_1_r (pow2 (a + b))), <- Hinv.
  replace (pow2 a) with (pow2 (a + b + - b)) by (f_equal; lia).
  rewrite (Hpos (a + b) (- b)) by lia. ring.
Qed.

Lemma pow2_ge_1 c : 0 ≤ c → (1 ≤ pow2 c)%Qc.
Proof.
  intros Hc. rewrite pow2_nonneg by done. rewrite <- Z2Qc_inj_1.
  apply (proj1 (Z2Qc_inj_le _ _)).
  pose proof (Z.pow_pos_nonneg 2 c). lia.
Qed.

Lemma pow2_le a b : a ≤ b → (pow2 a ≤ pow2 b)%Qc.
Proof.
  intros Hab. replace b with (a + (b - a)) by lia. rewrite pow2_add.
  rewrite <- (Qcmult_1_r (pow2 a)) at 1.
  rewrite !(Qcmult_comm (pow2 a)).
  apply Qcmult_le_compat_r; [apply pow2_ge_1; lia | apply Qclt_le_weak, pow2_pos].
Qed.

Lemma pow2_lt a b : a < b → (pow2 a < pow2 b)%Qc.
Proof.
  intros Hab. apply Qcle_lt_trans with (pow2 (b - 1)); [apply pow2_le; lia|].
  replace b with (b - 1 + 1) at 2 by lia. rewrite pow2_succ.
  rewrite <- (Qcmult_1_l (pow2 (b - 1))) at 1.
  apply Qcmult_lt_compat_r; [apply pow2_pos | done].
Qed.

Lemma Qcabs_fraction (x : Qc) :
  (Qcabs.Qcabs x * Qc_of_Z (Zpos (Qden x)))%Qc = Qc_of_Z (Z.abs (Qnum x)).
Proof.
  apply Qc_is_canon. destruct x as [[n d] Hc]. simpl.
  rewrite Qred_correct. unfold Qeq. simpl. lia.
Qed.

Lemma Qcabs_nonneg (x : Qc) : (0 ≤ Qcabs.Qcabs x)%Qc.
Proof. apply Qcabs.Qcabs_nonneg. Qed.

(** [ilog2] is the binary logarithm, rounded down. *)
Lemma ilog2_spec (x : Qc) :
  x ≠ 0%Qc → (pow2 (ilog2 x) ≤ Qcabs.Qcabs x ∧ Qcabs.Qcabs x < pow2 (ilog2 x + 1))%Qc.
Proof.
  intros Hx. unfold ilog2.
  set (n := Z.abs (Qnum x)). set (d := Zpos (Qden x)).
  assert (Hn : 0 < n).
  { unfold n. destruct (decide (Qnum x = 0)) as [H0|]; [|lia].
    exfalso. apply Hx, Qc_is_canon. destruct x as [[q r] Hc]. simpl in *. subst q. done. }
  assert (Hd : 0 < d) by done.
  pose proof (Z.log2_spec n Hn) as [Hn1 Hn2]. pose proof (Z.log2_spec d Hd) as [Hd1 Hd2].
  pose proof (Z.log2_nonneg n) as Han. pose proof (Z.log2_nonneg d) as Hbn.
  pose proof (Qcabs_fraction x) as Hfrac. fold n d in Hfrac.
  set (a := Z.log2 n) in *. set (b := Z.log2 d) in *.
  assert (Hlow : (pow2 (a - b - 1) ≤ Qcabs.Qcabs x)%Qc).
  { apply Qcnot_lt_le. intros Hlt.
    assert (Habs : (Qcabs.Qcabs x * Qc_of_Z d < pow2 (a - b - 1) * pow2 (b + 1))%Qc).
    { apply Qcle_lt_trans with (Qcabs.Qcabs x * pow2 (b + 1))%Qc.
      - rewrite !(Qcmult_comm (Qcabs.Qcabs x)).
        apply Qcmult_le_compat_r; [|apply Qcabs_nonneg].
        rewrite pow2_nonneg by lia. apply (proj1 (Z2Qc_inj_le _ _)). unfold Z.succ in Hd2. lia.
      - apply Qcmult_lt_compat_r; [apply pow2_pos | done]. }
    rewrite Hfrac, <- pow2_add in Habs. replace (a - b - 1 + (b + 1)) with a in Habs by lia.
    rewrite pow2_nonneg in Habs by done. apply Qclt_not_le in Habs. apply Habs.
    by apply (proj1 (Z2Qc_inj_le _ _)). }
  assert (Hhigh : (Qcabs.Qcabs x < pow2 (a - b + 1))%Qc).
  { apply Qcnot_le_lt. intros Hle.
    assert (Habs : (pow2 (a - b + 1) * pow2 b ≤ Qcabs.Qcabs x * Qc_of_Z d)%Qc).
    { apply Qcle_trans with (Qcabs.Qcabs x * pow2 b)%Qc.
      - apply Qcmult_le_compat_r; [done | apply Qclt_le_weak, pow2_pos].
      - rewrite !(Qcmult_comm (Qcabs.Qcabs x)).
        apply Qcmult_le_compat_r; [|apply Qcabs_nonneg].
        rewrite pow2_nonneg by lia. by apply (proj1 (Z2Qc_inj_le _ _)). }
    rewrite Hfrac, <- pow2_add in Habs. replace (a - b + 1 + b) with (Z.succ a) in Habs by lia.
    rewrite pow2_nonneg in Habs by lia. apply Qcle_not_lt in Habs. apply Habs.
    by apply (proj1 (Z2Qc_inj_lt _ _)). }
  destruct (bool_decide (pow2 (a - b) ≤ Qcabs.Qcabs x)%Qc) eqn:E.
  - apply bool_decide_eq_true in E. by split.
  - apply bool_decide_eq_false in E. apply Qcnot_le_lt in E.
    split; [done|]. by replace (a - b - 1 + 1) with (a - b) by lia.
Qed.

(** The binary logarithm is the only integer with these bounds. *)
Lemma ilog2_unique (x : Qc) k :
  (pow2 k ≤ Qcabs.Qcabs x)%Qc → (Qcabs.Qcabs x < pow2 (k + 1))%Qc → ilog2 x = k.
Proof.
  intros Hlo Hhi.
  assert (Hx : x ≠ 0%Qc).
  { intros ->. apply Qcle_not_lt in Hlo. apply Hlo, pow2_pos. }
  destruct (ilog2_spec x Hx) as [Hlo' Hhi'].
  assert (H1 : k < ilog2 x + 1).
  { destruct (Z_lt_le_dec k (ilog2 x + 1)) as [|Hge]; [done|].
    apply pow2_le in Hge. exfalso. eapply Qclt_not_le; [exact Hhi'|]. by etrans. }
  assert (H2 : ilog2 x < k + 1).
  { destruct (Z_lt_le_dec (ilog2 x) (k + 1)) as [|Hge]; [done|].
    apply pow2_le in Hge. exfalso. eapply Qclt_not_le; [exact Hhi|]. by etrans. }
  lia.
Qed.

Lemma Qcabs_scaled m e :
  Qcabs.Qcabs (Qc_of_Z m * pow2 e) = (Qc_of_Z (Z.abs m) * pow2 e)%Qc.
Proof.
  rewrite Qcabs.Qcabs_Qcmult, Qcabs_of_Z. f_equal.
  apply Qcabs.Qcabs_pos, Qclt_le_weak, pow2_pos.
Qed.

Lemma Qcabs_div_pow2 (x : Qc) e :
  Qcabs.Qcabs (x / pow2 e) = (Qcabs.Qcabs x / pow2 e)%Qc.
Proof.
  unfold Qcdiv. rewrite Qcabs.Qcabs_Qcmult. f_equal.
  apply Qcabs.Qcabs_pos, Qclt_le_weak, Qcinv_pos, pow2_pos.
Qed.

Lemma Qc_scaled_div z e : (Qc_of_Z z * pow2 e / pow2 e)%Qc = Qc_of_Z z.
Proof. field. apply pow2_neq_0. Qed.

Lemma Qcdiv_le_compat (x y : Qc) e : (x ≤ y → x / pow2 e ≤ y / pow2 e)%Qc.
Proof.
  intros H. unfold Qcdiv. apply Qcmult_le_compat_r; [done|].
  apply Qclt_le_weak, Qcinv_pos, pow2_pos.
Qed.

Lemma py_round_scaled_le (x : Qc) e N :
  (Qcabs.Qcabs x ≤ Qc_of_Z N * pow2 e)%Qc → Z.abs (py_round (x / pow2 e)) ≤ N.
Proof.
  intros H. apply py_round_abs_le. rewrite Qcabs_div_pow2.
  rewrite <- (Qc_scaled_div N e). by apply Qcdiv_le_compat.
Qed.

Lemma py_round_abs_ge (x : Qc) N :
  (Qc_of_Z N ≤ Qcabs.Qcabs x)%Qc → N ≤ Z.abs (py_round x).
Proof.
  intros H. destruct (Qclt_le_dec x 0) as [Hneg|Hpos].
  - rewrite Qcabs.Qcabs_neg in H by by apply Qclt_le_weak.
    apply Qcopp_le_compat in H. rewrite Qcopp_involutive, <- Z2Qc_inj_opp in H.
    apply py_round_le_int in H. lia.
  - rewrite Qcabs.Qcabs_pos in H by done. apply py_round_ge_int in H. lia.
Qed.

Lemma py_round_scaled_ge (x : Qc) e N :
  (Qc_of_Z N * pow2 e ≤ Qcabs.Qcabs x)%Qc → N ≤ Z.abs (py_round (x / pow2 e)).
Proof.
  intros H. apply py_round_abs_ge. rewrite Qcabs_div_pow2.
  rewrite <- (Qc_scaled_div N e). by apply Qcdiv_le_compat.
Qed.

Lemma pow2_split a b : 0 ≤ a → pow2 (a + b) = (Qc_of_Z (2 ^ a) * pow2 b)%Qc.
Proof. intros Ha. by rewrite pow2_add, pow2_nonneg. Qed.

(** The significand of a rounded number has at most 53 bits, and exactly
    53 above the subnormal numbers. *)
Lemma round64_significand (x : Qc) :
  x ≠ 0%Qc →
  Z.abs (py_round (x / pow2 (ulp_exponent x))) ≤ 2 ^ 53
  ∧ (-1074 ≤ ilog2 x - 52 → 2 ^ 52 ≤ Z.abs (py_round (x / pow2 (ulp_exponent x)))).
Proof.
  intros Hx. destruct (ilog2_spec x Hx) as [Hlo Hhi]. split.
  - apply py_round_scaled_le. rewrite <- pow2_split by done.
    apply Qclt_le_weak. eapply Qclt_le_trans; [exact Hhi|].
    apply pow2_le. unfold ulp_exponent. lia.
  - intros Hnormal. apply py_round_scaled_ge. rewrite <- pow2_split by done.
    replace (52 + ulp_exponent x) with (ilog2 x); [done|]. unfold ulp_exponent. lia.
Qed.

(** Every finite float is within the largest one. *)
Lemma round64_bounded (x y : Qc) :
  round64 x = Fin y → (Qcabs.Qcabs y ≤ max_float)%Qc.
Proof.
  unfold round64. destruct (bool_decide (x = 0%Qc)) eqn:E0.
  { by intros [= <-]. }
  apply bool_decide_eq_false in E0.
  destruct (round64_significand x E0) as [Hup Hlow].
  set (e := ulp_exponent x) in *. set (m := py_round (x / pow2 e)) in *.
  destruct (bool_decide (pow2 1024 ≤ _)%Qc) eqn:E; [by destruct (bool_decide (0 < x)%Qc)|].
  apply bool_decide_eq_false in E. apply Qcnot_le_lt in E.
  intros [= <-]. rewrite Qcabs_scaled in *.
  assert (He : e ≤ 971).
  { destruct (Z_lt_le_dec 971 e) as [Hbig|]; [|lia]. exfalso.
    assert (2 ^ 52 ≤ Z.abs m) as Hm by (apply Hlow; unfold e, ulp_exponent in *; lia).
    apply Qclt_not_le in E. apply E.
    replace 1024 with (52 + 972) by done. rewrite pow2_split by done.
    apply Qcle_trans with (Qc_of_Z (2 ^ 52) * pow2 e)%Qc.
    - rewrite !(Qcmult_comm (Qc_of_Z (2 ^ 52))).
      apply Qcmult_le_compat_r; [apply pow2_le; lia|].
      by apply (proj1 (Z2Qc_inj_le _ _)).
    - apply Qcmult_le_compat_r; [by apply (proj1 (Z2Qc_inj_le _ _)) |
                                 apply Qclt_le_weak, pow2_pos]. }
  unfold max_float.
  destruct (decide (e = 971)) as [He'|Hne].
  - rewrite He' in *. apply Qcmult_le_compat_r; [|apply Qclt_le_weak, pow2_pos].
    apply (proj1 (Z2Qc_inj_le _ _)).
    assert (Z.abs m < 2 ^ 53); [|lia].
    destruct (Z_lt_le_dec (Z.abs m) (2 ^ 53)) as [|Hge]; [done|]. exfalso.
    apply Qclt_not_le in E. apply E.
    replace 1024 with (53 + 971) by done. rewrite pow2_split by done.
    apply Qcmult_le_compat_r; [by apply (proj1 (Z2Qc_inj_le _ _)) |
                               apply Qclt_le_weak, pow2_pos].
  - apply Qcle_trans with (Qc_of_Z (2 ^ 53) * pow2 e)%Qc.
    { apply Qcmult_le_compat_r; [by apply (proj1 (Z2Qc_inj_le _ _)) |
                                 apply Qclt_le_weak, pow2_pos]. }
    rewrite <- pow2_split by done.
    apply Qcle_trans with (pow2 1023); [apply pow2_le; lia|].
    replace 1023 with (52 + 971) by done. rewrite pow2_split by done.
    apply Qcmult_le_compat_r; [|apply Qclt_le_weak, pow2_pos].
    by apply (proj1 (Z2Qc_inj_le _ _)).
Qed.

(** A number within the largest float rounds to a float. *)
Lemma round64_finite (x : Qc) :
  (Qcabs.Qcabs x ≤ max_float)%Qc → ∃ y, round64 x = Fin y.
Proof.
  intros Hx. unfold round64. destruct (bool_decide (x = 0%Qc)) eqn:E0; [by eexists|].
  apply bool_decide_eq_false in E0.
  destruct (ilog2_spec x E0) as [Hlo Hhi].
  set (e := ulp_exponent x) in *. set (m := py_round (x / pow2 e)) in *.
  assert (Hmax : (max_float < pow2 1024)%Qc).
  { unfold max_float. replace 1024 with (53 + 971) by done. rewrite pow2_split by done.
    apply Qcmult_lt_compat_r; [apply pow2_pos|]. by apply (proj1 (Z2Qc_inj_lt _ _)). }
  assert (He : e ≤ 971).
  { assert (ilog2 x < 1024); [|unfold e, ulp_exponent; lia].
    destruct (Z_lt_le_dec (ilog2 x) 1024) as [|Hbig]; [done|]. exfalso.
    apply pow2_le in Hbig. eapply Qclt_not_le; [exact Hmax|]. by repeat (etrans; [eassumption|]). }
  assert (Hm : Z.abs m ≤ (2 ^ 53 - 1) * 2 ^ (971 - e)).
  { apply py_round_scaled_le. etrans; [exact Hx|]. unfold max_float.
    rewrite Z2Qc_inj_mul, <- Qcmult_assoc, <- pow2_nonneg, <- pow2_add by lia.
    by replace (971 - e + e) with 971 by lia. }
  rewrite bool_decide_eq_false_2; [by eexists|].
  apply Qclt_not_le. eapply Qcle_lt_trans; [|exact Hmax].
  rewrite Qcabs_scaled. unfold max_float.
  replace 971 with (971 - e + e) at 1 by lia. rewrite pow2_add, Qcmult_assoc.
  apply Qcmult_le_compat_r; [|apply Qclt_le_weak, pow2_pos].
  rewrite pow2_nonneg, <- Z2Qc_inj_mul by lia. by apply (proj1 (Z2Qc_inj_le _ _)).
Qed.

Lemma round64_0 : round64 0%Qc = Fin 0%Qc.
Proof. unfold round64. by rewrite bool_decide_eq_true_2. Qed.

Lemma float_mul_0_l (q : Qc) : float_mul (Fin 0%Qc) (Fin q) = Fin 0%Qc.
Proof. simpl. rewrite Qcmult_0_l. apply round64_0. Qed.

Lemma float_quot_0_l (q : Qc) : float_quot (Fin 0%Qc) (Fin q) = Fin 0%Qc.
Proof. simpl. unfold Qcdiv. rewrite Qcmult_0_l. apply round64_0. Qed.

Lemma float_add_0_l (q : Qc) : round64 q = Fin q → float_add (Fin 0%Qc) (Fin q) = Fin q.
Proof. intros H. simpl. by rewrite Qcplus_0_l. Qed.

Lemma float_mul_1_r (q : Qc) : round64 q = Fin q → float_mul (Fin q) (Fin 1%Qc) = Fin q.
Proof. intros H. simpl. by rewrite Qcmult_1_r. Qed.

(** A float divided by a number that is at least 1 is a float. *)
Lemma float_quot_finite (x d v : Qc) :
  round64 x = Fin d → (1 ≤ v)%Qc → ∃ q, float_quot (Fin d) (Fin v) = Fin q.
Proof.
  intros Hd Hv. simpl. apply round64_finite.
  apply round64_bounded in Hd. etrans; [|exact Hd].
  assert (Hpos : (0 < v)%Qc) by (by apply Qclt_le_trans with 1%Qc).
  unfold Qcdiv. rewrite Qcabs.Qcabs_Qcmult.
  rewrite (Qcabs.Qcabs_pos (/ v)) by by apply Qclt_le_weak, Qcinv_pos.
  apply Qcmult_lt_0_le_reg_r with v; [done|].
  assert (Hne : v ≠ 0%Qc) by (intros ->; by apply Qclt_not_eq in Hpos).
  rewrite <- Qcmult_assoc, (Qcmult_comm (/ v)), Qcmult_inv_r by done.
  rewrite Qcmult_1_r. rewrite <- (Qcmult_1_r (Qcabs.Qcabs d)) at 1.
  rewrite !(Qcmult_comm (Qcabs.Qcabs d)).
  apply Qcmult_le_compat_r; [done | apply Qcabs_nonneg].
Qed.

Lemma to_float_exact a q : held_exactly a q → to_float a = Ok (Fin q).
Proof.
  intros [Hv Hq]. destruct a as [z|[p| | |]]; simpl in Hv; try done.
  - injection Hv as <-. simpl. unfold float_of_int. by rewrite Hq.
  - by injection Hv as <-.
Qed.

Lemma number_mul_float_exact a q :
  held_exactly a q → number_mul_float a (Fin 1%Qc) = Ok (Fin q).
Proof.
  intros H. unfold number_mul_float. rewrite (to_float_exact _ _ H), res_bind_Ok.
  destruct H as [_ H]. by rewrite float_mul_1_r.
Qed.

(** When the number of points has been computed, the distance between the
    ends is a finite float. *)
Lemma number_of_points_span start stop step s t num :
  held_exactly start s → held_exactly stop t →
  number_of_points start stop step = Ok num →
  ∃ d, float_sub (Fin t) (Fin s) = Fin d.
Proof.
  intros Hs Ht. pose proof (to_float_exact _ _ Hs) as Hfs.
  pose proof (to_float_exact _ _ Ht) as Hft.
  unfold number_of_points.
  assert (Hfloat : ∀ f,
    (to_float step ≫= λ step, number_div_float (PFloat f) step ≫= λ quotient,
       round_float quotient ≫= λ n, Ok (n + 1)) = Ok num → ∃ d, f = Fin d).
  { intros f. destruct (to_float step) as [p|e]; [|done]. rewrite res_bind_Ok.
    unfold number_div_float, to_float. rewrite res_bind_Ok.
    destruct (float_eq p (Fin 0%Qc)); [done|]. rewrite res_bind_Ok.
    destruct f as [d| | |]; [by eexists|..]; destruct p as [q| | |]; cbn [float_quot];
      try done; unfold float_inf; by repeat case_match. }
  destruct start as [i|fs], stop as [j|ft].
  - destruct Hs as [[= <-] _], Ht as [[= <-] _].
    unfold number_sub. rewrite res_bind_Ok.
    destruct (to_float step) as [p|e]; [|done]. rewrite res_bind_Ok.
    unfold number_div_float, to_float, float_of_int.
    unfold float_sub, float_opp, float_add. rewrite <- Z2Qc_inj_opp, <- Z2Qc_inj_add.
    replace (j + - i) with (j - i) by lia.
    destruct (round64 (Qc_of_Z (j - i))) as [d| | |]; [by eexists|done..].
  - simpl in Hft. injection Hft as ->. unfold number_sub. rewrite Hfs.
    cbn [to_float]. rewrite !res_bind_Ok. apply Hfloat.
  - simpl in Hfs. injection Hfs as ->. unfold number_sub. rewrite Hft.
    cbn [to_float]. rewrite !res_bind_Ok. apply Hfloat.
  - simpl in Hfs, Hft. injection Hfs as ->. injection Hft as ->. unfold number_sub.
    cbn [to_float]. rewrite !res_bind_Ok. apply Hfloat.
Qed.
(** ** [inclusiverange] *)

(** The samples between two integers that are floats, with as many
    samples as integers. *)
Lemma np_linspace_integers i j :
  - 2 ^ 53 ≤ i → i ≤ j → j ≤ 2 ^ 53 → j - i ≤ 2 ^ 53 →
  np_linspace (PInt i) (PInt j) (j - i + 1) = Ok (Fin ∘ Qc_of_Z <$> seqZ i (j - i + 1)).
Proof.
  intros Hi Hle Hj Hspan. unfold np_linspace.
  destruct (j - i + 1 <? 0) eqn:Eneg; [apply Z.ltb_lt in Eneg; lia|].
  unfold number_mul_float, to_float.
  rewrite !float_of_int_exact by lia. simpl.
  rewrite !Qcmult_1_r, !round64_Z by lia.
  f_equal. replace (j - i + 1 - 1) with (j - i) by lia.
  change (round64 (Qc_of_Z j + - Qc_of_Z i)) with (float_sub (Fin (Qc_of_Z j)) (Fin (Qc_of_Z i))).
  rewrite float_sub_Z by lia.
  assert (Hsamples :
    map (λ t, float_add t (Fin (Qc_of_Z i)))
      (if 1 <? j - i + 1
       then
         (if float_eq (float_quot (Fin (Qc_of_Z (j - i))) (Fin (Qc_of_Z (j - i)))) (Fin 0%Qc)
          then map (λ t, float_mul (float_quot t (Fin (Qc_of_Z (j - i)))) (Fin (Qc_of_Z (j - i))))
                 (map (λ k, round64 (Qc_of_Z (Z.of_nat k))) (seq 0 (Z.to_nat (j - i + 1))))
          else map (λ t, float_mul t (float_quot (Fin (Qc_of_Z (j - i))) (Fin (Qc_of_Z (j - i)))))
                 (map (λ k, round64 (Qc_of_Z (Z.of_nat k))) (seq 0 (Z.to_nat (j - i + 1)))))
       else map (λ t, float_mul t (Fin (Qc_of_Z (j - i))))
              (map (λ k, round64 (Qc_of_Z (Z.of_nat k))) (seq 0 (Z.to_nat (j - i + 1)))))
    = Fin ∘ Qc_of_Z <$> seqZ i (j - i + 1)).
  { unfold seqZ. rewrite <- list_fmap_compose.
    destruct (1 <? j - i + 1) eqn:Ediv.
    - apply Z.ltb_lt in Ediv. rewrite float_quot_self_Z by lia.
      rewrite float_eq_1_0.
      rewrite !map_map. apply map_ext_in. intros k Hk%in_seq. simpl.
      rewrite round64_Z by lia. rewrite float_mul_1_Z by lia.
      by rewrite float_add_Z by lia.
    - apply Z.ltb_ge in Ediv. replace (j - i) with 0 by lia.
      rewrite !map_map. apply map_ext_in. intros k Hk%in_seq. simpl.
      replace k with 0%nat by lia. change (Z.of_nat 0) with 0.
      rewrite round64_Z by lia.
      rewrite float_mul_Z by done. by rewrite float_add_Z by lia. }
  rewrite Hsamples.
  destruct (1 <? j - i + 1) eqn:Emany; [|done].
  apply list_insert_id. rewrite list_lookup_fmap, lookup_seqZ_lt by lia.
  simpl. f_equal. f_equal. f_equal. lia.
Qed.

Lemma number_of_points_integers i j :
  Z.abs (j - i) ≤ 2 ^ 53 →
  number_of_points (PInt i) (PInt j) (PInt 1) = Ok (j - i + 1).
Proof.
  intros H. unfold number_of_points, number_div_float, number_sub, to_float.
  rewrite res_bind_Ok, (float_of_int_exact 1), res_bind_Ok by done.
  rewrite float_of_int_exact, res_bind_Ok by done.
  rewrite Z2Qc_inj_1, float_eq_1_0, res_bind_Ok.
  unfold float_quot. rewrite Qc_div_1, round64_Z by done.
  unfold round_float. by rewrite res_bind_Ok, py_round_Z.
Qed.

(** C5 (as amended).  For integers [i <= j] between [-2^53] and [2^53]
    and no more than [2^53] apart, the range from [i] to [j] with step 1
    (given or by default) is the list of the integers from [i] to [j], as
    floats: it has [j - i + 1] points, the first is [i] and the last is
    [j]. *)
Theorem inclusiverange_integers i j :
  - 2 ^ 53 ≤ i → i ≤ j → j ≤ 2 ^ 53 → j - i ≤ 2 ^ 53 →
  ∃ x, inclusiverange [Some (PInt i); Some (PInt j); Some (PInt 1)] [] = Ok x
       ∧ inclusiverange [Some (PInt i); Some (PInt j)] [] = Ok x
       ∧ x = Fin ∘ Qc_of_Z <$> seqZ i (j - i + 1)
       ∧ Z.of_nat (length x) = j - i + 1
       ∧ head x = Some (Fin (Qc_of_Z i))
       ∧ last x = Some (Fin (Qc_of_Z j)).
Proof.
  intros Hi Hle Hj Hspan. exists (Fin ∘ Qc_of_Z <$> seqZ i (j - i + 1)).
  assert (Hrun : ∀ step, default (PInt 1) step = PInt 1 →
    inclusiverange [Some (PInt i); Some (PInt j); step] []
    = Ok (Fin ∘ Qc_of_Z <$> seqZ i (j - i + 1))).
  { intros step Hstep. unfold inclusiverange. simpl. unfold kwargs_get. simpl.
    rewrite Hstep, number_of_points_integers by lia. simpl.
    by apply np_linspace_integers. }
  split; [by apply Hrun|]. split; [by apply (Hrun None)|]. split; [done|].
  split; [|split].
  - rewrite length_fmap, length_seqZ. lia.
  - rewrite head_lookup, list_lookup_fmap, lookup_seqZ_lt by lia. simpl. do 3 f_equal. lia.
  - rewrite last_lookup, length_fmap, length_seqZ, list_lookup_fmap, lookup_seqZ_lt by lia.
    simpl. do 3 f_equal. lia.
Qed.

Lemma inclusiverange_integers_witness :
  ∃ x, inclusiverange [Some (PInt 3); Some (PInt 5); Some (PInt 1)] [] = Ok x
       ∧ x = [Fin (Qc_of_Z 3); Fin (Qc_of_Z 4); Fin (Qc_of_Z 5)].
Proof.
  destruct (inclusiverange_integers 3 5) as (x & Hrun & _ & Hx & _); [done..|].
  exists x. split; [exact Hrun | exact Hx].
Defined.

(** C5 as stated fails beyond the integers that are floats: from
    [2^53 + 1] to [2^53 + 3] the three points are [2^53], [2^53 + 2] and
    [2^53 + 4], neither bound is one of them.  It also fails for bounds
    that are floats and further than [2^53] apart: from [-1] to [2^53]
    there are [2^53 + 2] integers, the distance [2^53 + 1] is rounded when
    it is divided by the step, and [2^53 + 1] points are asked of
    [numpy.linspace]. *)
Lemma inclusiverange_not_all_integers :
  (∃ x, inclusiverange [Some (PInt 9007199254740993); Some (PInt 9007199254740995)] [] = Ok x
        ∧ x = [Fin (Qc_of_Z 9007199254740992); Fin (Qc_of_Z 9007199254740994);
               Fin (Qc_of_Z 9007199254740996)]
        ∧ (Fin (Qc_of_Z 9007199254740993) ∉ x)
        ∧ (Fin (Qc_of_Z 9007199254740995) ∉ x))
  ∧ number_of_points (PInt (-1)) (PInt 9007199254740992) (PInt 1) = Ok 9007199254740993.
Proof.
  split; [|by vm_compute].
  eexists. split; [|split; [reflexivity|]].
  - vm_compute. do 2 f_equal; [|f_equal; [|f_equal]]; by apply Fin_eq.
  - split; rewrite !elem_of_cons, elem_of_nil;
      intros [H|[H|[H|[]]]]; revert H; (by apply Fin_neq).
Qed.

(** An integer beyond the floats is refused when [numpy.linspace] makes
    it a float. *)
Example inclusiverange_overflow :
  inclusiverange [Some (PInt (10 ^ 400)); Some (PInt (10 ^ 400 + 2))] []
  = Raise OverflowError.
Proof. by vm_compute. Qed.

(** C10.  A call with exactly one positional argument raises [TypeError]
    whatever the keyword arguments, before any range is built; the
    handling of zero, two and three positional arguments goes through. *)
Theorem inclusiverange_one_argument :
  (∀ a kwargs, handle_args [a] = Raise TypeError
               ∧ inclusiverange [a] kwargs = Raise TypeError)
  ∧ handle_args [] = Ok (None, None, None)
  ∧ (∀ a0 a1, handle_args [a0; a1] = Ok (a0, a1, None))
  ∧ (∀ a0 a1 a2, handle_args [a0; a1; a2] = Ok (a0, a1, a2)).
Proof. repeat split. Qed.

(** The documented call [inclusiverange(6, step=2)] is one of them. *)
Example inclusiverange_documented_call :
  inclusiverange [Some (PInt 6)] [("step", Some (PInt 2))] = Raise TypeError.
Proof. reflexivity. Qed.

(** * Further properties of the nested-dictionary functions *)

Lemma dict_store_same {A} (items : list (string * A)) k v :
  dict_lookup k items = Some v → dict_store k v items = items.
Proof.
  induction items as [|[k' v'] rest IH]; simpl; [done|].
  destruct (String.eqb k k') eqn:E; [by intros [= ->] | intros H; by rewrite IH].
Qed.



Lemma makenested_from_raise_unchanged item keys : ∀ lastkey d d' e,
  makenested_from d keys lastkey item = (d', Raise e) → d' = d.
Proof.
  induction keys as [|key rest IH]; intros lastkey d d' e; simpl.
  - destruct (setitem d lastkey item); [done | by intros [= <- _]].
  - destruct (contains d key) as [present|e0] eqn:Ec; [|by intros [= <- _]].
    destruct d as [ | |s|items]; try done.
    + simpl. destruct present; simpl; by intros [= <- _].
    + simpl in Ec. injection Ec as <-. unfold is_key.
      destruct (dict_lookup key items) as [child|] eqn:E.
      * cbn [getitem]. rewrite E.
        destruct (makenested_from child rest lastkey item) as [child' out] eqn:Em.
        cbn [setitem]. intros [= <- ->].
        apply IH in Em as ->. by rewrite (dict_store_same _ _ _ E).
      * cbn [setitem getitem]. rewrite dict_lookup_store_eq.
        destruct (makenested_from_reaches item rest lastkey (VDict [])
                    (mappings_along_empty _)) as (c' & -> & _).
        by intros [= _ ?].
Qed.

(** X3.  [makenested] fails as a whole: when it raises, for an empty key
    list or at a level that is no mapping, the dictionary is as it was; no
    level has been created on the way. *)
Theorem makenested_raise_unchanged root keylist item root' e :
  makenested root keylist item = (root', Raise e) → root' = root.
Proof.
  unfold makenested. destruct (last keylist); [|by intros [= <- _]].
  apply makenested_from_raise_unchanged.
Qed.

Lemma makenested_raise_unchanged_witness :
  (makenested (VDict [("a", VDict [("b", VInt 3)])]) ["a"; "b"; "c"; "d"] VNone).1
  = VDict [("a", VDict [("b", VInt 3)])].
Proof.
  apply (makenested_raise_unchanged _ ["a"; "b"; "c"; "d"] VNone _ TypeError).
  reflexivity.
Defined.

Lemma leaf_paths_store_same items : ∀ k (old new : value),
  dict_lookup k items = Some old →
  (if is_dict old then map (cons k) (leaf_paths old) else [[k]])
  = (if is_dict new then map (cons k) (leaf_paths new) else [[k]]) →
  leaf_paths (VDict (dict_store k new items)) = leaf_paths (VDict items).
Proof.
  induction items as [|[k' v'] rest IH]; intros k old new Hl Hc; [done|].
  simpl in Hl. cbn [dict_store]. destruct (String.eqb k k') eqn:E.
  - apply String.eqb_eq in E as <-. injection Hl as ->.
    by rewrite !leaf_paths_cons, Hc.
  - rewrite !leaf_paths_cons. f_equal. by eapply IH.
Qed.

Lemma descend_is_dict d keys old :
  descend d keys = Reached old → is_dict old = true → is_dict d = true.
Proof.
  destruct keys as [|k ks]; simpl.
  - by intros [= ->].
  - by destruct d.
Qed.

Lemma graft_is_dict d keys old new :
  descend d keys = Reached old → is_dict new = true → is_dict (graft d keys new) = true.
Proof.
  destruct keys as [|k ks]; simpl; [done|].
  destruct d as [ | | |items]; try done.
  by destruct (dict_lookup k items).
Qed.

Lemma leaf_paths_graft keys : ∀ root old new,
  descend root keys = Reached old →
  is_dict old = true → is_dict new = true →
  leaf_paths new = leaf_paths old →
  leaf_paths (graft root keys new) = leaf_paths root.
Proof.
  induction keys as [|k ks IH]; intros root old new Hr Hold Hnew Heq.
  - simpl in *. by injection Hr as ->.
  - destruct root as [ | | |items]; try done. simpl in Hr. cbn [graft].
    destruct (dict_lookup k items) as [child|] eqn:E; [|done].
    apply (leaf_paths_store_same _ _ child); [done|].
    rewrite (descend_is_dict _ _ _ Hr Hold), (graft_is_dict _ _ _ new Hr Hnew).
    by rewrite (IH _ _ _ Hr Hold Hnew Heq).
Qed.

Lemma descend_snoc_inv keys : ∀ d k leaf,
  descend d (keys ++ [k]) = Reached leaf →
  ∃ items, descend d keys = Reached (VDict items) ∧ dict_lookup k items = Some leaf.
Proof.
  induction keys as [|k0 ks IH]; intros d k leaf H.
  - destruct d as [ | | |items]; try done. simpl in H.
    destruct (dict_lookup k items) as [v|] eqn:E; [|done].
    injection H as ->. by exists items.
  - destruct d as [ | | |items]; try done. simpl in *.
    destruct (dict_lookup k0 items); [by apply IH | done].
Qed.

(** X5.  Every path that [iternested] returns can be assigned with
    [setnested]; assigning a value that is no mapping is read back by
    [getnested] and leaves the list of paths as it was (the loop of the
    module's second example). *)
Theorem iternested_paths_settable root paths p v :
  wf root = true →
  iternested root [] = Ok paths →
  p ∈ paths →
  is_dict v = false →
  ∃ root', setnested root p v = (root', Ok tt)
           ∧ (∀ safe, getnested root' p safe = Ok v)
           ∧ iternested root' [] = Ok paths.
Proof.
  intros Hwf Hit Hp Hv. destruct root as [ | | |ritems]; try done.
  unfold iternested in Hit. rewrite iternested_output_leaf_paths in Hit.
  injection Hit as <-.
  apply list_elem_of_fmap in Hp as (p' & Heq & Hp'). simpl in Heq. subst p'.
  apply (leaf_paths_reaches _ Hwf) in Hp' as (Hne & leaf & Hr & Hl).
  destruct (keylist_split p Hne) as (lastkey & _ & Hsplit).
  rewrite Hsplit in *. set (keys := removelast p) in *. clearbody keys.
  destruct (descend_snoc_inv _ _ _ _ Hr) as (items & Hkeys & Hlast).
  unfold setnested.
  rewrite removelast_last, last_snoc, (getnested_reached _ _ _ _ Hkeys). cbn [setitem].
  eexists. split; [reflexivity|].
  pose proof (descend_graft _ _ _ (VDict (dict_store lastkey v items)) Hkeys) as Hg.
  split.
  - intros safe. apply getnested_reached. rewrite (descend_app _ _ _ _ Hg). simpl.
    by rewrite dict_lookup_store_eq.
  - assert (Hsame : leaf_paths (graft (VDict ritems) keys (VDict (dict_store lastkey v items)))
                    = leaf_paths (VDict ritems)).
    { apply (leaf_paths_graft _ _ (VDict items)); [done..|].
      apply (leaf_paths_store_same _ _ leaf); [done|]. by rewrite Hl, Hv. }
    pose proof (graft_is_dict _ _ _ (VDict (dict_store lastkey v items)) Hkeys eq_refl) as Hd.
    destruct (graft (VDict ritems) keys (VDict (dict_store lastkey v items)))
      as [ | | |gitems] eqn:Eg; try done.
    unfold iternested. f_equal.
    by rewrite !iternested_output_leaf_paths, Hsame.
Qed.

Lemma iternested_paths_settable_witness :
  ∃ root',
    setnested (VDict [("a", VDict [("y", VNone); ("x", VNone)]); ("b", VDict [("a", VNone)])])
      ["a"; "x"] (VInt 2) = (root', Ok tt)
    ∧ iternested root' [] = Ok [["a"; "y"]; ["a"; "x"]; ["b"; "a"]].
Proof.
  destruct (iternested_paths_settable
              (VDict [("a", VDict [("y", VNone); ("x", VNone)]); ("b", VDict [("a", VNone)])])
              [["a"; "y"]; ["a"; "x"]; ["b"; "a"]] ["a"; "x"] (VInt 2))
    as (root' & Hset & _ & Hit); [reflexivity | reflexivity | | reflexivity |].
  - apply elem_of_cons. right. apply elem_of_cons. by left.
  - exists root'. split; [exact Hset | exact Hit].
Defined.

(** ** The nested-dictionary functions on dicts that are shared *)

(** From a value that is no dict, nothing of the heap is read. *)
Lemma getnested_no_dict (h h' : Heap.heap) safe keylist : ∀ d,
  (∀ l, d ≠ Heap.VRef l) →
  Heap.getnested h' d keylist safe = Heap.getnested h d keylist safe.
Proof.
  unfold Heap.getnested.
  induction keylist as [|k rest IH]; intros d Hd; [done|]. simpl.
  destruct d as [ |n|s|l]; [..|by destruct (Hd l)];
    unfold Heap.getnested_step; simpl;
    repeat case_match; simpl; try done; by apply IH.
Qed.

(** A path that does not go through a dict reads the same values when
    that dict has changed. *)
Lemma getnested_unvisited (h : Heap.heap) l items' safe keylist : ∀ d,
  l ∉ visited h d keylist →
  Heap.getnested (<[l:=items']> h) d keylist safe = Heap.getnested h d keylist safe.
Proof.
  induction keylist as [|k rest IH]; intros d Hl; [done|].
  destruct d as [ |n|s|l0]; [by apply getnested_no_dict..|].
  simpl in Hl. apply not_elem_of_cons in Hl as [Hne Hl].
  unfold Heap.getnested in *. cbn [reduce].
  assert (Hstep : Heap.getnested_step (<[l:=items']> h) safe (Heap.VRef l0) k
                  = Heap.getnested_step h safe (Heap.VRef l0) k).
  { unfold Heap.getnested_step, Heap.truthy, Heap.get_method, Heap.getitem.
    by rewrite lookup_insert_ne. }
  rewrite Hstep.
  destruct (Heap.getnested_step h safe (Heap.VRef l0) k) as [v|e] eqn:E; [|done].
  rewrite !res_bind_Ok.
  assert (Hv : l ∉ visited h v rest ∨ ∀ l', v ≠ Heap.VRef l'); [|destruct Hv].
  { unfold Heap.getnested_step, Heap.truthy, Heap.get_method, Heap.getitem in E.
    destruct (h !! l0) as [items|]; simpl in Hl.
    - destruct (dict_lookup k items) as [v'|];
        repeat case_match; simplify_eq; (by left) || by right.
    - by repeat case_match. }
  - by apply IH.
  - by apply (getnested_no_dict h (<[l:=items']> h) safe rest v).
Qed.

(** X2.  A successful [setnested] changes one dict of the heap, the one
    that [getnested] reaches along [keylist[:-1]], at the key
    [keylist[-1]]; a failed one changes nothing.  Afterwards [getnested]
    returns what it returned before along every path that does not go
    through that dict. *)
Theorem setnested_changes_one_dict (h : Heap.heap) root keylist v h' out :
  Heap.setnested h root keylist v = (h', out) →
  (∀ e, out = Raise e → h' = h)
  ∧ (out = Ok tt →
     ∃ l items k,
       Heap.getnested h root (removelast keylist) false = Ok (Heap.VRef l)
       ∧ last keylist = Some k
       ∧ h !! l = Some items
       ∧ h' = <[l := dict_store k v items]> h
       ∧ ∀ keylist' safe, l ∉ visited h root keylist' →
           Heap.getnested h' root keylist' safe = Heap.getnested h root keylist' safe).
Proof.
  unfold Heap.setnested.
  destruct (Heap.getnested h root (removelast keylist) false) as [target|e] eqn:Hget;
    [|by intros [= <- <-]; split].
  destruct (last keylist) as [k|] eqn:Hlast; [|by intros [= <- <-]; split].
  destruct target as [ |n|s|l]; simpl; try by intros [= <- <-]; split.
  destruct (h !! l) as [items|] eqn:Hl; [|by intros [= <- <-]; split].
  intros [= <- <-]. split; [done|]. intros _.
  exists l, items, k. repeat (split; [done|]).
  intros keylist' safe Hnot. by apply getnested_unvisited.
Qed.

(** An assignment through one key of a dict that is shared: the path
    through the other key goes through the same dict and reads the new
    value; a path that stops above it reads what it read. *)
Lemma setnested_changes_one_dict_witness :
  ∃ h', Heap.setnested shared_heap (Heap.VRef 1%positive) ["a"; "x"] (Heap.VInt 1)
        = (h', Ok tt)
        ∧ h' = <[2%positive := [("x", Heap.VInt 1)]]> shared_heap
        ∧ Heap.getnested h' (Heap.VRef 1%positive) ["b"; "x"] false = Ok (Heap.VInt 1)
        ∧ Heap.getnested h' (Heap.VRef 1%positive) ["b"] false
          = Heap.getnested shared_heap (Heap.VRef 1%positive) ["b"] false.
Proof.
  eexists. split; [reflexivity|]. split; [reflexivity|]. split; [reflexivity|].
  destruct (setnested_changes_one_dict shared_heap (Heap.VRef 1%positive) ["a"; "x"]
              (Heap.VInt 1) _ _ eq_refl) as [_ H].
  destruct (H eq_refl) as (l & items & k & Hget & Hlast & Hl & Hh' & Hframe).
  injection Hget as <-.
  apply (Hframe ["b"] false). simpl.
  intros [Heq|Hin]%elem_of_cons; [done | by apply elem_of_nil in Hin].
Defined.

(** What is in a dict stays there when a key that it has not is stored. *)
Lemma dict_lookup_store_new {A} (items : list (string * A)) k k' v v' :
  dict_lookup k items = Some v → is_key k' items = false →
  dict_lookup k (dict_store k' v' items) = Some v.
Proof.
  intros Hk Hk'. rewrite dict_lookup_store_ne; [done|].
  intros ->. unfold is_key in Hk'. by rewrite Hk in Hk'.
Qed.

Lemma makenested_from_keeps keys : ∀ (h : Heap.heap) cur lastkey item h' out,
  Heap.makenested_from h cur keys lastkey item = (h', out) →
  ∃ slot : option loc,
    (∀ l items k v, h !! l = Some items → dict_lookup k items = Some v →
       (slot = Some l ∧ k = lastkey)
       ∨ ∃ items', h' !! l = Some items' ∧ dict_lookup k items' = Some v)
    ∧ (out = Ok tt →
       ∃ l items', slot = Some l ∧ h' !! l = Some items'
                   ∧ dict_lookup lastkey items' = Some item).
Proof.
  induction keys as [|key rest IH]; intros h cur lastkey item h' out; simpl.
  - unfold Heap.setitem. destruct cur as [ |n|s|l].
    1-3: intros [= <- <-]; exists None; split; [|done];
         intros l items k v Hl Hk; right; by exists items.
    destruct (h !! l) as [items0|] eqn:Hl0.
    + intros [= <- <-]. exists (Some l). split.
      * intros l1 items k v Hl1 Hk.
        destruct (decide (l1 = l)) as [->|Hne].
        -- destruct (decide (k = lastkey)) as [->|Hk']; [by left|]. right.
           exists (dict_store lastkey item items0). rewrite lookup_insert_eq.
           split; [done|]. rewrite dict_lookup_store_ne by done. congruence.
        -- right. exists items. by rewrite lookup_insert_ne.
      * intros _. exists l, (dict_store lastkey item items0).
        rewrite lookup_insert_eq. split; [done|]. split; [done|].
        apply dict_lookup_store_eq.
    + intros [= <- <-]. exists None. split; [|done].
      intros l1 items k v Hl1 Hk. right. by exists items.
  - assert (Hnone : ∀ h1 : Heap.heap,
      (∀ l items k v, h !! l = Some items → dict_lookup k items = Some v →
         ∃ items', h1 !! l = Some items' ∧ dict_lookup k items' = Some v) →
      ∀ e, ∃ slot : option loc,
        (∀ l items k v, h !! l = Some items → dict_lookup k items = Some v →
           (slot = Some l ∧ k = lastkey)
           ∨ ∃ items', h1 !! l = Some items' ∧ dict_lookup k items' = Some v)
        ∧ (Raise e = Ok tt →
           ∃ l items', slot = Some l ∧ h1 !! l = Some items'
                       ∧ dict_lookup lastkey items' = Some item)).
    { intros h1 Hkeep e. exists None. split; [|done].
      intros l items k v Hl Hk. right. by apply (Hkeep l items k v). }
    assert (Hrefl : ∀ l items k (v : Heap.value),
      h !! l = Some items → dict_lookup k items = Some v →
      ∃ items', h !! l = Some items' ∧ dict_lookup k items' = Some v).
    { intros l items k v Hl Hk. by exists items. }
    destruct (Heap.contains h cur key) as [present|e] eqn:Hin;
      [|intros [= <- <-]; by apply Hnone].
    destruct (if present then (h, Ok tt)
              else Heap.setitem (<[fresh (dom h):=[]]> h) cur key
                     (Heap.VRef (fresh (dom h)))) as [h1 out1] eqn:Hstep.
    assert (Hkeep : ∀ l items k v, h !! l = Some items → dict_lookup k items = Some v →
              ∃ items', h1 !! l = Some items' ∧ dict_lookup k items' = Some v).
    { destruct present; [by injection Hstep as <- _|].
      pose proof (is_fresh (dom h)) as Hfresh%not_elem_of_dom.
      set (l' := fresh (dom h)) in *.
      assert (Hins : ∀ l items, h !! l = Some items → <[l':=[]]> h !! l = Some items).
      { intros l items Hl. rewrite lookup_insert_ne; [done|]. congruence. }
      unfold Heap.setitem in Hstep. destruct cur as [ |n|s|lc].
      1-3: injection Hstep as <- _; intros l items k v Hl Hk; exists items; auto.
      unfold Heap.contains in Hin.
      destruct (h !! lc) as [itemsc|] eqn:Hlc; [|done]. injection Hin as Hin.
      rewrite (Hins _ _ Hlc) in Hstep. injection Hstep as <- _.
      intros l items k v Hl Hk. destruct (decide (l = lc)) as [->|Hne].
      - exists (dict_store key (Heap.VRef l') itemsc). rewrite lookup_insert_eq.
        split; [done|]. apply dict_lookup_store_new; [congruence | by symmetry].
      - exists items. rewrite lookup_insert_ne by done. auto. }
    destruct out1 as [[]|e]; [|intros [= <- <-]; by apply Hnone].
    destruct (Heap.getitem h1 cur key) as [child|e]; [|intros [= <- <-]; by apply Hnone].
    intros Hrun. destruct (IH _ _ _ _ _ _ Hrun) as (slot & Hkept & Hset).
    exists slot. split; [|done].
    intros l items k v Hl Hk.
    destruct (Hkeep l items k v Hl Hk) as (items1 & Hl1 & Hk1).
    by apply (Hkept l items1 k v).
Qed.

(** X4.  [makenested] keeps what is in the dicts of the heap: every key
    of every dict has afterwards the value that it had, but for the key
    [keylist[-1]] of the one dict that receives the item; this holds
    whether the call returns or raises.  When it returns, that dict has
    the item under that key. *)
Theorem makenested_keeps_entries (h : Heap.heap) root keylist item h' out :
  Heap.makenested h root keylist item = (h', out) →
  ∃ slot : option loc,
    (∀ l items k v, h !! l = Some items → dict_lookup k items = Some v →
       (slot = Some l ∧ Some k = last keylist)
       ∨ ∃ items', h' !! l = Some items' ∧ dict_lookup k items' = Some v)
    ∧ (out = Ok tt →
       ∃ l items' k, slot = Some l ∧ last keylist = Some k ∧ h' !! l = Some items'
                     ∧ dict_lookup k items' = Some item).
Proof.
  unfold Heap.makenested. destruct (last keylist) as [lastkey|].
  - intros Hrun. destruct (makenested_from_keeps _ _ _ _ _ _ _ Hrun) as (slot & Hkept & Hset).
    exists slot. split.
    + intros l items k v Hl Hk. destruct (Hkept l items k v Hl Hk) as [[-> ->]|?]; auto.
    + intros Hout. destruct (Hset Hout) as (l & items' & ? & ? & ?).
      by exists l, items', lastkey.
  - intros [= <- <-]. exists None. split; [|done].
    intros l items k v Hl Hk. right. by exists items.
Qed.

(** A new level under a dict that is shared: what the dict had is kept,
    and the new level is seen through both keys. *)
Lemma makenested_keeps_entries_witness :
  ∃ h', Heap.makenested shared_heap (Heap.VRef 1%positive) ["a"; "y"; "z"] (Heap.VInt 5)
        = (h', Ok tt)
        ∧ Heap.getnested h' (Heap.VRef 1%positive) ["a"; "x"] false = Ok (Heap.VInt 0)
        ∧ Heap.getnested h' (Heap.VRef 1%positive) ["b"; "y"; "z"] false = Ok (Heap.VInt 5)
        ∧ ∃ items', h' !! 2%positive = Some items'
                    ∧ dict_lookup "x" items' = Some (Heap.VInt 0).
Proof.
  eexists. split; [reflexivity|]. split; [reflexivity|]. split; [reflexivity|].
  destruct (makenested_keeps_entries shared_heap (Heap.VRef 1%positive) ["a"; "y"; "z"]
              (Heap.VInt 5) _ _ eq_refl) as (slot & Hkept & _).
  destruct (Hkept 2%positive [("x", Heap.VInt 0)] "x" (Heap.VInt 0) eq_refl eq_refl)
    as [[_ [=]]|H]; exact H.
Defined.
(** * Further properties of [flattendict] *)

Lemma appends_to_refl inputdict cl kl : appends_to inputdict cl kl cl kl.
Proof. exists [], []. by rewrite !app_nil_r. Qed.

Lemma appends_to_trans inputdict cl0 kl0 cl1 kl1 cl2 kl2 :
  appends_to inputdict cl0 kl0 cl1 kl1 →
  appends_to inputdict cl1 kl1 cl2 kl2 →
  appends_to inputdict cl0 kl0 cl2 kl2.
Proof.
  intros (c1 & k1 & -> & -> & Hc1 & Hk1) (c2 & k2 & -> & -> & Hc2 & Hk2).
  exists (c1 ++ c2), (k1 ++ k2). rewrite !app_assoc.
  repeat split; by apply Forall_app.
Qed.

Lemma flatten_loop_appends inputdict call inputlist :
  (∀ comp cl kl cl' kl',
     is_key comp inputdict = true →
     call comp cl kl = Some (Ok (cl', kl')) → appends_to inputdict cl kl cl' kl') →
  ∀ complist keylist cl kl,
    flatten_loop call inputdict inputlist complist keylist = Some (Ok (cl, kl)) →
    appends_to inputdict complist keylist cl kl.
Proof.
  intros Hcall. induction inputlist as [|comp rest IH]; intros complist keylist cl kl; simpl.
  - intros [= <- <-]. apply appends_to_refl.
  - destruct (is_key comp inputdict) eqn:Ek.
    + destruct (call comp complist keylist) as [[[cl1 kl1]|e]|] eqn:Ec; [|done..].
      intros Hrest. eapply appends_to_trans; [by eapply Hcall | by apply IH].
    + intros Hrest. eapply appends_to_trans; [|by apply IH].
      exists [comp], []. rewrite app_nil_r. repeat split; [|done].
      by constructor.
Qed.

Lemma flattendict_appends inputdict subkeys fuel : ∀ basekey complist keylist limit cl kl,
  is_key basekey inputdict = true →
  flattendict fuel inputdict basekey subkeys complist keylist limit = Some (Ok (cl, kl)) →
  appends_to inputdict complist keylist cl kl.
Proof.
  induction fuel as [|fuel IH]; intros basekey complist keylist limit cl kl Hkey; [done|].
  rewrite flattendict_S. destruct (limit <? 1); [done|].
  destruct (inputlist_of inputdict basekey subkeys) as [inputlist|e]; [|done].
  intros Hloop. eapply appends_to_trans.
  - exists [], [basekey]. rewrite app_nil_r. repeat split; [done|]. by constructor.
  - eapply flatten_loop_appends; [|exact Hloop].
    intros comp cl0 kl0 cl' kl' Hc. by apply IH.
Qed.

(** X6.  A call of [flattendict] that returns has only appended to the two
    lists it was given: to [complist] components that are not keys of the
    dictionary (every key met is expanded, never listed), to [keylist]
    the base key followed by keys of the dictionary. *)
Theorem flattendict_only_appends inputdict subkeys fuel basekey complist keylist limit cl kl :
  flattendict fuel inputdict basekey subkeys complist keylist limit = Some (Ok (cl, kl)) →
  ∃ comps keys,
    cl = complist ++ comps
    ∧ kl = keylist ++ basekey :: keys
    ∧ Forall (λ c, is_key c inputdict = false) comps
    ∧ Forall (λ k, is_key k inputdict = true) keys.
Proof.
  destruct fuel as [|fuel]; [done|].
  rewrite flattendict_S. destruct (limit <? 1); [done|].
  destruct (inputlist_of inputdict basekey subkeys) as [inputlist|e]; [|done].
  intros Hloop.
  apply flatten_loop_appends in Hloop as (comps & keys & -> & -> & Hc & Hk).
  - exists comps, keys. by rewrite <- app_assoc.
  - intros comp cl0 kl0 cl' kl' Hkey. by apply flattendict_appends.
Qed.

Lemma flattendict_only_appends_witness :
  ∃ comps keys,
    ["a"; "e"; "e"; "f"; "g"; "b"; "c"; "d"] = [] ++ comps
    ∧ ["key1"; "key2"] = [] ++ "key1" :: keys.
Proof.
  destruct (flattendict_only_appends
    [("key1", EDict [("s0", FList ["a"; "key2"; "b"]); ("s1", FList ["c"; "d"])]);
     ("key2", EDict [("s0", FOne "e"); ("s1", FList ["e"; "f"; "g"])])]
    (Some ["s0"; "s1"]) 101 "key1" [] [] 100
    ["a"; "e"; "e"; "f"; "g"; "b"; "c"; "d"] ["key1"; "key2"])
    as (comps & keys & Hc & Hk & _); [reflexivity|].
  exists comps, keys. split; [exact Hc | exact Hk].
Defined.


(** ** Further properties of [inclusiverange] *)

Lemma inclusiverange_three start stop step :
  inclusiverange [Some start; Some stop; Some step] []
  = number_of_points start stop step ≫= np_linspace start stop.
Proof. reflexivity. Qed.

(** [numpy.linspace] between numbers that floats hold exactly, for two
    samples or more. *)
Lemma np_linspace_exact start stop s t d num :
  held_exactly start s → held_exactly stop t →
  float_sub (Fin t) (Fin s) = Fin d →
  2 ≤ num ≤ 2 ^ 53 + 1 →
  ∃ x, np_linspace start stop num = Ok x
       ∧ Z.of_nat (length x) = num
       ∧ head x = Some (Fin s)
       ∧ last x = Some (Fin t).
Proof.
  intros Hs Ht Hd Hnum. unfold np_linspace.
  rewrite (proj2 (Z.ltb_ge num 0)) by lia.
  rewrite (number_mul_float_exact _ _ Hs), (number_mul_float_exact _ _ Ht), !res_bind_Ok.
  rewrite (proj2 (Z.ltb_lt 1 num)) by lia.
  rewrite Hd, round64_Z by lia.
  destruct (float_quot_finite (t + - s) d (Qc_of_Z (num - 1))) as [q Hq]; [done| |].
  { rewrite <- Z2Qc_inj_1. apply (proj1 (Z2Qc_inj_le _ _)). lia. }
  rewrite Hq. eexists. split; [reflexivity|].
  destruct (Z.to_nat num) as [|[|n]] eqn:En; [lia..|].
  assert (Hlast : Z.to_nat (num - 1) = S n) by lia.
  rewrite Hlast.
  split; [|split].
  - rewrite length_insert. destruct (float_eq (Fin q) (Fin 0%Qc));
      rewrite !length_map, length_seq; lia.
  - destruct Hs as [_ Hs]. cbn [seq map]. change (Z.of_nat 0) with 0.
    rewrite Z2Qc_inj_0, round64_0.
    destruct (float_eq (Fin q) (Fin 0%Qc)); cbn [map list_insert head insert];
      by rewrite ?float_quot_0_l, float_mul_0_l, float_add_0_l.
  - rewrite last_lookup, length_insert.
    assert (Hlen : ∀ l : list pyfloat, length l = S (S n) →
              <[S n:=Fin t]> l !! Init.Nat.pred (length (<[S n:=Fin t]> l)) = Some (Fin t)).
    { intros l Hl. rewrite length_insert, Hl. simpl. apply list_lookup_insert_eq. lia. }
    rewrite <- (length_insert _ (S n) (Fin t)). apply Hlen.
    destruct (float_eq (Fin q) (Fin 0%Qc)); by rewrite !length_map, length_seq.
Qed.

(** X7.  [inclusiverange(start, stop, step)] on a start and a stop that
    floats hold exactly: when the number of points computed from them,
    [round((stop-start)/step) + 1], is two or more (and no more than
    [2^53 + 1]), the range has that many points, the first is the start
    and the last is the stop. *)
Theorem inclusiverange_endpoints start stop step s t num :
  held_exactly start s → held_exactly stop t →
  number_of_points start stop step = Ok num →
  2 ≤ num ≤ 2 ^ 53 + 1 →
  ∃ x, inclusiverange [Some start; Some stop; Some step] [] = Ok x
       ∧ Z.of_nat (length x) = num
       ∧ head x = Some (Fin s)
       ∧ last x = Some (Fin t).
Proof.
  intros Hs Ht Hpoints Hnum. rewrite inclusiverange_three, Hpoints, res_bind_Ok.
  destruct (number_of_points_span _ _ _ _ _ _ Hs Ht Hpoints) as [d Hd].
  by apply (np_linspace_exact _ _ _ _ d).
Qed.

Lemma inclusiverange_endpoints_witness :
  number_of_points (PInt 3) (PInt 5) (PFloat (float_lit 2 10)) = Ok 11
  ∧ ∃ x, inclusiverange [Some (PInt 3); Some (PInt 5); Some (PFloat (float_lit 2 10))] [] = Ok x
         ∧ Z.of_nat (length x) = 11
         ∧ head x = Some (Fin (Qc_of_Z 3))
         ∧ last x = Some (Fin (Qc_of_Z 5)).
Proof.
  split; [by vm_compute|].
  apply (inclusiverange_endpoints (PInt 3) (PInt 5) (PFloat (float_lit 2 10))).
  - split; [reflexivity | by apply round64_Z].
  - split; [reflexivity | by apply round64_Z].
  - by vm_compute.
  - lia.
Defined.

(** X8.  The other outcomes of [inclusiverange(start, stop, step)] on a
    start and a stop that floats hold exactly: a step of zero is a
    [ZeroDivisionError] (when the distance between the ends is a float);
    when one point is computed the range is the start alone, and the stop
    is left out; when none is computed the range is empty; a negative
    number of points is the [ValueError] of [numpy.linspace]. *)
Theorem inclusiverange_degenerate start stop step s t :
  held_exactly start s → held_exactly stop t →
  (∀ d, round64 (t - s) = Fin d → to_float step = Ok (Fin 0%Qc) →
        inclusiverange [Some start; Some stop; Some step] [] = Raise ZeroDivisionError)
  ∧ (number_of_points start stop step = Ok 1 →
     inclusiverange [Some start; Some stop; Some step] [] = Ok [Fin s])
  ∧ (number_of_points start stop step = Ok 0 →
     inclusiverange [Some start; Some stop; Some step] [] = Ok [])
  ∧ (∀ num, number_of_points start stop step = Ok num → num < 0 →
       inclusiverange [Some start; Some stop; Some step] [] = Raise ValueError).
Proof.
  intros Hs Ht. rewrite inclusiverange_three.
  pose proof (to_float_exact _ _ Hs) as Hfs. pose proof (to_float_exact _ _ Ht) as Hft.
  split; [|split; [|split]].
  - intros d Hd Hstep. unfold number_of_points.
    assert (∃ span, number_sub stop start = Ok span ∧ to_float span = Ok (Fin d))
      as (span & -> & Hspan).
    { destruct start as [i|fs], stop as [j|ft].
      - destruct Hs as [[= <-] _], Ht as [[= <-] _]. eexists. split; [reflexivity|].
        unfold to_float, float_of_int.
        replace (Qc_of_Z (j - i)) with (Qc_of_Z j - Qc_of_Z i)%Qc; [by rewrite Hd|].
        unfold Qcminus. by rewrite <- Z2Qc_inj_opp, <- Z2Qc_inj_add.
      - simpl in Hft. injection Hft as ->. unfold number_sub. rewrite Hfs.
        cbn [to_float]. rewrite !res_bind_Ok. eexists. split; [reflexivity|].
        simpl. unfold float_sub, float_opp, float_add. by f_equal.
      - simpl in Hfs. injection Hfs as ->. unfold number_sub. rewrite Hft.
        cbn [to_float]. rewrite !res_bind_Ok. eexists. split; [reflexivity|].
        simpl. unfold float_sub, float_opp, float_add. by f_equal.
      - simpl in Hfs, Hft. injection Hfs as ->. injection Hft as ->. unfold number_sub.
        cbn [to_float]. rewrite !res_bind_Ok. eexists. split; [reflexivity|].
        simpl. unfold float_sub, float_opp, float_add. by f_equal. }
    rewrite !res_bind_Ok, Hstep, res_bind_Ok. unfold number_div_float.
    by rewrite Hspan, res_bind_Ok.
  - intros Hpoints. rewrite Hpoints, res_bind_Ok.
    destruct (number_of_points_span _ _ _ _ _ _ Hs Ht Hpoints) as [d Hd].
    unfold np_linspace. change (1 <? 0) with false. change (1 <? 1) with false.
    rewrite (number_mul_float_exact _ _ Hs), (number_mul_float_exact _ _ Ht), !res_bind_Ok.
    rewrite Hd. change (Z.to_nat 1) with 1%nat. cbn [seq map]. change (Z.of_nat 0) with 0.
    rewrite Z2Qc_inj_0, round64_0, float_mul_0_l, float_add_0_l; [done|]. by destruct Hs.
  - intros Hpoints. rewrite Hpoints, res_bind_Ok. unfold np_linspace.
    change (0 <? 0) with false. change (1 <? 0) with false.
    by rewrite (number_mul_float_exact _ _ Hs), (number_mul_float_exact _ _ Ht), !res_bind_Ok.
  - intros num Hpoints Hneg. rewrite Hpoints, res_bind_Ok. unfold np_linspace.
    by rewrite (proj2 (Z.ltb_lt num 0)) by lia.
Qed.

Lemma inclusiverange_degenerate_witness :
  inclusiverange [Some (PInt 0); Some (PInt 1); Some (PInt 0)] [] = Raise ZeroDivisionError
  ∧ inclusiverange [Some (PInt 0); Some (PInt 1); Some (PInt 3)] [] = Ok [Fin (Qc_of_Z 0)].
Proof.
  split.
  - refine (proj1 (inclusiverange_degenerate (PInt 0) (PInt 1) (PInt 0)
                     (Qc_of_Z 0) (Qc_of_Z 1) _ _) (Qc_of_Z 1) _ _).
    + split; [reflexivity | by apply round64_Z].
    + split; [reflexivity | by apply round64_Z].
    + rewrite <- (round64_Z 1) by done. by f_equal.
    + unfold to_float. rewrite float_of_int_exact by done. by rewrite Z2Qc_inj_0.
  - refine (proj1 (proj2 (inclusiverange_degenerate (PInt 0) (PInt 1) (PInt 3)
                     (Qc_of_Z 0) (Qc_of_Z 1) _ _)) _).
    + split; [reflexivity | by apply round64_Z].
    + split; [reflexivity | by apply round64_Z].
    + by vm_compute.
Defined.
(** * [sanitizefilename] *)

Lemma sub_erase_app class a b :
  sub_erase class (a +:+ b) = sub_erase class a +:+ sub_erase class b.
Proof.
  induction a as [|c a IH]; simpl; [done|].
  destruct (class c); simpl; by rewrite IH.
Qed.

Lemma sub_underscore_app class a b :
  sub_underscore class (a +:+ b) = sub_underscore class a +:+ sub_underscore class b.
Proof. induction a as [|c a IH]; simpl; [done|]. by rewrite IH. Qed.

Lemma sub_erase_clean class s :
  Forall (λ c, class c = false) (String.list_ascii_of_string s) → sub_erase class s = s.
Proof.
  induction s as [|c s IH]; simpl; [done|].
  intros [Hc Hs]%Forall_cons. rewrite Hc. by rewrite IH.
Qed.

Lemma sub_underscore_clean class s :
  Forall (λ c, class c = false) (String.list_ascii_of_string s) → sub_underscore class s = s.
Proof.
  induction s as [|c s IH]; simpl; [done|].
  intros [Hc Hs]%Forall_cons. rewrite Hc. by rewrite IH.
Qed.

Lemma sanitizefilename_chars rawfilename :
  Forall (λ c, erased c = false ∧ separator c = false)
    (String.list_ascii_of_string (sanitizefilename rawfilename)).
Proof.
  unfold sanitizefilename.
  induction rawfilename as [|c s IH]; simpl; [constructor|].
  destruct (erased c) eqn:Ee; [done|]. simpl. constructor; [|done].
  destruct (separator c) eqn:Es; [done|]. done.
Qed.

(** X9.  A sanitized file name holds none of the six characters that are
    erased and none of the six that are turned into underscores, and
    sanitizing it again changes nothing. *)
Theorem sanitizefilename_clean_idempotent rawfilename :
  Forall (λ c, erased c = false ∧ separator c = false)
    (String.list_ascii_of_string (sanitizefilename rawfilename))
  ∧ sanitizefilename (sanitizefilename rawfilename) = sanitizefilename rawfilename.
Proof.
  pose proof (sanitizefilename_chars rawfilename) as H. split; [done|].
  unfold sanitizefilename at 1.
  rewrite sub_erase_clean, sub_underscore_clean; [done | |].
  - eapply Forall_impl; [exact H|]. by intros c [_ ?].
  - eapply Forall_impl; [exact H|]. by intros c [? _].
Qed.

(** X10.  Sanitizing works character by character: it distributes over
    concatenation and never makes a name longer. *)
Theorem sanitizefilename_app a b :
  sanitizefilename (a +:+ b) = sanitizefilename a +:+ sanitizefilename b
  ∧ (String.length (sanitizefilename a) ≤ String.length a)%nat.
Proof.
  split.
  - unfold sanitizefilename. by rewrite sub_erase_app, sub_underscore_app.
  - unfold sanitizefilename. induction a as [|c a IH]; simpl; [done|].
    destruct (erased c); simpl; lia.
Qed.

(** X11.  A name that holds none of the twelve characters is returned as
    it is. *)
Theorem sanitizefilename_clean_unchanged rawfilename :
  Forall (λ c, erased c = false ∧ separator c = false)
    (String.list_ascii_of_string rawfilename) →
  sanitizefilename rawfilename = rawfilename.
Proof.
  intros H. unfold sanitizefilename.
  rewrite sub_erase_clean, sub_underscore_clean; [done | |].
  - eapply Forall_impl; [exact H|]. by intros c [_ ?].
  - eapply Forall_impl; [exact H|]. by intros c [? _].
Qed.

Lemma sanitizefilename_clean_unchanged_witness :
  sanitizefilename "results_2017.txt" = "results_2017.txt".
Proof.
  apply (sanitizefilename_clean_unchanged "results_2017.txt").
  repeat constructor.
Defined.

Example sanitizefilename_example :
  sanitizefilename "my:file/name?.txt" = "my_file_name.txt".
Proof. reflexivity. Qed.

(** * [compareversions] *)

Lemma float_lt_asym a b : float_lt a b = true → float_lt b a = false.
Proof.
  destruct a as [x| | |], b as [y| | |]; simpl; try done.
  intros H%bool_decide_eq_true. apply bool_decide_eq_false.
  intros H2. apply (Qclt_not_le _ _ H). by apply Qclt_le_weak.
Qed.

Lemma float_eq_sym a b : float_eq a b = float_eq b a.
Proof.
  destruct a as [x| | |], b as [y| | |]; simpl; try done.
  apply bool_decide_ext. split; by intros ->.
Qed.

Lemma first_decided_swap row0 : ∀ row1,
  first_decided row1 row0 = Z.opp <$> first_decided row0 row1.
Proof.
  induction row0 as [|x r0 IH]; intros [|y r1]; simpl; try done.
  destruct (float_lt x y) eqn:Exy.
  - by rewrite (float_lt_asym _ _ Exy).
  - destruct (float_lt y x); [done | apply IH].
Qed.

Lemma rows_equal_sym row0 : ∀ row1, rows_equal row1 row0 = rows_equal row0 row1.
Proof.
  induction row0 as [|x r0 IH]; intros [|y r1]; simpl; try done.
  by rewrite IH, float_eq_sym.
Qed.

Lemma compareversions_swap_args float_of version1 version2 :
  compareversions float_of version2 version1
  = swapped (compareversions float_of version1 version2).
Proof.
  destruct version1 as [s1|], version2 as [s2|]; try done. simpl.
  destruct (mapM float_of (split_on "." s1)) as [v0|],
           (mapM float_of (split_on "." s2)) as [v1|]; try done.
  rewrite (Nat.max_comm (length v1) (length v0)). unfold verdict.
  rewrite first_decided_swap, rows_equal_sym.
  destruct (first_decided _ _) as [r|]; simpl; [done|].
  by destruct (rows_equal _ _).
Qed.

(** X12.  Comparing two versions the other way round gives the opposite
    sign: [-1] becomes [1], [1] becomes [-1], [0] stays, and a call that
    fails fails the other way round too, with the same exception. *)
Theorem compareversions_swap float_of version1 version2 :
  compareversions float_of version2 version1
  = swapped (compareversions float_of version1 version2).
Proof. apply compareversions_swap_args. Qed.

Lemma split_on_not_nil sep s : split_on sep s ≠ [].
Proof.
  destruct s as [|c s]; simpl; [done|].
  destruct (Ascii.eqb c sep); [done|]. by destruct (split_on sep s).
Qed.

Lemma split_on_app sep s t :
  split_on sep (s +:+ String sep t) = split_on sep s ++ split_on sep t.
Proof.
  induction s as [|c s IH]; simpl.
  - by rewrite Ascii.eqb_refl.
  - destruct (Ascii.eqb c sep); [by rewrite IH|]. rewrite IH.
    pose proof (split_on_not_nil sep s). by destruct (split_on sep s).
Qed.

Lemma verdict_snoc_zero row0 : ∀ row1,
  length row0 = length row1 →
  verdict (row0 ++ [Fin 0%Qc]) (row1 ++ [Fin 0%Qc]) = verdict row0 row1.
Proof.
  intros row1 Hlen. unfold verdict.
  assert (first_decided (row0 ++ [Fin 0%Qc]) (row1 ++ [Fin 0%Qc])
          = first_decided row0 row1) as ->.
  { revert row1 Hlen. induction row0 as [|x r0 IH]; intros [|y r1] Hlen; try done.
    simpl in *. destruct (float_lt x y); [done|]. destruct (float_lt y x); [done|].
    apply IH. lia. }
  assert (rows_equal (row0 ++ [Fin 0%Qc]) (row1 ++ [Fin 0%Qc])
          = rows_equal row0 row1) as ->; [|done].
  revert row1 Hlen. induction row0 as [|x r0 IH]; intros [|y r1] Hlen; try done.
  simpl in *. f_equal. apply IH. lia.
Qed.

Lemma zero_padded_length maxlen v :
  (length v ≤ maxlen)%nat → length (zero_padded maxlen v) = maxlen.
Proof. intros H. unfold zero_padded. rewrite length_app, length_replicate. lia. Qed.

Lemma zero_padded_S maxlen v :
  (length v ≤ maxlen)%nat →
  zero_padded (S maxlen) v = zero_padded maxlen v ++ [Fin 0%Qc].
Proof.
  intros H. unfold zero_padded.
  replace (S maxlen - length v)%nat with (S (maxlen - length v)) by lia.
  by rewrite replicate_S_end, app_assoc.
Qed.

Lemma zero_padded_snoc maxlen v :
  (length v < maxlen)%nat →
  zero_padded maxlen (v ++ [Fin 0%Qc]) = zero_padded maxlen v.
Proof.
  intros H. unfold zero_padded. rewrite length_app. simpl.
  replace (maxlen - length v)%nat with (S (maxlen - (length v + 1))) by lia.
  by rewrite <- app_assoc.
Qed.

(** X13.  Trailing zero components do not count: when [float] reads
    ["0"] as zero, a version and the same version followed by [".0"]
    compare alike with any other version, on either side. *)
Theorem compareversions_trailing_zero float_of version other :
  float_of "0" = Some (Fin 0%Qc) →
  compareversions float_of (Some (version +:+ ".0")) other
  = compareversions float_of (Some version) other
  ∧ compareversions float_of other (Some (version +:+ ".0"))
    = compareversions float_of other (Some version).
Proof.
  intros Hzero.
  assert (Hleft : ∀ o, compareversions float_of (Some (version +:+ ".0")) o
                       = compareversions float_of (Some version) o).
  { intros [s2|]; [|done]. simpl. rewrite split_on_app. simpl.
    destruct (mapM float_of (split_on "." version)) as [v0|] eqn:E0.
    - assert (mapM float_of (split_on "." version ++ ["0"]) = Some (v0 ++ [Fin 0%Qc])) as ->.
      { apply mapM_Some. apply Forall2_app; [by apply mapM_Some|]. by constructor. }
      destruct (mapM float_of (split_on "." s2)) as [v1|]; [|done].
      rewrite length_app. simpl.
      destruct (decide (length v0 < length v1)%nat) as [Hlt|Hge].
      + replace (Nat.max (length v0 + 1) (length v1)) with (length v1) by lia.
        replace (Nat.max (length v0) (length v1)) with (length v1) by lia.
        by rewrite zero_padded_snoc.
      + replace (Nat.max (length v0 + 1) (length v1)) with (S (length v0)) by lia.
        replace (Nat.max (length v0) (length v1)) with (length v0) by lia.
        rewrite (zero_padded_S _ v1) by lia.
        assert (zero_padded (S (length v0)) (v0 ++ [Fin 0%Qc])
                = zero_padded (length v0) v0 ++ [Fin 0%Qc]) as ->.
        { unfold zero_padded. rewrite length_app. simpl.
          replace (S (length v0) - (length v0 + 1))%nat with 0%nat by lia.
          replace (length v0 - length v0)%nat with 0%nat by lia.
          simpl. by rewrite !app_nil_r. }
        apply verdict_snoc_zero. rewrite !zero_padded_length; lia.
    - assert (mapM float_of (split_on "." version ++ ["0"]) = None) as ->; [|done].
      apply mapM_None, Exists_app. left. by apply mapM_None. }
  split; [apply Hleft|].
  by rewrite (compareversions_swap_args float_of), Hleft,
       <- (compareversions_swap_args float_of).
Qed.

Lemma compareversions_trailing_zero_witness :
  compareversions float_of_digits (Some ("2" +:+ ".0")) (Some "2.1")
  = compareversions float_of_digits (Some "2") (Some "2.1").
Proof.
  apply (compareversions_trailing_zero float_of_digits "2" (Some "2.1")).
  change (Some (Fin (Qc_of_Z 0)) = Some (Fin 0%Qc)). by rewrite Z2Qc_inj_0.
Defined.

Lemma first_decided_sign row0 : ∀ row1 r,
  first_decided row0 row1 = Some r → r = -1 ∨ r = 1.
Proof.
  induction row0 as [|x r0 IH]; intros [|y r1] r; simpl; try done.
  destruct (float_lt x y); [intros [= <-]; by left|].
  destruct (float_lt y x); [intros [= <-]; by right | apply IH].
Qed.

Lemma float_trichotomy x y :
  x ≠ NaN → y ≠ NaN →
  float_lt x y = false → float_lt y x = false → float_eq x y = true.
Proof.
  destruct x as [p| | |], y as [q| | |]; simpl; try done.
  intros _ _ H1%bool_decide_eq_false H2%bool_decide_eq_false.
  apply bool_decide_eq_true.
  destruct (Qclt_le_dec p q) as [?|Hle]; [done|].
  destruct (Qclt_le_dec q p) as [?|Hle']; [done|].
  by apply Qcle_antisym.
Qed.

Lemma undecided_unequal_NaN row0 : ∀ row1,
  first_decided row0 row1 = None → rows_equal row0 row1 = false →
  NaN ∈ row0 ∨ NaN ∈ row1.
Proof.
  induction row0 as [|x r0 IH]; intros [|y r1]; simpl; try done.
  destruct (float_lt x y) eqn:E1; [done|]. destruct (float_lt y x) eqn:E2; [done|].
  intros Hd He.
  assert (Hx : x = NaN ∨ x ≠ NaN) by (destruct x; auto).
  assert (Hy : y = NaN ∨ y ≠ NaN) by (destruct y; auto).
  destruct Hx as [->|Hx]; [left; left|].
  destruct Hy as [->|Hy]; [right; left|].
  rewrite (float_trichotomy x y Hx Hy E1 E2) in He. simpl in He.
  destruct (IH r1 Hd He); [left | right]; by right.
Qed.

Lemma zero_padded_NaN maxlen v : NaN ∈ zero_padded maxlen v → NaN ∈ v.
Proof.
  unfold zero_padded. intros [?|Hr]%elem_of_app; [done|].
  by apply elem_of_replicate in Hr as [? _].
Qed.

Lemma mapM_elem_of {A B} (f : A → option B) l k y :
  mapM f l = Some k → y ∈ k → ∃ x, x ∈ l ∧ f x = Some y.
Proof.
  intros H%mapM_Some Hy. induction H as [|x z l k Hxz _ IH]; [by apply elem_of_nil in Hy|].
  apply elem_of_cons in Hy as [->|Hy].
  - exists x. split; [left | done].
  - destruct (IH Hy) as (x' & ? & ?). exists x'. split; [by right | done].
Qed.

(** X14.  What [compareversions] returns is [-1], [0] or [1]. *)
Theorem compareversions_outcomes float_of version1 version2 r :
  compareversions float_of version1 version2 = inr r →
  r = -1 ∨ r = 0 ∨ r = 1.
Proof.
  destruct version1 as [version1|], version2 as [version2|]; try done. simpl.
  destruct (mapM float_of (split_on "." version1)) as [v0|]; [|done].
  destruct (mapM float_of (split_on "." version2)) as [v1|]; [|done].
  unfold verdict. destruct (first_decided _ _) as [r'|] eqn:E.
  - intros [= <-]. apply first_decided_sign in E as [->| ->]; auto.
  - destruct (rows_equal _ _); [|done]. intros [= <-]. auto.
Qed.

Lemma compareversions_outcomes_witness :
  compareversions float_of_digits (Some "1.2.3") (Some "2.3.4") = inr (-1)
  ∧ (-1 = -1 ∨ -1 = 0 ∨ -1 = 1).
Proof.
  split; [reflexivity|].
  apply (compareversions_outcomes float_of_digits (Some "1.2.3") (Some "2.3.4") (-1)).
  reflexivity.
Defined.

(** X15.  The final exception, that the versions could not be compared,
    is only raised when some component of one of the two versions
    converts to a NaN. *)
Theorem compareversions_failure_needs_NaN float_of version1 version2 :
  compareversions float_of (Some version1) (Some version2) = inl FailedToCompare →
  ∃ c, (c ∈ split_on "." version1 ∨ c ∈ split_on "." version2)
       ∧ float_of c = Some NaN.
Proof.
  simpl.
  destruct (mapM float_of (split_on "." version1)) as [v0|] eqn:E0; [|done].
  destruct (mapM float_of (split_on "." version2)) as [v1|] eqn:E1; [|done].
  unfold verdict. destruct (first_decided _ _) eqn:Ed; [done|].
  destruct (rows_equal _ _) eqn:Ee; [done|]. intros _.
  destruct (undecided_unequal_NaN _ _ Ed Ee) as [H|H];
    apply zero_padded_NaN in H.
  - destruct (mapM_elem_of _ _ _ _ E0 H) as (c & ? & ?). exists c. auto.
  - destruct (mapM_elem_of _ _ _ _ E1 H) as (c & ? & ?). exists c. auto.
Qed.

Lemma compareversions_failure_needs_NaN_witness :
  ∃ c, (c ∈ split_on "." "1.nan" ∨ c ∈ split_on "." "1.2")
       ∧ float_of_digits c = Some NaN.
Proof.
  apply (compareversions_failure_needs_NaN float_of_digits "1.nan" "1.2").
  reflexivity.
Defined.

(** X16.  A version all of whose components convert, none to a NaN,
    compares equal to itself. *)
Theorem compareversions_same_version float_of version :
  Forall (λ c, ∃ x, float_of c = Some x ∧ x ≠ NaN) (split_on "." version) →
  compareversions float_of (Some version) (Some version) = inr 0.
Proof.
  intros Hall. simpl.
  destruct (mapM float_of (split_on "." version)) as [v0|] eqn:E0.
  - assert (Hnan : NaN ∉ v0).
    { intros H. destruct (mapM_elem_of _ _ _ _ E0 H) as (c & Hc & Hf).
      apply (proj1 (Forall_forall _ _) Hall) in Hc as (x & Hx & Hne). congruence. }
    rewrite Nat.max_id. unfold zero_padded.
    replace (length v0 - length v0)%nat with 0%nat by lia. simpl. rewrite app_nil_r.
    unfold verdict. clear E0 Hall.
    assert (first_decided v0 v0 = None ∧ rows_equal v0 v0 = true) as [-> ->]; [|done].
    induction v0 as [|x v0 IH]; [done|]. simpl.
    apply not_elem_of_cons in Hnan as [Hx Hnan]. destruct (IH Hnan) as [-> ->].
    destruct x as [q| | |]; simpl; try done.
    rewrite bool_decide_eq_false_2.
    + by rewrite bool_decide_eq_true_2.
    + intros H. apply (Qclt_not_le _ _ H), Qcle_refl.
  - apply mapM_None in E0. apply Exists_exists in E0 as (c & Hc & Hf).
    apply (proj1 (Forall_forall _ _) Hall) in Hc as (x & Hx & _). congruence.
Qed.

Lemma compareversions_same_version_witness :
  compareversions float_of_digits (Some "2.10") (Some "2.10") = inr 0.
Proof.
  apply (compareversions_same_version float_of_digits "2.10").
  repeat constructor; by eexists.
Defined.

(** The examples of the docstring that are strings. *)
Example compareversions_docstring :
  compareversions float_of_digits (Some "1.2.3") (Some "2.3.4") = inr (-1)
  ∧ compareversions float_of_digits (Some "2") (Some "2.0.0.0") = inr 0
  ∧ compareversions float_of_digits (Some "3.1") (Some "2.99") = inr 1.
Proof. repeat split. Qed.

(** * [quantile] *)

Lemma quantile_lookup data ind :
  0 ≤ ind < Z.of_nat (length data) →
  ∃ x, (py_index (length data) ind ≫= λ n, merge_sort Qcle data !! n) = Some x
       ∧ merge_sort Qcle data !! Z.to_nat ind = Some x
       ∧ x ∈ data.
Proof.
  intros Hind. unfold py_index.
  destruct (0 <=? ind) eqn:E1; [|apply Z.leb_gt in E1; lia].
  destruct (ind <? Z.of_nat (length data)) eqn:E2; [|apply Z.ltb_ge in E2; lia].
  simpl.
  destruct (lookup_lt_is_Some_2 (merge_sort Qcle data) (Z.to_nat ind)) as [x Hx].
  { rewrite (Permutation_length (merge_sort_Permutation Qcle data)). lia. }
  exists x. split; [done|]. split; [done|].
  rewrite <- (merge_sort_Permutation Qcle data). by eapply list_elem_of_lookup_2.
Qed.

Lemma StronglySorted_lookup_le (l : list Qc) i j x y :
  StronglySorted Qcle l → l !! i = Some x → l !! j = Some y → (i ≤ j)%nat → (x ≤ y)%Qc.
Proof.
  intros Hs. revert i j. induction Hs as [|a l Hs IH Ha]; intros i j Hi Hj Hij; [done|].
  destruct i as [|i], j as [|j]; simpl in *; try lia.
  - injection Hi as <-. injection Hj as <-. apply Qcle_refl.
  - injection Hi as <-. apply (proj1 (Forall_forall _ _) Ha). by eapply list_elem_of_lookup_2.
  - apply (IH i j); [done..|lia].
Qed.

(** X20.  On data that are not empty, the quantiles 0 and 1 are the
    minimum and the maximum of the data. *)
Theorem quantile_min_max data :
  data ≠ [] →
  ∃ lo hi, quantile data [0%Qc; 1%Qc] = Ok [lo; hi]
           ∧ lo ∈ data ∧ hi ∈ data
           ∧ ∀ x, x ∈ data → (lo ≤ x ∧ x ≤ hi)%Qc.
Proof.
  intros Hne. unfold quantile.
  assert (Hn : (0 < length data)%nat) by (destruct data; [done | simpl; lia]).
  assert (Hr0 : py_round (0 * Qc_of_Z (Z.of_nat (length data) - 1)) = 0).
  { rewrite Qcmult_0_l. reflexivity. }
  assert (Hr1 : py_round (1 * Qc_of_Z (Z.of_nat (length data) - 1))
                = Z.of_nat (length data) - 1).
  { rewrite Qcmult_1_l. apply py_round_Z. }
  destruct (quantile_lookup data 0) as (lo & Hlo & Hlo' & Hloin); [lia|].
  destruct (quantile_lookup data (Z.of_nat (length data) - 1))
    as (hi & Hhi & Hhi' & Hhiin); [lia|].
  exists lo, hi. cbn [map mapM]. rewrite Hr0, Hr1, Hlo, Hhi. simpl.
  split; [done|]. split; [done|]. split; [done|].
  intros x Hx. rewrite <- (merge_sort_Permutation Qcle data) in Hx.
  apply list_elem_of_lookup in Hx as [k Hk].
  pose proof (StronglySorted_merge_sort Qcle data) as Hs.
  pose proof (lookup_lt_Some _ _ _ Hk) as Hlt.
  rewrite (Permutation_length (merge_sort_Permutation Qcle data)) in Hlt.
  split.
  - apply (StronglySorted_lookup_le _ _ _ _ _ Hs Hlo' Hk). simpl. lia.
  - apply (StronglySorted_lookup_le _ _ _ _ _ Hs Hk Hhi'). lia.
Qed.

Lemma quantile_min_max_witness :
  ∃ lo hi, quantile [Qc_of_Z 5; Qc_of_Z 1; Qc_of_Z 3] [0%Qc; 1%Qc] = Ok [lo; hi]
           ∧ lo ∈ [Qc_of_Z 5; Qc_of_Z 1; Qc_of_Z 3].
Proof.
  destruct (quantile_min_max [Qc_of_Z 5; Qc_of_Z 1; Qc_of_Z 3])
    as (lo & hi & Hrun & Hlo & _); [discriminate|].
  exists lo, hi. split; [exact Hrun | exact Hlo].
Defined.

(** * [createcollist] *)

Lemma omap_lookup_seq {A} (l : list A) : omap (λ i, l !! i) (seq 0 (length l)) = l.
Proof.
  induction l as [|a l IH] using rev_ind; [done|].
  rewrite length_app. simpl. rewrite Nat.add_1_r, seq_S, omap_app. simpl.
  rewrite lookup_app_r, Nat.sub_diag by lia. simpl.
  f_equal. rewrite <- IH at 2. apply list_omap_ext.
  apply Forall2_same_length_lookup_2; [done|].
  intros i x y Hx Hy. rewrite Hx in Hy. injection Hy as <-.
  apply lookup_seq in Hx as [-> Hlt]. simpl. by rewrite lookup_app_l.
Qed.

Lemma omap_lookup_out {A} (l : list A) (idxs : list nat) :
  Forall (λ i, length l ≤ i)%nat idxs → omap (λ i, l !! i) idxs = [].
Proof.
  induction 1 as [|i idxs Hi _ IH]; [done|].
  simpl. by rewrite (lookup_ge_None_2 _ _ Hi).
Qed.

(** The positions visited by the first loop, were none of them cut off. *)
Lemma column_order_positions {A} (l : list A) nrow :
  column_order l nrow
  = omap (λ i, l !! i)
      (seq 0 nrow ≫= λ x, map (λ j, x + j * nrow)%nat (seq 0 (length l))).
Proof.
  unfold column_order, stride.
  induction (seq 0 nrow) as [|x xs IH]; [done|].
  csimpl. by rewrite omap_app, IH.
Qed.

Lemma positions_NoDup n nrow :
  NoDup (seq 0 nrow ≫= λ x, map (λ j, x + j * nrow)%nat (seq 0 n)).
Proof.
  apply NoDup_bind; [| |apply NoDup_seq].
  - intros x1 x2 y Hx1%elem_of_seq Hx2%elem_of_seq
      (j1 & -> & _)%list_elem_of_fmap (j2 & Heq & _)%list_elem_of_fmap.
    assert (Hm : ((x1 + j1 * nrow) mod nrow = (x2 + j2 * nrow) mod nrow)%nat) by by rewrite Heq.
    rewrite !Nat.Div0.mod_add, !Nat.mod_small in Hm by lia. done.
  - intros x Hx%elem_of_seq. apply NoDup_fmap_2; [|apply NoDup_seq].
    intros j1 j2 Heq. nia.
Qed.

Lemma positions_cover n nrow i :
  (0 < nrow)%nat → (i < n)%nat →
  i ∈ (seq 0 nrow ≫= λ x, map (λ j, x + j * nrow)%nat (seq 0 n)).
Proof.
  intros Hr Hi. apply list_elem_of_bind. exists (i mod nrow)%nat. split.
  - apply list_elem_of_fmap. exists (i / nrow)%nat. split.
    + rewrite (Nat.div_mod_eq i nrow) at 1. lia.
    + apply elem_of_seq. split; [lia|]. simpl.
      apply Nat.le_lt_trans with i; [|done]. apply Nat.Div0.div_le_upper_bound. nia.
  - apply elem_of_seq. split; [lia|]. simpl. apply Nat.mod_upper_bound. lia.
Qed.

(** The first loop lists every key once. *)
Lemma column_order_Permutation {A} (l : list A) nrow :
  (0 < nrow)%nat → column_order l nrow ≡ₚ l.
Proof.
  intros Hr. rewrite column_order_positions.
  set (ps := seq 0 nrow ≫= _).
  assert (Hout : omap (λ i, l !! i) (filter (λ i, ¬ (i < length l)%nat) ps) = []).
  { apply omap_lookup_out, Forall_forall. intros i [Hi _]%list_elem_of_filter. lia. }
  assert (Hperm : filter (λ i, i < length l)%nat ps ≡ₚ seq 0 (length l)).
  { apply NoDup_Permutation.
    - apply NoDup_filter, positions_NoDup.
    - apply NoDup_seq.
    - intros i. rewrite list_elem_of_filter, elem_of_seq. split; [lia|].
      intros [_ Hi]. split; [lia|]. apply positions_cover; [done | lia]. }
  rewrite <- (filter_app_complement (λ i, i < length l)%nat ps), omap_app, Hout, app_nil_r.
  by rewrite Hperm, omap_lookup_seq.
Qed.

Lemma string_app_cons x (a b : string) : String x a +:+ b = String x (a +:+ b).
Proof. reflexivity. Qed.

Lemma string_app_assoc (a b c : string) : (a +:+ b) +:+ c = a +:+ (b +:+ c).
Proof. induction a as [|x a IH]; [done|]. by rewrite !string_app_cons, IH. Qed.

Lemma string_app_nil_r (a : string) : a +:+ "" = a.
Proof. induction a as [|x a IH]; [done|]. by rewrite string_app_cons, IH. Qed.

Lemma string_length_app (a b : string) :
  String.length (a +:+ b) = (String.length a + String.length b)%nat.
Proof. induction a as [|x a IH]; [done|]. rewrite string_app_cons. simpl. by rewrite IH. Qed.

Lemma string_length_prefix (s : string) n :
  (n ≤ String.length s)%nat → String.length (String.substring 0 n s) = n.
Proof.
  revert n. induction s as [|x s IH]; intros [|n] Hn; simpl in *; try done; try lia.
  rewrite IH; lia.
Qed.

Lemma spaces_length n : String.length (spaces n) = n.
Proof. induction n as [|n IH]; [done|]. simpl. by rewrite IH. Qed.

Lemma attloop_layout ncol strlen newkeys : ∀ c attstring,
  attloop ncol strlen newkeys c attstring
  = attstring +:+ layout ncol c (cell strlen <$> newkeys).
Proof.
  induction newkeys as [|x rest IH]; intros c attstring; simpl.
  - by rewrite string_app_nil_r.
  - rewrite IH. destruct (c mod ncol =? 0).
    + by rewrite !string_app_assoc.
    + cbn. by rewrite !string_app_assoc.
Qed.

(** X21.  For a positive number of columns, the listing is the title, a
    colon, then the cells of the reordered keys laid out in rows of
    [ncol], closed by a line break; the reordering is a permutation, so
    every key has exactly one cell. *)
Theorem createcollist_lists_every_key oldkeys title strlen ncol :
  0 < ncol →
  ∃ newkeys,
    newkeys ≡ₚ oldkeys
    ∧ createcollist oldkeys title strlen ncol
      = Ok (title +:+ ":" +:+ layout ncol 0 (cell strlen <$> newkeys)
            +:+ String (ascii_of_nat 10) "").
Proof.
  intros Hncol. unfold createcollist.
  destruct (ncol =? 0) eqn:E; [apply Z.eqb_eq in E; lia|].
  set (nrow := Qceiling _).
  exists (column_order oldkeys (Z.to_nat nrow)). split.
  - destruct oldkeys as [|k oldkeys].
    { unfold column_order, stride. simpl.
      by induction (seq 0 (Z.to_nat nrow)) as [|? ? IH]. }
    apply column_order_Permutation.
    cut (0 < nrow); [lia|].
    assert (Hpos : (0 < Qc_of_Z (Z.of_nat (length (k :: oldkeys))) / Qc_of_Z ncol)%Qc).
    { apply Qcmult_pos_pos.
      - rewrite <- Z2Qc_inj_0. apply (proj1 (Z2Qc_inj_lt _ _)). simpl. lia.
      - apply Qcinv_pos. rewrite <- Z2Qc_inj_0. by apply (proj1 (Z2Qc_inj_lt _ _)). }
    apply Qlt_le_trans with (z := inject_Z nrow) in Hpos; [|apply Qle_ceiling].
    change (inject_Z 0 < inject_Z nrow)%Q in Hpos. by rewrite <- Zlt_Qlt in Hpos.
  - by rewrite attloop_layout, !string_app_assoc.
Qed.

Lemma createcollist_lists_every_key_witness :
  ∃ newkeys,
    newkeys ≡ₚ ["a"; "b"; "c"; "d"; "e"; "f"; "g"]
    ∧ createcollist ["a"; "b"; "c"; "d"; "e"; "f"; "g"] "Methods" 5 3
      = Ok ("Methods" +:+ ":" +:+ layout 3 0 (cell 5 <$> newkeys)
            +:+ String (ascii_of_nat 10) "").
Proof.
  apply (createcollist_lists_every_key ["a"; "b"; "c"; "d"; "e"; "f"; "g"] "Methods" 5 3).
  lia.
Defined.

(** X22.  With [strlen] at least 3 every cell has the same width,
    [strlen + 2]: a longer key is cut to [strlen - 3] characters and three
    dots, a shorter one is padded with spaces. *)
Theorem cell_width strlen x :
  3 ≤ strlen →
  Z.of_nat (String.length (cell strlen x)) = strlen + 2
  ∧ (strlen < Z.of_nat (String.length x) →
     cell strlen x = String.substring 0 (Z.to_nat (strlen - 3)) x +:+ "..." +:+ "  ")
  ∧ (Z.of_nat (String.length x) ≤ strlen →
     cell strlen x = x +:+ spaces (Z.to_nat strlen - String.length x) +:+ "  ").
Proof.
  intros Hs. unfold cell, slice_to.
  destruct (strlen <? Z.of_nat (String.length x)) eqn:E.
  - apply Z.ltb_lt in E.
    destruct (strlen - 3 <? 0) eqn:E3; [apply Z.ltb_lt in E3; lia|].
    rewrite Z.min_l by lia.
    assert (Hlen : String.length (String.substring 0 (Z.to_nat (strlen - 3)) x +:+ "...")
                   = Z.to_nat strlen).
    { rewrite string_length_app, string_length_prefix by lia. simpl. lia. }
    rewrite Hlen. replace (Z.to_nat (Z.abs strlen) - Z.to_nat strlen)%nat with 0%nat by lia.
    simpl. split; [|split].
    + rewrite string_length_app, Hlen. simpl. lia.
    + intros _. by rewrite string_app_assoc.
    + lia.
  - apply Z.ltb_ge in E. rewrite Z.abs_eq by lia. split; [|split].
    + rewrite !string_length_app, spaces_length. simpl. lia.
    + lia.
    + done.
Qed.

Lemma cell_width_witness :
  Z.of_nat (String.length (cell 5 "averyverylongname")) = 7
  ∧ cell 5 "averyverylongname" = "av...  ".
Proof.
  destruct (cell_width 5 "averyverylongname") as (Hw & Hcut & _); [lia|].
  split; [exact Hw|]. apply Hcut. simpl. lia.
Defined.

